(** * STM32 serial bootloader client (stm32_loader.py): model and properties

    The module [stm32_loader.py] drives the STM32 UART bootloader over a
    pyserial port.  The model below is a shallow embedding:

    - a Python [bytes] object is a [list byte]; a Python [int] is a [Z];
    - the serial port is the only mutable resource.  Its whole history is
      kept as a chronological list of events, and the device at the other end
      of the line is a function from the history of the line to the bytes
      that the next [io.read(n)] delivers (fewer than [n] bytes is what
      pyserial returns when its timeout expires);
    - every method is a computation in a state-and-exception monad over that
      history, with Python's [raise], [try/except] and [try/finally];
    - each public method of [STM32Loader] records its invocation and its
      outcome in the history, the way a test spy would, so that statements
      such as "go is never called" can be made about whole runs.  The device
      never sees these records, nor the progress callbacks.

    The port is assumed open and healthy: [write], [flushInput] and [close]
    do not raise; a short read is the only failure of the channel.  Calls to
    the [logging] module have no effect on the protocol and are left out. *)

From Equations Require Import Equations.
From Stdlib Require Import List ZArith QArith Lia Bool String Ascii.
From Stdlib Require Import Strings.Byte.
Import ListNotations.

Open Scope Z_scope.

(** ** Bytes and integers *)

Definition bytes := list byte.

(** [ord] of a byte: its value as a Python int. *)
Definition ord (b : byte) : Z := Z.of_N (Byte.to_N b).

Definition bytes_eq_dec : forall x y : bytes, {x = y} + {x <> y} :=
  list_eq_dec Byte.byte_eq_dec.

(** ** Exceptions *)

Inductive exn : Type :=
| STM32LoaderException (msg : string)
| STM32LoaderTimeoutException
| STM32LoaderNACKException
| ValueError        (* chr / bytes([x]) outside range(256) *)
| StructError       (* struct.pack('>I', x) outside 0 .. 2^32-1 *)
| TypeError         (* reduce() of an empty sequence *)
| IndexError.       (* l[0] on an empty list *)

Inductive result (A : Type) : Type :=
| Ok (a : A)
| Raise (e : exn).
Arguments Ok {A} a.
Arguments Raise {A} e.

(** ** Constants of the module *)

Definition ACK : Z := 0x79.
Definition NACK : Z := 0x1F.
Definition SYNCHRONIZATION_BYTE : Z := 0x7F.
Definition WRITE_BLOCK_SIZE : Z := 256.
Definition READ_BLOCK_SIZE : Z := 256.

Definition CMD_GET : Z := 0x00.
Definition CMD_GET_VERSION_AND_PROTECTION_STATUS : Z := 0x01.
Definition CMD_GET_ID : Z := 0x02.
Definition CMD_READ_MEMORY : Z := 0x11.
Definition CMD_GO : Z := 0x21.
Definition CMD_WRITE_MEMORY : Z := 0x31.
Definition CMD_ERASE : Z := 0x43.
Definition CMD_EXTENDED_ERASE : Z := 0x44.
Definition CMD_WRITE_PROTECT : Z := 0x63.
Definition CMD_WRITE_UNPROTECT : Z := 0x73.
Definition CMD_READOUT_PROTECT : Z := 0x82.
Definition CMD_READOUT_UNPROTECT : Z := 0x92.

Definition DEFAULT_FLASH_ADDRESS : Z := 0x08000000.

(** ** Values returned by the loader's methods *)

Record DeviceInfo : Type := mkDeviceInfo {
  version : Z;
  commands : list Z
}.

Record ProtectionStatus : Type := mkProtectionStatus {
  status_version : Z;
  option_bytes : list Z
}.

Inductive pyval : Type :=
| VNone
| VInfo (info : DeviceInfo)
| VStatus (st : ProtectionStatus)
| VInt (n : Z)
| VBytes (b : bytes).

(** ** The history of a session *)

(** Method invocations of [STM32Loader], with their arguments. *)
Inductive call : Type :=
| CSynchronize (skip_prefix : bool)
| CGet
| CGetVersionAndProtectionStatus
| CGetId
| CWriteUnprotect
| CReadoutUnprotect
| CReadMemory (start_address length : Z)
| CWriteMemory (start_address : Z) (data : bytes)
| CGlobalErase
| CExtendedErase
| CGo (start_address : Z)
| CReadMemoryBlocks (start_address length : Z)
| CWriteMemoryBlocks (start_address : Z) (data : bytes).

Inductive event : Type :=
(* the serial line *)
| EvOpen (port : string) (baudrate : Z) (timeout : Q)
| EvWrite (data : bytes)
| EvRead (num_bytes : Z) (data : bytes)
| EvFlushInput
| EvSleep (seconds : Z)
| EvClose
(* the progress callback: stage label (absent for the one-argument
   callbacks of the block transfers) and fraction *)
| EvProgress (stage : option string) (fraction : option Q)
(* the spy on the loader's methods *)
| EvCall (c : call)
| EvReturn (c : call) (v : pyval)
| EvRaise (c : call) (e : exn).

Definition history := list event.

(** What is observable at the other end of the line. *)
Definition on_wire (e : event) : bool :=
  match e with
  | EvOpen _ _ _ | EvWrite _ | EvRead _ _ | EvFlushInput | EvSleep _ | EvClose => true
  | _ => false
  end.

Definition wire (h : history) : history := filter on_wire h.

(** A device: given the history of the line and the number of bytes asked
    for, the bytes that arrive before the timeout. *)
Definition device := history -> Z -> bytes.

(** ** The monad of loader computations *)

Definition M (A : Type) : Type := history -> result A * history.

Definition ret {A} (a : A) : M A := fun h => (Ok a, h).

Definition raise {A} (e : exn) : M A := fun h => (Raise e, h).

Definition bind {A B} (m : M A) (f : A -> M B) : M B :=
  fun h => match m h with
           | (Ok a, h') => f a h'
           | (Raise e, h') => (Raise e, h')
           end.

Declare Scope loader_scope.
Delimit Scope loader_scope with loader.
Notation "x <- m ;; k" := (bind m (fun x => k))
  (at level 100, m at next level, right associativity) : loader_scope.
Notation "m ;; k" := (bind m (fun _ => k))
  (at level 100, right associativity) : loader_scope.
Notation "m >>= f" := (bind m f) (at level 50, left associativity) : loader_scope.
Open Scope loader_scope.

Definition lift {A} (r : result A) : M A := fun h => (r, h).

Definition emit (e : event) : M unit := fun h => (Ok tt, h ++ [e]).

(** [try: m except Exception as e: handler e] *)
Definition try_except {A} (m : M A) (handler : exn -> M A) : M A :=
  fun h => match m h with
           | (Ok a, h') => (Ok a, h')
           | (Raise e, h') => handler e h'
           end.

(** [try: m finally: cleanup] *)
Definition try_finally {A} (m : M A) (cleanup : M unit) : M A :=
  fun h => match m h with
           | (r, h') => match cleanup h' with
                        | (Ok _, h'') => (r, h'')
                        | (Raise e, h'') => (Raise e, h'')
                        end
           end.

(** The spy: the invocation is recorded on entry, the outcome on exit. *)
Definition method {A} (c : call) (to_val : A -> pyval) (body : M A) : M A :=
  fun h => match body (h ++ [EvCall c]) with
           | (Ok a, h') => (Ok a, h' ++ [EvReturn c (to_val a)])
           | (Raise e, h') => (Raise e, h' ++ [EvRaise c e])
           end.

Definition to_none (_ : unit) : pyval := VNone.

(** ** Python built-ins used by the module *)

(** [bchr]: [chr] on Python 2, [bytes([x])] on Python 3. *)
Definition bchr (x : Z) : result bytes :=
  if (0 <=? x) && (x <? 256) then
    match Byte.of_N (Z.to_N x) with
    | Some b => Ok [b]
    | None => Raise ValueError
    end
  else Raise ValueError.

(** The byte of value [x mod 256]. *)
Definition byte_of_Z (x : Z) : byte :=
  match Byte.of_N (Z.to_N (x mod 256)) with
  | Some b => b
  | None => x00
  end.

(** [struct.pack('>I', address)] *)
Definition struct_pack_I_be (address : Z) : result bytes :=
  if (0 <=? address) && (address <? 2 ^ 32) then
    Ok [byte_of_Z (Z.shiftr address 24); byte_of_Z (Z.shiftr address 16);
        byte_of_Z (Z.shiftr address 8); byte_of_Z address]
  else Raise StructError.

(** [reduce(f, l)] without initial value; [None] stands for the TypeError
    raised on an empty sequence. *)
Definition reduce1 {A} (f : A -> A -> A) (l : list A) : option A :=
  match l with
  | [] => None
  | x :: xs => Some (fold_left f xs x)
  end.

(** [b''.join(map(bchr, l))] *)
Fixpoint join_bchr (l : list Z) : result bytes :=
  match l with
  | [] => Ok []
  | x :: xs =>
      match bchr x with
      | Ok b => match join_bchr xs with
                | Ok bs => Ok (b ++ bs)
                | Raise e => Raise e
                end
      | Raise e => Raise e
      end
  end.

Definition hex_digit (n : Z) : ascii :=
  ascii_of_nat (Z.to_nat (if n <? 10 then 48 + n else 87 + n)).

(** ['%02x' % x] for [0 <= x < 256]. *)
Definition format_02x (x : Z) : string :=
  String (hex_digit (x / 16)) (String (hex_digit (x mod 16)) EmptyString).

(** [data[lo:hi]] for [0 <= lo <= hi]. *)
Definition slice (data : bytes) (lo hi : Z) : bytes :=
  firstn (Z.to_nat (hi - lo)) (skipn (Z.to_nat lo) data).

Definition len (data : bytes) : Z := Z.of_nat (List.length data).

(** [x in l] for a list of ints. *)
(** The measure of the padding loop of [load] decreases. *)
Lemma pad_measure (n : nat) :
  (n mod 4 <> 0 -> (4 - (n + 1) mod 4) mod 4 < (4 - n mod 4) mod 4)%nat.
Proof.
  intros H.
  pose proof (Nat.mod_upper_bound n 4 ltac:(lia)) as Hb.
  pose proof (Nat.Div0.add_mod n 1 4) as Hm.
  change (1 mod 4)%nat with 1%nat in Hm.
  assert (n mod 4 = 1 \/ n mod 4 = 2 \/ n mod 4 = 3)%nat as H1 by lia.
  destruct H1 as [E|[E|E]]; rewrite Hm, E; simpl; lia.
Qed.

Definition contains (x : Z) (l : list Z) : bool := existsb (Z.eqb x) l.

(** [a / float(b)]; the float quotient is kept as the exact fraction.  Every
    use below has [b > 256]. *)
Definition fdiv (a b : Z) : Q := Qmake a (Z.to_pos b).

(** ** class STM32Loader *)

Record STM32Loader : Type := mkSTM32Loader {
  synchronization_prefix : bytes
}.

(** The keyword arguments of the constructor. *)
Record loader_arguments : Type := mkArguments {
  arg_baudrate : option Z;
  arg_timeout : option Q;
  arg_synchronization_prefix : option bytes
}.

Definition default_arguments : loader_arguments := mkArguments None None None.

Section Loader.

Variable dev : device.

(** *** The serial port [self.io] *)

Definition io_read (num_bytes : Z) : M bytes :=
  fun h => let x := firstn (Z.to_nat num_bytes) (dev (wire h) num_bytes) in
           (Ok x, h ++ [EvRead num_bytes x]).

Definition io_write (data : bytes) : M unit := emit (EvWrite data).
Definition io_flushInput : M unit := emit EvFlushInput.
Definition io_close : M unit := emit EvClose.
Definition time_sleep (seconds : Z) : M unit := emit (EvSleep seconds).

(** *** Construction and release *)

Definition STM32Loader_init (port : string) (args : loader_arguments) : M STM32Loader :=
  let baudrate := match arg_baudrate args with
                  | Some b => if b =? 0 then 115200 else b
                  | None => 115200
                  end in
  let timeout := match arg_timeout args with
                 | Some t => if Qeq_bool t 0 then 1%Q else t
                 | None => 1%Q
                 end in
  let prefix := match arg_synchronization_prefix args with
                | Some p => p
                | None => []
                end in
  emit (EvOpen port baudrate timeout) ;;
  ret (mkSTM32Loader prefix).

Definition close (self : STM32Loader) : M unit := io_close.

(** *** Byte-level helpers *)

Definition _read_bytes (num_bytes : Z) : M (list Z) :=
  x <- io_read num_bytes ;;
  if negb (len x =? num_bytes) then raise STM32LoaderTimeoutException
  else ret (map ord x).

Definition _read_byte : M Z :=
  l <- _read_bytes 1 ;;
  match l with
  | x :: _ => ret x
  | [] => raise IndexError
  end.

Definition _write (data : bytes) : M unit := io_write data.

(** [self._write(bchr(x))] *)
Definition _write_bchr (x : Z) : M unit :=
  b <- lift (bchr x) ;;
  _write b.

Definition _wait_for_ack : M unit :=
  x <- _read_byte ;;
  if x =? NACK then raise STM32LoaderNACKException
  else if negb (x =? ACK) then
    raise (STM32LoaderException
             ("Invalid response while waiting for ACK: 0x" ++ format_02x x))
  else ret tt.

(** *** Commands *)

Definition synchronize (self : STM32Loader) (skip_prefix : bool) : M unit :=
  method (CSynchronize skip_prefix) to_none (
    io_flushInput ;;
    (if negb (len (synchronization_prefix self) =? 0) && negb skip_prefix then
       _write (synchronization_prefix self) ;;
       time_sleep 1
     else ret tt) ;;
    _write_bchr SYNCHRONIZATION_BYTE ;;
    time_sleep 1 ;;
    io_flushInput).

Definition generic_execute_and_confirm (cmd : Z) : M unit :=
  _write_bchr cmd ;;
  _write_bchr (Z.lxor cmd 0xFF) ;;
  _wait_for_ack.

Definition get : M DeviceInfo :=
  method CGet VInfo (
    generic_execute_and_confirm CMD_GET ;;
    response_length <- _read_byte ;;
    bl_version <- _read_byte ;;
    available_commands <- _read_bytes response_length ;;
    _wait_for_ack ;;
    ret (mkDeviceInfo bl_version available_commands)).

Definition get_version_and_protection_status : M ProtectionStatus :=
  method CGetVersionAndProtectionStatus VStatus (
    generic_execute_and_confirm CMD_GET_VERSION_AND_PROTECTION_STATUS ;;
    bl_version <- _read_byte ;;
    option_byte_1 <- _read_byte ;;
    option_byte_2 <- _read_byte ;;
    _wait_for_ack ;;
    ret (mkProtectionStatus bl_version [option_byte_1; option_byte_2])).

Definition get_id : M Z :=
  method CGetId VInt (
    generic_execute_and_confirm CMD_GET_ID ;;
    response_length <- _read_byte ;;
    if negb (response_length =? 1) then
      raise (STM32LoaderException "GET ID: Unexpected number of bytes")
    else
      id_msb <- _read_byte ;;
      id_lsb <- _read_byte ;;
      _wait_for_ack ;;
      ret (Z.lor (Z.shiftl id_msb 8) id_lsb)).

Definition write_unprotect : M unit :=
  method CWriteUnprotect to_none (
    generic_execute_and_confirm CMD_WRITE_UNPROTECT ;;
    _wait_for_ack).

Definition readout_unprotect : M unit :=
  method CReadoutUnprotect to_none (
    generic_execute_and_confirm CMD_READOUT_UNPROTECT ;;
    _wait_for_ack).

Definition _encode_address_with_checksum (address : Z) : result bytes :=
  match struct_pack_I_be address with
  | Raise e => Raise e
  | Ok packed =>
      let address_bytes := map ord packed in
      match reduce1 Z.lxor address_bytes with
      | None => Raise TypeError
      | Some x => join_bchr (address_bytes ++ [x])
      end
  end.

Definition read_memory (start_address length : Z) : M bytes :=
  method (CReadMemory start_address length) VBytes (
    generic_execute_and_confirm CMD_READ_MEMORY ;;
    (* Address *)
    address_bytes <- lift (_encode_address_with_checksum start_address) ;;
    _write address_bytes ;;
    _wait_for_ack ;;
    (* Length *)
    let encoded_length := Z.min length 256 - 1 in
    _write_bchr encoded_length ;;
    _write_bchr (Z.lxor encoded_length 0xFF) ;;
    _wait_for_ack ;;
    (* Read data *)
    l <- _read_bytes length ;;
    lift (join_bchr l)).

Definition write_memory (start_address : Z) (data : bytes) : M unit :=
  method (CWriteMemory start_address data) to_none (
    if (len data >? 256) || (len data =? 0) || negb (len data mod 4 =? 0) then
      raise (STM32LoaderException "Invalid data length")
    else
      generic_execute_and_confirm CMD_WRITE_MEMORY ;;
      (* Address *)
      address_bytes <- lift (_encode_address_with_checksum start_address) ;;
      _write address_bytes ;;
      _wait_for_ack ;;
      (* Length, no checksum, no ACK *)
      let encoded_length := len data - 1 in
      _write_bchr encoded_length ;;
      (* Data *)
      let checksum := fold_left (fun a x => Z.lxor a (ord x)) data encoded_length in
      _write data ;;
      _write_bchr checksum ;;
      _wait_for_ack).

Definition global_erase : M unit :=
  method CGlobalErase to_none (
    generic_execute_and_confirm CMD_ERASE ;;
    _write [xff; x00] ;;
    _wait_for_ack).

Definition extended_erase : M unit :=
  method CExtendedErase to_none (
    generic_execute_and_confirm CMD_EXTENDED_ERASE ;;
    _write [xff; xff; x00] ;;
    _wait_for_ack).

Definition go (start_address : Z) : M unit :=
  method (CGo start_address) to_none (
    generic_execute_and_confirm CMD_GO ;;
    address_bytes <- lift (_encode_address_with_checksum start_address) ;;
    _write address_bytes ;;
    _wait_for_ack).

(** *** Block transfers *)

(** The state of the two [while] loops: remaining length, offset, and (for
    reads) the bytes accumulated so far. *)
Equations? read_memory_blocks_loop (start_address original_length : Z)
    (progress_report_callback : Q -> M unit) (length offset : Z) (output : bytes)
    : M (Z * Z * bytes) by wf (Z.to_nat length) lt :=
  read_memory_blocks_loop start_address original_length progress_report_callback
      length offset output with Z_gt_dec length READ_BLOCK_SIZE => {
    | left _ =>
        chunk <- read_memory (start_address + offset) READ_BLOCK_SIZE ;;
        let output := output ++ chunk in
        let length := length - READ_BLOCK_SIZE in
        let offset := offset + READ_BLOCK_SIZE in
        progress_report_callback (fdiv offset original_length) ;;
        read_memory_blocks_loop start_address original_length progress_report_callback
          length offset output
    | right _ => ret (length, offset, output) }.
Proof. unfold READ_BLOCK_SIZE in *. lia. Qed.

Definition read_memory_blocks (start_address length : Z)
    (progress_report_callback : option (Q -> M unit)) : M bytes :=
  method (CReadMemoryBlocks start_address length) VBytes (
    let progress_report_callback :=
      match progress_report_callback with
      | Some f => f
      | None => fun _ => ret tt
      end in
    let original_length := length in
    st <- read_memory_blocks_loop start_address original_length
            progress_report_callback length 0 [] ;;
    let '(length, offset, output) := st in
    output <- (if length >? 0 then
                 chunk <- read_memory (start_address + offset) length ;;
                 ret (output ++ chunk)
               else ret output) ;;
    progress_report_callback 1%Q ;;
    ret output).

Equations? write_memory_blocks_loop (start_address : Z) (data : bytes)
    (progress_report_callback : Q -> M unit) (length offset : Z)
    : M (Z * Z) by wf (Z.to_nat length) lt :=
  write_memory_blocks_loop start_address data progress_report_callback
      length offset with Z_gt_dec length WRITE_BLOCK_SIZE => {
    | left _ =>
        write_memory (start_address + offset)
                     (slice data offset (offset + WRITE_BLOCK_SIZE)) ;;
        let length := length - WRITE_BLOCK_SIZE in
        let offset := offset + WRITE_BLOCK_SIZE in
        progress_report_callback (fdiv offset (len data)) ;;
        write_memory_blocks_loop start_address data progress_report_callback
          length offset
    | right _ => ret (length, offset) }.
Proof. unfold WRITE_BLOCK_SIZE in *. lia. Qed.

Definition write_memory_blocks (start_address : Z) (data : bytes)
    (progress_report_callback : option (Q -> M unit)) : M unit :=
  method (CWriteMemoryBlocks start_address data) to_none (
    let progress_report_callback :=
      match progress_report_callback with
      | Some f => f
      | None => fun _ => ret tt
      end in
    st <- write_memory_blocks_loop start_address data progress_report_callback
            (len data) 0 ;;
    let '(length, offset) := st in
    (if length >? 0 then
       write_memory (start_address + offset) (slice data offset (offset + length))
     else ret tt) ;;
    progress_report_callback 1%Q).

(** ** The session: [load] *)

(** [while len(binary_image) % 4 != 0: binary_image += b'\xFF'] *)
Equations? pad_image (binary_image : bytes) : bytes
    by wf ((4 - List.length binary_image mod 4) mod 4)%nat lt :=
  pad_image binary_image with Nat.eq_dec (List.length binary_image mod 4) 0 => {
    | left _ => binary_image
    | right _ => pad_image (binary_image ++ [xff]) }.
Proof. rewrite length_app. apply pad_measure. assumption. Qed.

(** [for _ in range(n): try: loader.get(); break
                        except Exception: loader.synchronize(skip_prefix=True)] *)
Fixpoint resynchronize (loader : STM32Loader) (n : nat) : M unit :=
  match n with
  | O => ret tt
  | S n' =>
      try_except (get ;; ret true) (fun _ => synchronize loader true ;; ret false)
      >>= fun stop => if stop then ret tt else resynchronize loader n'
  end.

Definition load (port : string) (binary_image : bytes) (load_address : option Z)
    (progress_report_callback : option (string -> option Q -> M unit))
    (opt_readout_unprotect opt_write_unprotect opt_go : bool)
    (args : loader_arguments) : M unit :=
  (* Argument validation *)
  let progress_report_callback :=
    match progress_report_callback with
    | Some f => f
    | None => fun _ _ => ret tt
    end in
  let load_address :=
    match load_address with
    | Some a => if a =? 0 then DEFAULT_FLASH_ADDRESS else a
    | None => DEFAULT_FLASH_ADDRESS
    end in
  let binary_image := pad_image binary_image in
  (* Initialization *)
  progress_report_callback "Synchronization"%string None ;;
  loader <- STM32Loader_init port args ;;
  try_finally (
    (* First attempt to synchronize *)
    try_except (synchronize loader false) (fun _ => ret tt) ;;
    (* Trying a command; if it fails, trying to resync without prefix *)
    resynchronize loader 3 ;;
    (* General info *)
    var_get <- get ;;
    get_version_and_protection_status ;;
    get_id ;;
    (* Target preparation *)
    progress_report_callback "Configuring target"%string None ;;
    (if opt_readout_unprotect then
       readout_unprotect ;;
       synchronize loader false
     else ret tt) ;;
    (if opt_write_unprotect then
       write_unprotect ;;
       synchronize loader false
     else ret tt) ;;
    (if contains CMD_ERASE (commands var_get) then global_erase
     else extended_erase) ;;
    (* Write *)
    let write_reporter := fun x => progress_report_callback "Writing image"%string (Some x) in
    write_memory_blocks load_address binary_image (Some write_reporter) ;;
    (* Verification *)
    let verification_reporter :=
      fun x => progress_report_callback "Verification"%string (Some x) in
    readback <- read_memory_blocks load_address (len binary_image)
                  (Some verification_reporter) ;;
    if bytes_eq_dec readback binary_image then
      (* Run programm *)
      if opt_go then go load_address else ret tt
    else raise (STM32LoaderException "Verification failed")
  ) (close loader).

End Loader.

(** The callbacks that record what they are given. *)
Definition record_progress : string -> option Q -> M unit :=
  fun stage fraction => emit (EvProgress (Some stage) fraction).

Definition record_fraction : Q -> M unit :=
  fun fraction => emit (EvProgress None (Some fraction)).

(** ** A simulated bootloader

    An executable device for the examples: the bootloader side of the
    protocol, as a state machine fed with the bytes written by the host.  A
    [board] fixes the advertised commands; [board_deaf] is the number of
    synchronization bytes the board misses while it is still resetting, and
    [board_stuck] is the address of a flash cell that reads back as 0x00
    whatever is written to it. *)

Record board : Type := mkBoard {
  board_commands : list Z;
  board_version : Z;
  board_id : Z;
  board_deaf : nat;
  board_stuck : option Z
}.

Inductive phase : Type :=
| Asleep (missed : nat)
| Idle
| Complement (cmd : Z)
| Address (cmd : Z) (acc : list Z)
| ReadLength (addr : Z) (acc : list Z)
| WriteLength (addr : Z)
| WriteData (addr n : Z) (acc : list Z)
| EraseArgument (need : nat) (acc : list Z)
| Running.

Record sim : Type := mkSim {
  sim_phase : phase;
  sim_out : bytes;
  sim_flash : Z -> byte
}.

Definition xor_all (l : list Z) : Z := fold_left Z.lxor l 0.

Definition big_endian (l : list Z) : Z := fold_left (fun a x => a * 256 + x) l 0.

Definition reply (s : sim) (p : phase) (out : list Z) : sim :=
  mkSim p (sim_out s ++ map byte_of_Z out) (sim_flash s).

Definition store (flash : Z -> byte) (addr : Z) (data : list Z) : Z -> byte :=
  fun a => if (addr <=? a) && (a <? addr + Z.of_nat (List.length data))
           then byte_of_Z (nth (Z.to_nat (a - addr)) data 0)
           else flash a.

Definition fetch (b : board) (flash : Z -> byte) (addr : Z) (n : nat) : list Z :=
  map (fun k => let a := addr + Z.of_nat k in
                match board_stuck b with
                | Some bad => if a =? bad then 0 else ord (flash a)
                | None => ord (flash a)
                end) (seq 0 n).

Definition step_byte (b : board) (s : sim) (x : byte) : sim :=
  let v := ord x in
  match sim_phase s with
  | Asleep missed =>
      if v =? SYNCHRONIZATION_BYTE then
        match missed with
        | O => reply s Idle [ACK]
        | S m => reply s (Asleep m) []
        end
      else s
  | Idle => reply s (Complement v) []
  | Complement cmd =>
      if (v =? Z.lxor cmd 0xFF) && contains cmd (board_commands b) then
        if cmd =? CMD_GET then
          reply s Idle ([ACK; Z.of_nat (List.length (board_commands b)); board_version b]
                        ++ board_commands b ++ [ACK])
        else if cmd =? CMD_GET_VERSION_AND_PROTECTION_STATUS then
          reply s Idle [ACK; board_version b; 0; 0; ACK]
        else if cmd =? CMD_GET_ID then
          reply s Idle [ACK; 1; Z.shiftr (board_id b) 8; Z.land (board_id b) 0xFF; ACK]
        else if (cmd =? CMD_READ_MEMORY) || (cmd =? CMD_WRITE_MEMORY) || (cmd =? CMD_GO) then
          reply s (Address cmd []) [ACK]
        else if cmd =? CMD_ERASE then reply s (EraseArgument 2 []) [ACK]
        else if cmd =? CMD_EXTENDED_ERASE then reply s (EraseArgument 3 []) [ACK]
        else if (cmd =? CMD_WRITE_UNPROTECT) || (cmd =? CMD_READOUT_UNPROTECT) then
          reply s (Asleep 0) [ACK; ACK]
        else reply s Idle [NACK]
      else reply s Idle [NACK]
  | Address cmd acc =>
      let acc := acc ++ [v] in
      if (List.length acc <? 5)%nat then reply s (Address cmd acc) []
      else if negb (xor_all acc =? 0) then reply s Idle [NACK]
      else
        let addr := big_endian (firstn 4 acc) in
        if cmd =? CMD_READ_MEMORY then reply s (ReadLength addr []) [ACK]
        else if cmd =? CMD_WRITE_MEMORY then reply s (WriteLength addr) [ACK]
        else reply s Running [ACK]
  | ReadLength addr acc =>
      let acc := acc ++ [v] in
      match acc with
      | [n; c] =>
          if c =? Z.lxor n 0xFF then
            reply s Idle (ACK :: fetch b (sim_flash s) addr (Z.to_nat (n + 1)))
          else reply s Idle [NACK]
      | _ => reply s (ReadLength addr acc) []
      end
  | WriteLength addr => reply s (WriteData addr v []) []
  | WriteData addr n acc =>
      let acc := acc ++ [v] in
      if (List.length acc <? Z.to_nat (n + 2))%nat then reply s (WriteData addr n acc) []
      else if negb (xor_all (n :: acc) =? 0) then reply s Idle [NACK]
      else mkSim Idle (sim_out s ++ [byte_of_Z ACK])
                 (store (sim_flash s) addr (firstn (Z.to_nat (n + 1)) acc))
  | EraseArgument need acc =>
      let acc := acc ++ [v] in
      if (List.length acc <? need)%nat then reply s (EraseArgument need acc) []
      else
        match acc with
        | [0xFF; 0x00] | [0xFF; 0xFF; 0x00] =>
            (* mass erase *)
            mkSim Idle (sim_out s ++ [byte_of_Z ACK]) (fun _ => xff)
        | _ => reply s Idle [NACK]
        end
  | Running => s
  end.

Definition step_event (b : board) (s : sim) (e : event) : sim :=
  match e with
  | EvWrite data => fold_left (step_byte b) data s
  | EvRead _ data => mkSim (sim_phase s) (skipn (List.length data) (sim_out s)) (sim_flash s)
  | EvFlushInput => mkSim (sim_phase s) [] (sim_flash s)
  | _ => s
  end.

Definition power_on (b : board) : sim :=
  mkSim (Asleep (board_deaf b)) [] (fun _ => x00).

(** The bytes waiting in the host's input buffer after the history [h]. *)
Definition bootloader (b : board) : device :=
  fun h _ => sim_out (fold_left (step_event b) h (power_on b)).

(** ** Boards used in the examples *)

Definition all_commands : list Z :=
  [CMD_GET; CMD_GET_VERSION_AND_PROTECTION_STATUS; CMD_GET_ID; CMD_READ_MEMORY;
   CMD_GO; CMD_WRITE_MEMORY; CMD_ERASE; CMD_WRITE_UNPROTECT; CMD_READOUT_UNPROTECT].

Definition extended_commands : list Z :=
  [CMD_GET; CMD_GET_VERSION_AND_PROTECTION_STATUS; CMD_GET_ID; CMD_READ_MEMORY;
   CMD_GO; CMD_WRITE_MEMORY; CMD_EXTENDED_ERASE; CMD_WRITE_UNPROTECT;
   CMD_READOUT_UNPROTECT].

(** A healthy board with the classic erase command. *)
Definition good_board : board := mkBoard all_commands 0x22 0x0410 0 None.

(** A board that only has the extended erase command. *)
Definition extended_board : board := mkBoard extended_commands 0x31 0x0413 0 None.

(** A board that misses the first three synchronization bytes. *)
Definition late_board : board := mkBoard extended_commands 0x31 0x0413 3 None.


(** A line on which nothing ever arrives. *)
Definition silent_device : device := fun _ _ => [].

(** * Properties *)

(** ** Bytes *)

Lemma ord_range (b : byte) : 0 <= ord b < 256.
Proof.
  unfold ord. pose proof (Byte.to_N_bounded b). lia.
Qed.

Lemma byte_of_Z_ord (b : byte) : byte_of_Z (ord b) = b.
Proof.
  unfold byte_of_Z. rewrite Z.mod_small by apply ord_range.
  unfold ord. rewrite N2Z.id, Byte.of_to_N. reflexivity.
Qed.

Lemma of_N_small (n : N) : (n < 256)%N -> exists b, Byte.of_N n = Some b.
Proof.
  intros H. destruct (Byte.of_N n) as [b|] eqn:E; [eauto|].
  apply Byte.of_N_None_iff in E. lia.
Qed.

Lemma ord_byte_of_Z (x : Z) : ord (byte_of_Z x) = x mod 256.
Proof.
  unfold byte_of_Z.
  pose proof (Z.mod_pos_bound x 256 eq_refl) as P.
  destruct (of_N_small (Z.to_N (x mod 256)) ltac:(lia)) as [b E].
  rewrite E. unfold ord. rewrite (Byte.to_of_N _ E). lia.
Qed.

Lemma bchr_in_range (x : Z) : 0 <= x < 256 -> bchr x = Ok [byte_of_Z x].
Proof.
  intros H. unfold bchr, byte_of_Z.
  replace ((0 <=? x) && (x <? 256)) with true
    by (symmetry; apply andb_true_iff; split; [apply Z.leb_le | apply Z.ltb_lt]; lia).
  rewrite Z.mod_small by lia.
  destruct (of_N_small (Z.to_N x) ltac:(lia)) as [b E]. rewrite E. reflexivity.
Qed.

Lemma bchr_out_of_range (x : Z) : ~ (0 <= x < 256) -> bchr x = Raise ValueError.
Proof.
  intros H. unfold bchr.
  destruct ((0 <=? x) && (x <? 256)) eqn:E; [|reflexivity].
  apply andb_true_iff in E. destruct E as [E1 E2].
  apply Z.leb_le in E1. apply Z.ltb_lt in E2. lia.
Qed.

Lemma bchr_ord (b : byte) : bchr (ord b) = Ok [b].
Proof.
  rewrite bchr_in_range by apply ord_range. rewrite byte_of_Z_ord. reflexivity.
Qed.

Lemma join_bchr_ord (l : bytes) : join_bchr (map ord l) = Ok l.
Proof.
  induction l as [|b l IH]; simpl; [reflexivity|].
  rewrite bchr_ord, IH. reflexivity.
Qed.

Lemma log2_byte (a : Z) : 0 <= a < 256 -> Z.log2 a < 8.
Proof.
  intros Ha. destruct (Z.eq_dec a 0) as [->|Hn]; [simpl; lia|].
  apply Z.log2_lt_pow2; lia.
Qed.

Lemma lxor_byte_range (a b : Z) : 0 <= a < 256 -> 0 <= b < 256 -> 0 <= Z.lxor a b < 256.
Proof.
  intros Ha Hb.
  assert (0 <= Z.lxor a b) as Hnn by (apply Z.lxor_nonneg; lia).
  split; [assumption|].
  destruct (Z.eq_dec (Z.lxor a b) 0) as [E|E]; [lia|].
  change 256 with (2 ^ 8).
  apply Z.log2_lt_pow2; [lia|].
  pose proof (Z.log2_lxor a b ltac:(lia) ltac:(lia)) as Hl.
  pose proof (log2_byte a Ha). pose proof (log2_byte b Hb). lia.
Qed.

Lemma fold_lxor_range (l : bytes) (a : Z) :
  0 <= a < 256 -> 0 <= fold_left (fun a x => Z.lxor a (ord x)) l a < 256.
Proof.
  revert a. induction l as [|b l IH]; intros a Ha; simpl; [assumption|].
  apply IH. apply lxor_byte_range; [assumption | apply ord_range].
Qed.

Lemma fold_lxor_xor_all (l : list Z) (a : Z) :
  fold_left Z.lxor l a = Z.lxor a (xor_all l).
Proof.
  unfold xor_all. revert a. induction l as [|x l IH]; intros a; simpl.
  - rewrite Z.lxor_0_r. reflexivity.
  - rewrite IH, (IH x). rewrite Z.lxor_assoc. reflexivity.
Qed.

Lemma fold_lxor_ord (l : bytes) (a : Z) :
  fold_left (fun a x => Z.lxor a (ord x)) l a = fold_left Z.lxor (map ord l) a.
Proof.
  revert a. induction l as [|b l IH]; intros a; simpl; [reflexivity | apply IH].
Qed.

(** ** The monad *)

Lemma bind_ok {A B} (m : M A) (f : A -> M B) h a h' :
  m h = (Ok a, h') -> bind m f h = f a h'.
Proof. intros E. unfold bind. rewrite E. reflexivity. Qed.

Lemma bind_raise {A B} (m : M A) (f : A -> M B) h e h' :
  m h = (Raise e, h') -> bind m f h = (Raise e, h').
Proof. intros E. unfold bind. rewrite E. reflexivity. Qed.

(** The record left by the spy when a method finishes. *)
Definition outcome {A} (c : call) (to_val : A -> pyval) (r : result A) : event :=
  match r with
  | Ok a => EvReturn c (to_val a)
  | Raise e => EvRaise c e
  end.

Lemma method_run {A} (c : call) (to_val : A -> pyval) (body : M A) h r h' :
  body (h ++ [EvCall c]) = (r, h') ->
  method c to_val body h = (r, h' ++ [outcome c to_val r]).
Proof. intros E. unfold method. rewrite E. destruct r; reflexivity. Qed.

(** ** Frame primitives *)

Section FramePrimitives.

Variable dev : device.

(** What [io.read(n)] delivers after the history [h]. *)
Definition arriving (h : history) (n : Z) : bytes :=
  firstn (Z.to_nat n) (dev (wire h) n).

Lemma arriving_length h n : 0 <= n -> len (arriving h n) <= n.
Proof.
  intros Hn. unfold arriving, len. rewrite length_firstn. lia.
Qed.

Lemma read_bytes_run (h : history) (n : Z) :
  _read_bytes dev n h =
    (if len (arriving h n) =? n then Ok (map ord (arriving h n))
     else Raise STM32LoaderTimeoutException,
     h ++ [EvRead n (arriving h n)]).
Proof.
  unfold _read_bytes, bind, io_read. fold (arriving h n).
  destruct (len (arriving h n) =? n); reflexivity.
Qed.

Lemma read_byte_run (h : history) :
  _read_byte dev h =
    (match arriving h 1 with
     | b :: _ => Ok (ord b)
     | [] => Raise STM32LoaderTimeoutException
     end, h ++ [EvRead 1 (arriving h 1)]).
Proof.
  unfold _read_byte, bind. rewrite read_bytes_run.
  pose proof (arriving_length h 1 ltac:(lia)) as Hl.
  destruct (arriving h 1) as [|b [|b' l]] eqn:E; try reflexivity.
  unfold len in Hl. simpl in Hl. lia.
Qed.

(** C5. The ACK wait reads exactly one byte from the channel, whatever
    arrives.  If nothing arrives before the timeout it raises the timeout
    exception; if the byte is 0x1F it raises the NACK exception; if the byte
    is 0x79 it returns normally; for any other byte it raises the general
    loader exception (the protocol error), whose message quotes the byte. *)
Theorem wait_for_ack_outcome (h : history) :
  snd (_wait_for_ack dev h) = h ++ [EvRead 1 (arriving h 1)] /\
  fst (_wait_for_ack dev h) =
    match arriving h 1 with
    | [] => Raise STM32LoaderTimeoutException
    | b :: _ =>
        if ord b =? 0x1F then Raise STM32LoaderNACKException
        else if ord b =? 0x79 then Ok tt
        else Raise (STM32LoaderException
                      ("Invalid response while waiting for ACK: 0x" ++ format_02x (ord b)))
    end.
Proof.
  unfold _wait_for_ack, bind. rewrite read_byte_run.
  destruct (arriving h 1) as [|b l]; [split; reflexivity|].
  unfold NACK, ACK, raise, ret.
  destruct (ord b =? 0x1F); [split; reflexivity|].
  destruct (ord b =? 0x79); split; reflexivity.
Qed.

End FramePrimitives.

(** The inverse of the address encoding: [struct.unpack('>I', b[:4])]. *)
Definition decode_address (b : bytes) : Z := big_endian (map ord (firstn 4 b)).

Lemma struct_pack_in_range (address : Z) :
  0 <= address < 2 ^ 32 ->
  struct_pack_I_be address =
    Ok [byte_of_Z (Z.shiftr address 24); byte_of_Z (Z.shiftr address 16);
        byte_of_Z (Z.shiftr address 8); byte_of_Z address].
Proof.
  intros H. unfold struct_pack_I_be.
  replace ((0 <=? address) && (address <? 2 ^ 32)) with true; [reflexivity|].
  symmetry. apply andb_true_iff. split; [apply Z.leb_le | apply Z.ltb_lt]; lia.
Qed.

Lemma encode_address_in_range (address : Z) :
  0 <= address < 2 ^ 32 ->
  let b0 := byte_of_Z (Z.shiftr address 24) in
  let b1 := byte_of_Z (Z.shiftr address 16) in
  let b2 := byte_of_Z (Z.shiftr address 8) in
  let b3 := byte_of_Z address in
  _encode_address_with_checksum address =
    Ok [b0; b1; b2; b3;
        byte_of_Z (Z.lxor (Z.lxor (Z.lxor (ord b0) (ord b1)) (ord b2)) (ord b3))].
Proof.
  intros H b0 b1 b2 b3. unfold _encode_address_with_checksum.
  rewrite struct_pack_in_range by assumption. fold b0 b1 b2 b3.
  cbn [map reduce1 fold_left app join_bchr].
  rewrite !bchr_ord.
  rewrite bchr_in_range; [reflexivity|].
  pose proof (ord_range b0). pose proof (ord_range b1).
  pose proof (ord_range b2). pose proof (ord_range b3).
  repeat apply lxor_byte_range; assumption.
Qed.

(** C8. For every 32-bit unsigned address the encoder succeeds and yields
    exactly five bytes: the first four are the big-endian bytes of the
    address, so that decoding them gives the address back, and the fifth is
    the XOR of the other four. *)
Theorem encode_address_roundtrip (address : Z) :
  0 <= address < 2 ^ 32 ->
  exists b0 b1 b2 b3 c,
    _encode_address_with_checksum address = Ok [b0; b1; b2; b3; c] /\
    ord b0 * 2 ^ 24 + ord b1 * 2 ^ 16 + ord b2 * 2 ^ 8 + ord b3 = address /\
    decode_address [b0; b1; b2; b3; c] = address /\
    ord c = Z.lxor (Z.lxor (Z.lxor (ord b0) (ord b1)) (ord b2)) (ord b3).
Proof.
  intros H.
  exists (byte_of_Z (Z.shiftr address 24)), (byte_of_Z (Z.shiftr address 16)),
         (byte_of_Z (Z.shiftr address 8)), (byte_of_Z address).
  eexists. split; [apply encode_address_in_range; assumption|].
  assert (ord (byte_of_Z (Z.shiftr address 24)) * 2 ^ 24
          + ord (byte_of_Z (Z.shiftr address 16)) * 2 ^ 16
          + ord (byte_of_Z (Z.shiftr address 8)) * 2 ^ 8
          + ord (byte_of_Z address) = address) as Hsum.
  { rewrite !ord_byte_of_Z, !Z.shiftr_div_pow2 by lia.
    change (2 ^ 32) with 4294967296 in H.
    change (2 ^ 24) with 16777216. change (2 ^ 16) with 65536. change (2 ^ 8) with 256.
    pose proof (Z.div_mod address 16777216 ltac:(lia)).
    pose proof (Z.div_mod address 65536 ltac:(lia)).
    pose proof (Z.div_mod address 256 ltac:(lia)).
    pose proof (Z.mod_pos_bound address 16777216 ltac:(lia)).
    pose proof (Z.mod_pos_bound address 65536 ltac:(lia)).
    pose proof (Z.mod_pos_bound address 256 ltac:(lia)).
    pose proof (Z.div_mod (address / 16777216) 256 ltac:(lia)).
    pose proof (Z.div_mod (address / 65536) 256 ltac:(lia)).
    pose proof (Z.div_mod (address / 256) 256 ltac:(lia)).
    assert (address / 16777216 / 256 = 0)
      by (rewrite Z.div_div by lia; apply Z.div_small; lia).
    assert (address / 65536 / 256 = address / 16777216)
      by (rewrite Z.div_div by lia; reflexivity).
    assert (address / 256 / 256 = address / 65536)
      by (rewrite Z.div_div by lia; reflexivity).
    lia. }
  split; [exact Hsum|]. split.
  - unfold decode_address, big_endian. cbn [firstn map fold_left]. lia.
  - rewrite ord_byte_of_Z. apply Z.mod_small.
    repeat apply lxor_byte_range; apply ord_range.
Qed.

(** An address of the flash, encoded. *)
Lemma encode_address_roundtrip_witness :
  0 <= 0x08000100 < 2 ^ 32 /\
  exists b0 b1 b2 b3 c,
    _encode_address_with_checksum 0x08000100 = Ok [b0; b1; b2; b3; c] /\
    ord b0 * 2 ^ 24 + ord b1 * 2 ^ 16 + ord b2 * 2 ^ 8 + ord b3 = 0x08000100 /\
    decode_address [b0; b1; b2; b3; c] = 0x08000100 /\
    ord c = Z.lxor (Z.lxor (Z.lxor (ord b0) (ord b1)) (ord b2)) (ord b3).
Proof.
  split; [lia | apply (encode_address_roundtrip 0x08000100); lia].
Defined.

(** ** Command protocol layer *)

Section Commands.

Variable dev : device.

Lemma bind_assoc {A B C} (m : M A) (f : A -> M B) (g : B -> M C) (h : history) :
  bind (bind m f) g h = bind m (fun x => bind (f x) g) h.
Proof.
  unfold bind. destruct (m h) as [[a|e] h']; reflexivity.
Qed.

Lemma write_bchr_run (x : Z) (h : history) :
  0 <= x < 256 -> _write_bchr x h = (Ok tt, h ++ [EvWrite [byte_of_Z x]]).
Proof.
  intros Hx. unfold _write_bchr, bind, lift. rewrite bchr_in_range by assumption.
  reflexivity.
Qed.

(** The exchange that opens [read_memory], [write_memory] and [go]: the
    command with its complement, an ACK, the encoded address, an ACK. *)
Definition command_and_address (cmd address : Z) : M unit :=
  generic_execute_and_confirm dev cmd ;;
  address_bytes <- lift (_encode_address_with_checksum address) ;;
  _write address_bytes ;;
  _wait_for_ack dev.

(** The checksum that closes a WRITE MEMORY frame. *)
Definition frame_checksum (data : bytes) : Z :=
  Z.lxor (len data - 1) (xor_all (map ord data)).

Lemma frame_checksum_fold (data : bytes) :
  fold_left (fun a x => Z.lxor a (ord x)) data (len data - 1) = frame_checksum data.
Proof.
  unfold frame_checksum. rewrite fold_lxor_ord. apply fold_lxor_xor_all.
Qed.

Lemma valid_length_test (data : bytes) :
  0 < len data <= 256 -> len data mod 4 = 0 ->
  (len data >? 256) || (len data =? 0) || negb (len data mod 4 =? 0) = false.
Proof.
  intros H1 H2.
  replace (len data >? 256) with false by (symmetry; rewrite Z.gtb_ltb; apply Z.ltb_ge; lia).
  replace (len data =? 0) with false by (symmetry; apply Z.eqb_neq; lia).
  rewrite H2. reflexivity.
Qed.

(** C3. For a chunk whose length is a multiple of 4 in (0,256], once the
    command and the address have been acknowledged, write_memory sends the
    length byte len-1, then the data, then one checksum byte, the XOR of
    len-1 with every data byte (a value that fits a byte), and its outcome is
    that of one ACK wait performed right after these three writes. *)
Theorem write_memory_frame (start_address : Z) (data : bytes) (h h1 : history) :
  0 < len data <= 256 ->
  len data mod 4 = 0 ->
  command_and_address CMD_WRITE_MEMORY start_address
    (h ++ [EvCall (CWriteMemory start_address data)]) = (Ok tt, h1) ->
  let h2 := h1 ++ [EvWrite [byte_of_Z (len data - 1)];
                   EvWrite data;
                   EvWrite [byte_of_Z (frame_checksum data)]] in
  0 <= frame_checksum data < 256 /\
  write_memory dev start_address data h =
    (fst (_wait_for_ack dev h2),
     snd (_wait_for_ack dev h2)
       ++ [outcome (CWriteMemory start_address data) to_none (fst (_wait_for_ack dev h2))]).
Proof.
  intros Hlen Hmod Hhead h2.
  assert (0 <= frame_checksum data < 256) as Hck.
  { rewrite <- frame_checksum_fold. apply fold_lxor_range. lia. }
  split; [exact Hck|].
  unfold write_memory. apply method_run.
  rewrite valid_length_test by assumption.
  unfold command_and_address in Hhead.
  remember (h ++ [EvCall (CWriteMemory start_address data)]) as h0.
  unfold bind in Hhead |- *.
  destruct (generic_execute_and_confirm dev CMD_WRITE_MEMORY h0) as [[[]|e] ha];
    [|discriminate].
  destruct (lift (_encode_address_with_checksum start_address) ha) as [[ab|e] hb];
    [|discriminate].
  destruct (_write ab hb) as [[[]|e] hc]; [|discriminate].
  rewrite Hhead.
  rewrite write_bchr_run by lia.
  unfold _write at 1, io_write, emit.
  rewrite frame_checksum_fold.
  rewrite write_bchr_run by assumption.
  rewrite <- !app_assoc. simpl. fold h2.
  destruct (_wait_for_ack dev h2); reflexivity.
Qed.

End Commands.

(** The line just after a synchronization byte has been sent to a board and
    its answer discarded. *)
Definition synchronized : history := [EvWrite [x7f]; EvFlushInput].

(** A four-byte chunk written to a healthy board. *)
Lemma write_memory_frame_witness :
  let dev := bootloader good_board in
  let data := [x01; x02; x03; x04] in
  let h1 := snd (command_and_address dev CMD_WRITE_MEMORY DEFAULT_FLASH_ADDRESS
                   (synchronized ++ [EvCall (CWriteMemory DEFAULT_FLASH_ADDRESS data)])) in
  let h2 := h1 ++ [EvWrite [x03]; EvWrite data; EvWrite [x07]] in
  write_memory dev DEFAULT_FLASH_ADDRESS data synchronized =
    (Ok tt, h2 ++ [EvRead 1 [x79]; EvReturn (CWriteMemory DEFAULT_FLASH_ADDRESS data) VNone]).
Proof.
  intros dev data h1 h2.
  destruct (write_memory_frame dev DEFAULT_FLASH_ADDRESS data synchronized h1) as [_ E].
  - unfold len. simpl. lia.
  - reflexivity.
  - vm_compute. reflexivity.
  - rewrite E. vm_compute. reflexivity.
Defined.

(** C4. A request for 300 bytes sent to a healthy board: the length byte
    on the wire is capped (0xFF, that is 256 bytes), but the read that
    follows still asks the channel for 300 bytes; the board delivers the 256
    it was asked for and the call ends in the timeout exception. *)
Theorem read_memory_oversized_request :
  read_memory (bootloader good_board) DEFAULT_FLASH_ADDRESS 300 synchronized =
    (Raise STM32LoaderTimeoutException,
     synchronized ++
     [EvCall (CReadMemory DEFAULT_FLASH_ADDRESS 300);
      EvWrite [x11]; EvWrite [xee]; EvRead 1 [x79];
      EvWrite [x08; x00; x00; x00; x08]; EvRead 1 [x79];
      EvWrite [xff]; EvWrite [x00]; EvRead 1 [x79];
      EvRead 300 (repeat x00 256);
      EvRaise (CReadMemory DEFAULT_FLASH_ADDRESS 300) STM32LoaderTimeoutException]).
Proof. vm_compute. reflexivity. Qed.

(** ** Block transfer engine *)

Section Blocks.

Variable dev : device.

(** The two loops, unfolded once. *)
Lemma write_loop_more start data cb length offset :
  length > WRITE_BLOCK_SIZE ->
  write_memory_blocks_loop dev start data cb length offset =
    (write_memory dev (start + offset) (slice data offset (offset + WRITE_BLOCK_SIZE)) ;;
     cb (fdiv (offset + WRITE_BLOCK_SIZE) (len data)) ;;
     write_memory_blocks_loop dev start data cb
       (length - WRITE_BLOCK_SIZE) (offset + WRITE_BLOCK_SIZE)).
Proof.
  intros H. rewrite write_memory_blocks_loop_equation_1.
  destruct (Z_gt_dec length WRITE_BLOCK_SIZE); [reflexivity | contradiction].
Qed.

Lemma write_loop_done start data cb length offset :
  length <= WRITE_BLOCK_SIZE ->
  write_memory_blocks_loop dev start data cb length offset = ret (length, offset).
Proof.
  intros H. rewrite write_memory_blocks_loop_equation_1.
  destruct (Z_gt_dec length WRITE_BLOCK_SIZE); [lia | reflexivity].
Qed.

Lemma read_loop_more start original cb length offset output :
  length > READ_BLOCK_SIZE ->
  read_memory_blocks_loop dev start original cb length offset output =
    (chunk <- read_memory dev (start + offset) READ_BLOCK_SIZE ;;
     cb (fdiv (offset + READ_BLOCK_SIZE) original) ;;
     read_memory_blocks_loop dev start original cb
       (length - READ_BLOCK_SIZE) (offset + READ_BLOCK_SIZE) (output ++ chunk)).
Proof.
  intros H. rewrite read_memory_blocks_loop_equation_1.
  destruct (Z_gt_dec length READ_BLOCK_SIZE); [reflexivity | contradiction].
Qed.

Lemma read_loop_done start original cb length offset output :
  length <= READ_BLOCK_SIZE ->
  read_memory_blocks_loop dev start original cb length offset output =
    ret (length, offset, output).
Proof.
  intros H. rewrite read_memory_blocks_loop_equation_1.
  destruct (Z_gt_dec length READ_BLOCK_SIZE); [lia | reflexivity].
Qed.

(** C10. With empty data write_memory_blocks does nothing but invoke the
    progress callback once, with 1.0: for any callback the call is that single
    invocation under the spy; with the recording callback the history gains
    the call, one progress record of value 1 and the normal return, and no
    event of the serial line; without a callback it gains the call and the
    return only.  No write_memory call is made and the call succeeds. *)
Theorem write_memory_blocks_empty (start_address : Z) (h : history) :
  (forall cb : Q -> M unit,
     write_memory_blocks dev start_address [] (Some cb) h =
       method (CWriteMemoryBlocks start_address []) to_none (cb 1%Q) h) /\
  write_memory_blocks dev start_address [] (Some record_fraction) h =
    (Ok tt, h ++ [EvCall (CWriteMemoryBlocks start_address []);
                  EvProgress None (Some 1%Q);
                  EvReturn (CWriteMemoryBlocks start_address []) VNone]) /\
  write_memory_blocks dev start_address [] None h =
    (Ok tt, h ++ [EvCall (CWriteMemoryBlocks start_address []);
                  EvReturn (CWriteMemoryBlocks start_address []) VNone]).
Proof.
  assert (forall cb : Q -> M unit,
            write_memory_blocks dev start_address [] (Some cb) h =
              method (CWriteMemoryBlocks start_address []) to_none (cb 1%Q) h) as Hcb.
  { intros cb. unfold write_memory_blocks, method.
    rewrite write_loop_done by (unfold len, WRITE_BLOCK_SIZE; simpl; lia).
    unfold bind, ret. change (len [] >? 0) with false. cbv iota beta.
    destruct (cb 1%Q (h ++ [EvCall (CWriteMemoryBlocks start_address [])]))
      as [[[]|e] h']; reflexivity. }
  split; [exact Hcb|]. split.
  - rewrite Hcb. unfold method, record_fraction, emit.
    rewrite <- !app_assoc. reflexivity.
  - unfold write_memory_blocks, method.
    rewrite write_loop_done by (unfold len, WRITE_BLOCK_SIZE; simpl; lia).
    unfold bind, ret. change (len [] >? 0) with false. cbv iota beta.
    rewrite <- !app_assoc. reflexivity.
Qed.

End Blocks.

(** ** Projections of the history

    A whole run is studied through what a selection [sel] of the events
    keeps of its history.  The selections used below never keep an event of
    the serial line nor a progress record, so the byte-level helpers and the
    callbacks leave the projection unchanged, and each method contributes the
    records of its own call. *)

Definition event_call (e : event) : option call :=
  match e with
  | EvCall c | EvReturn c _ | EvRaise c _ => Some c
  | _ => None
  end.

Section Keep.

Variable dev : device.
Variable sel : event -> bool.
Hypothesis sel_wire : forall e, on_wire e = true -> sel e = false.
Hypothesis sel_progress : forall s f, sel (EvProgress s f) = false.

Definition keep (h : history) : history := filter sel h.

Definition quiet {A} (m : M A) : Prop :=
  forall h r h', m h = (r, h') -> keep h' = keep h.

Lemma keep_app (h1 h2 : history) : keep (h1 ++ h2) = keep h1 ++ keep h2.
Proof. apply filter_app. Qed.

Lemma keep_snoc_wire (h : history) (e : event) :
  on_wire e = true -> keep (h ++ [e]) = keep h.
Proof.
  intros H. rewrite keep_app. simpl. rewrite (sel_wire e H). apply app_nil_r.
Qed.

Lemma quiet_ret {A} (a : A) : quiet (ret a).
Proof. intros h r h' E. inversion E. reflexivity. Qed.

Lemma quiet_raise {A} (e : exn) : quiet (@raise A e).
Proof. intros h r h' E. inversion E. reflexivity. Qed.

Lemma quiet_lift {A} (x : result A) : quiet (lift x).
Proof. intros h r h' E. inversion E. reflexivity. Qed.

Lemma quiet_emit (e : event) : sel e = false -> quiet (emit e).
Proof.
  intros H h r h' E. inversion E. rewrite keep_app. simpl. rewrite H.
  apply app_nil_r.
Qed.

Lemma quiet_bind {A B} (m : M A) (f : A -> M B) :
  quiet m -> (forall a, quiet (f a)) -> quiet (bind m f).
Proof.
  intros Hm Hf h r h' E. unfold bind in E.
  destruct (m h) as [[a|e] h1] eqn:E1.
  - rewrite (Hf a _ _ _ E). eapply Hm; eassumption.
  - inversion E; subst. eapply Hm; eassumption.
Qed.

Lemma quiet_io_read (n : Z) : quiet (io_read dev n).
Proof.
  intros h r h' E. unfold io_read in E. inversion E.
  apply keep_snoc_wire. reflexivity.
Qed.

Lemma quiet_read_bytes (n : Z) : quiet (_read_bytes dev n).
Proof.
  unfold _read_bytes. apply quiet_bind; [apply quiet_io_read|].
  intros x. destruct (negb (len x =? n)); [apply quiet_raise | apply quiet_ret].
Qed.

Lemma quiet_read_byte : quiet (_read_byte dev).
Proof.
  unfold _read_byte. apply quiet_bind; [apply quiet_read_bytes|].
  intros [|x l]; [apply quiet_raise | apply quiet_ret].
Qed.

Lemma quiet_write (data : bytes) : quiet (_write data).
Proof. apply quiet_emit, sel_wire. reflexivity. Qed.

Lemma quiet_write_bchr (x : Z) : quiet (_write_bchr x).
Proof.
  unfold _write_bchr. apply quiet_bind; [apply quiet_lift|].
  intros b. apply quiet_write.
Qed.

Lemma quiet_wait_for_ack : quiet (_wait_for_ack dev).
Proof.
  unfold _wait_for_ack. apply quiet_bind; [apply quiet_read_byte|].
  intros x. destruct (x =? NACK); [apply quiet_raise|].
  destruct (negb (x =? ACK)); [apply quiet_raise | apply quiet_ret].
Qed.

Lemma quiet_generic_execute_and_confirm (cmd : Z) :
  quiet (generic_execute_and_confirm dev cmd).
Proof.
  unfold generic_execute_and_confirm.
  repeat (apply quiet_bind; [apply quiet_write_bchr | intros _]).
  apply quiet_wait_for_ack.
Qed.

Lemma quiet_flush : quiet io_flushInput.
Proof. apply quiet_emit, sel_wire. reflexivity. Qed.

Lemma quiet_sleep (s : Z) : quiet (time_sleep s).
Proof. apply quiet_emit, sel_wire. reflexivity. Qed.


Lemma quiet_init (port : string) (args : loader_arguments) :
  quiet (STM32Loader_init port args).
Proof.
  unfold STM32Loader_init. apply quiet_bind; [|intros; apply quiet_ret].
  apply quiet_emit, sel_wire. reflexivity.
Qed.

Lemma quiet_record_progress (stage : string) (fraction : option Q) :
  quiet (record_progress stage fraction).
Proof. apply quiet_emit, sel_progress. Qed.

(** What a method adds to the projection: the records of its call. *)
Lemma keep_method {A} (c : call) (to_val : A -> pyval) (body : M A) :
  quiet body ->
  forall h r h', method c to_val body h = (r, h') ->
  keep h' = keep h ++ keep [EvCall c; outcome c to_val r].
Proof.
  intros Hb h r h' E. unfold method in E.
  destruct (body (h ++ [EvCall c])) as [[a|e] hb] eqn:Eb;
    inversion E; subst; clear E;
    rewrite keep_app, (Hb _ _ _ Eb), keep_app, <- app_assoc;
    change [EvCall c; outcome c to_val (@Ok A a)]
      with ([EvCall c] ++ [EvReturn c (to_val a)]) ||
    change [EvCall c; outcome c to_val (@Raise A e)]
      with ([EvCall c] ++ [EvRaise c e]);
    rewrite (keep_app [EvCall c]); reflexivity.
Qed.

(** A method whose records are not selected is quiet. *)
Lemma quiet_method {A} (c : call) (to_val : A -> pyval) (body : M A) :
  quiet body ->
  (forall e, event_call e = Some c -> sel e = false) ->
  quiet (method c to_val body).
Proof.
  intros Hb Hc h r h' E. rewrite (keep_method c to_val body Hb h r h' E).
  simpl. rewrite (Hc (EvCall c) eq_refl).
  destruct r; simpl; rewrite Hc by reflexivity; apply app_nil_r.
Qed.

Ltac quiet_body :=
  repeat first
    [ apply quiet_ret | apply quiet_raise | apply quiet_lift
    | apply quiet_wait_for_ack | apply quiet_generic_execute_and_confirm
    | apply quiet_read_byte | apply quiet_read_bytes
    | apply quiet_write | apply quiet_write_bchr
    | apply quiet_flush | apply quiet_sleep
    | apply quiet_bind; [|intros ?]
    | match goal with |- quiet (if ?b then _ else _) => destruct b end ].

Lemma keep_synchronize (self : STM32Loader) (skip : bool) h r h' :
  synchronize self skip h = (r, h') ->
  r = Ok tt /\
  keep h' = keep h ++ keep [EvCall (CSynchronize skip);
                            EvReturn (CSynchronize skip) VNone].
Proof.
  intros E.
  assert (r = Ok tt) as ->.
  { unfold synchronize, method, bind, io_flushInput, _write_bchr, _write,
      io_write, time_sleep, emit, lift, ret in E.
    rewrite bchr_in_range in E by (unfold SYNCHRONIZATION_BYTE; lia).
    destruct (negb (len (synchronization_prefix self) =? 0) && negb skip);
      inversion E; reflexivity. }
  split; [reflexivity|].
  apply (keep_method (CSynchronize skip) to_none _) in E; [exact E|].
  quiet_body.
Qed.

Lemma keep_get h r h' :
  get dev h = (r, h') -> keep h' = keep h ++ keep [EvCall CGet; outcome CGet VInfo r].
Proof. apply keep_method. quiet_body. Qed.

Lemma keep_get_version h r h' :
  get_version_and_protection_status dev h = (r, h') ->
  keep h' = keep h ++ keep [EvCall CGetVersionAndProtectionStatus;
                            outcome CGetVersionAndProtectionStatus VStatus r].
Proof. apply keep_method. quiet_body. Qed.

Lemma keep_get_id h r h' :
  get_id dev h = (r, h') -> keep h' = keep h ++ keep [EvCall CGetId; outcome CGetId VInt r].
Proof. apply keep_method. quiet_body. Qed.

Lemma keep_write_unprotect h r h' :
  write_unprotect dev h = (r, h') ->
  keep h' = keep h ++ keep [EvCall CWriteUnprotect; outcome CWriteUnprotect to_none r].
Proof. apply keep_method. quiet_body. Qed.

Lemma keep_readout_unprotect h r h' :
  readout_unprotect dev h = (r, h') ->
  keep h' = keep h ++ keep [EvCall CReadoutUnprotect; outcome CReadoutUnprotect to_none r].
Proof. apply keep_method. quiet_body. Qed.

Lemma keep_global_erase h r h' :
  global_erase dev h = (r, h') ->
  keep h' = keep h ++ keep [EvCall CGlobalErase; outcome CGlobalErase to_none r].
Proof. apply keep_method. quiet_body. Qed.

Lemma keep_extended_erase h r h' :
  extended_erase dev h = (r, h') ->
  keep h' = keep h ++ keep [EvCall CExtendedErase; outcome CExtendedErase to_none r].
Proof. apply keep_method. quiet_body. Qed.

Lemma keep_go a h r h' :
  go dev a h = (r, h') -> keep h' = keep h ++ keep [EvCall (CGo a); outcome (CGo a) to_none r].
Proof. apply keep_method. quiet_body. Qed.

Lemma keep_read_memory a n h r h' :
  read_memory dev a n h = (r, h') ->
  keep h' = keep h ++ keep [EvCall (CReadMemory a n); outcome (CReadMemory a n) VBytes r].
Proof. apply keep_method. quiet_body. Qed.

Lemma keep_write_memory a d h r h' :
  write_memory dev a d h = (r, h') ->
  keep h' = keep h ++ keep [EvCall (CWriteMemory a d); outcome (CWriteMemory a d) to_none r].
Proof. apply keep_method. quiet_body. Qed.

(** *** Block transfers under a projection *)

(** [emits P m]: whatever [m] adds to the projection satisfies [P]. *)
Definition emits {A} (P : event -> Prop) (m : M A) : Prop :=
  forall h r h', m h = (r, h') ->
  exists inner, keep h' = keep h ++ inner /\ Forall P inner.

Lemma emits_quiet {A} (P : event -> Prop) (m : M A) : quiet m -> emits P m.
Proof.
  intros Hq h r h' E. exists []. rewrite app_nil_r. split; [eapply Hq; eassumption|].
  constructor.
Qed.

Lemma emits_bind {A B} (P : event -> Prop) (m : M A) (f : A -> M B) :
  emits P m -> (forall a, emits P (f a)) -> emits P (bind m f).
Proof.
  intros Hm Hf h r h' E. unfold bind in E.
  destruct (m h) as [[a|e] h1] eqn:E1.
  - destruct (Hm _ _ _ E1) as (i1 & K1 & F1).
    destruct (Hf a _ _ _ E) as (i2 & K2 & F2).
    exists (i1 ++ i2). rewrite K2, K1, <- app_assoc. split; [reflexivity|].
    apply Forall_app. split; assumption.
  - inversion E; subst. eapply Hm; eassumption.
Qed.

(** The records of a call, as far as they are selected. *)
Definition record_of (P : call -> Prop) (e : event) : Prop :=
  sel e = true /\ exists c, event_call e = Some c /\ P c.

Lemma emits_method {A} (P : call -> Prop) (c : call) (to_val : A -> pyval) (body : M A) :
  quiet body -> P c -> emits (record_of P) (method c to_val body).
Proof.
  intros Hb Hc h r h' E. eexists. split; [eapply keep_method; eassumption|].
  apply Forall_forall. intros e Hin. apply filter_In in Hin. destruct Hin as [Hin Hs].
  split; [exact Hs|]. exists c. split; [|exact Hc].
  destruct Hin as [<-|[<-|[]]]; [reflexivity|]. destruct r; reflexivity.
Qed.

Lemma keep_method_emits {A} (P : event -> Prop) (c : call) (to_val : A -> pyval)
    (body : M A) :
  emits P body ->
  forall h r h', method c to_val body h = (r, h') ->
  exists inner,
    keep h' = keep h ++ keep [EvCall c] ++ inner ++ keep [outcome c to_val r] /\
    Forall P inner.
Proof.
  intros Hb h r h' E. unfold method in E.
  destruct (body (h ++ [EvCall c])) as [[a|e] hb] eqn:Eb;
    destruct (Hb _ _ _ Eb) as (inner & K & F); exists inner;
    inversion E; subst; clear E;
    rewrite keep_app, K, keep_app, <- !app_assoc; split; solve [reflexivity | assumption].
Qed.

Definition is_write_chunk (start_address : Z) (data : bytes) (c : call) : Prop :=
  exists offset stop, c = CWriteMemory (start_address + offset) (slice data offset stop).

Definition is_read_chunk (c : call) : Prop :=
  exists address length, c = CReadMemory address length.

Lemma emits_write_memory a d offset stop :
  emits (record_of (is_write_chunk a d))
        (write_memory dev (a + offset) (slice d offset stop)).
Proof.
  apply emits_method; [quiet_body|]. exists offset, stop. reflexivity.
Qed.

Lemma emits_read_memory a n :
  emits (record_of is_read_chunk) (read_memory dev a n).
Proof.
  apply emits_method; [quiet_body|]. exists a, n. reflexivity.
Qed.

Lemma emits_write_loop a d cb (n : nat) :
  (forall q, quiet (cb q)) ->
  forall length offset, (Z.to_nat length <= n)%nat ->
  emits (record_of (is_write_chunk a d))
        (write_memory_blocks_loop dev a d cb length offset).
Proof.
  intros Hcb. induction n as [|n IH]; intros length offset Hn;
    destruct (Z_gt_dec length WRITE_BLOCK_SIZE) as [Hgt|Hle];
    try (rewrite write_loop_done by lia; apply emits_quiet, quiet_ret).
  - unfold WRITE_BLOCK_SIZE in Hgt. lia.
  - rewrite write_loop_more by assumption.
    apply emits_bind; [apply emits_write_memory | intros _].
    apply emits_bind; [apply emits_quiet, Hcb | intros _].
    apply IH. unfold WRITE_BLOCK_SIZE in *. lia.
Qed.

Lemma emits_read_loop a original cb (n : nat) :
  (forall q, quiet (cb q)) ->
  forall length offset output, (Z.to_nat length <= n)%nat ->
  emits (record_of is_read_chunk)
        (read_memory_blocks_loop dev a original cb length offset output).
Proof.
  intros Hcb. induction n as [|n IH]; intros length offset output Hn;
    destruct (Z_gt_dec length READ_BLOCK_SIZE) as [Hgt|Hle];
    try (rewrite read_loop_done by lia; apply emits_quiet, quiet_ret).
  - unfold READ_BLOCK_SIZE in Hgt. lia.
  - rewrite read_loop_more by assumption.
    apply emits_bind; [apply emits_read_memory | intros chunk].
    apply emits_bind; [apply emits_quiet, Hcb | intros _].
    apply IH. unfold READ_BLOCK_SIZE in *. lia.
Qed.

Lemma keep_write_memory_blocks a d cb h r h' :
  (forall q, quiet (cb q)) ->
  write_memory_blocks dev a d (Some cb) h = (r, h') ->
  exists inner,
    keep h' = keep h ++ keep [EvCall (CWriteMemoryBlocks a d)] ++ inner
                ++ keep [outcome (CWriteMemoryBlocks a d) to_none r] /\
    Forall (record_of (is_write_chunk a d)) inner.
Proof.
  intros Hcb. apply keep_method_emits.
  apply emits_bind; [eapply emits_write_loop; [exact Hcb | reflexivity]|].
  intros [length offset].
  apply emits_bind; [|intros _; apply emits_quiet, Hcb].
  destruct (length >? 0); [apply emits_write_memory | apply emits_quiet, quiet_ret].
Qed.

Lemma keep_read_memory_blocks a n cb h r h' :
  (forall q, quiet (cb q)) ->
  read_memory_blocks dev a n (Some cb) h = (r, h') ->
  exists inner,
    keep h' = keep h ++ keep [EvCall (CReadMemoryBlocks a n)] ++ inner
                ++ keep [outcome (CReadMemoryBlocks a n) VBytes r] /\
    Forall (record_of is_read_chunk) inner.
Proof.
  intros Hcb. apply keep_method_emits.
  apply emits_bind; [eapply emits_read_loop; [exact Hcb | reflexivity]|].
  intros [[length offset] output].
  apply emits_bind; [|intros out; apply emits_bind;
                               [apply emits_quiet, Hcb | intros _; apply emits_quiet, quiet_ret]].
  destruct (length >? 0); [|apply emits_quiet, quiet_ret].
  apply emits_bind; [apply emits_read_memory | intros chunk; apply emits_quiet, quiet_ret].
Qed.

(** *** The resynchronization loop under a projection *)

(** One failed attempt: get raises, synchronize(skip_prefix=True) follows. *)
Definition failed_attempt (e : exn) : list event :=
  [EvCall CGet; EvRaise CGet e;
   EvCall (CSynchronize true); EvReturn (CSynchronize true) VNone].

(** The attempt that ends the loop early, if any. *)
Definition stopped (info : option DeviceInfo) : list event :=
  match info with
  | Some i => [EvCall CGet; EvReturn CGet (VInfo i)]
  | None => []
  end.

Lemma keep_resynchronize (loader : STM32Loader) (n : nat) :
  forall h r h', resynchronize dev loader n h = (r, h') ->
  r = Ok tt /\
  exists (failures : list exn) (info : option DeviceInfo),
    keep h' = keep h ++ keep (flat_map failed_attempt failures ++ stopped info) /\
    (List.length failures <= n)%nat /\
    (info = None -> List.length failures = n) /\
    (info <> None -> (List.length failures < n)%nat).
Proof.
  induction n as [|n IH]; intros h r h' E; simpl in E.
  - inversion E; subst. split; [reflexivity|]. exists [], None. simpl.
    rewrite app_nil_r. repeat split; auto. congruence.
  - unfold bind at 1, try_except in E. unfold bind at 1 in E.
    destruct (get dev h) as [[i|e] h1] eqn:Eg.
    + pose proof (keep_get _ _ _ Eg) as Kg. unfold ret in E at 1. cbv iota beta in E.
      inversion E; subst. split; [reflexivity|].
      exists [], (Some i). simpl. split; [exact Kg|].
      split; [lia|]. split; [discriminate | lia].
    + pose proof (keep_get _ _ _ Eg) as Kg. unfold bind at 1 in E.
      destruct (synchronize loader true h1) as [rs h2] eqn:Es.
      destruct (keep_synchronize _ _ _ _ _ Es) as [-> Ks].
      unfold ret in E at 1. cbv iota beta in E.
      destruct (IH _ _ _ E) as (-> & failures & info & K & Hlen & Hnone & Hsome).
      split; [reflexivity|].
      exists (e :: failures), info.
      split; [|split; [simpl; lia | split; intros Hi; simpl; auto using Nat.succ_lt_mono;
                                    apply -> Nat.succ_lt_mono; auto]].
      rewrite K, Ks, Kg.
      change (flat_map failed_attempt (e :: failures)) with
        (([EvCall CGet; EvRaise CGet e]
            ++ [EvCall (CSynchronize true); EvReturn (CSynchronize true) VNone])
           ++ flat_map failed_attempt failures).
      change (outcome CGet VInfo (Raise e)) with (EvRaise CGet e).
      repeat rewrite keep_app. repeat rewrite <- app_assoc. reflexivity.
Qed.

End Keep.

(** ** The call discipline of a session

    The milestones of a history are the spy's records of the session-level
    calls: every method but the two chunk transfers [read_memory] and
    [write_memory]. *)

Definition is_milestone (e : event) : bool :=
  match event_call e with
  | Some (CReadMemory _ _) | Some (CWriteMemory _ _) => false
  | Some _ => true
  | None => false
  end.

Definition milestones (h : history) : history := filter is_milestone h.

Lemma milestone_wire (e : event) : on_wire e = true -> is_milestone e = false.
Proof. destruct e; simpl; intros H; try discriminate; reflexivity. Qed.

Lemma milestone_progress (s : option string) (f : option Q) :
  is_milestone (EvProgress s f) = false.
Proof. reflexivity. Qed.

Lemma milestones_app (h1 h2 : history) :
  milestones (h1 ++ h2) = milestones h1 ++ milestones h2.
Proof. apply filter_app. Qed.

(** [follows plan last T r k]: the records [T] show the calls of [plan] made
    in order; the first call that raises ends the run with its exception;
    when all have returned, the rest of the run is described by [k], which is
    given the value returned by the last call. *)
Fixpoint follows (plan : list call) (last : pyval) (T : list event) (r : result unit)
    (k : pyval -> list event -> result unit -> Prop) : Prop :=
  match plan with
  | [] => k last T r
  | c :: plan' =>
      (exists e, T = [EvCall c; EvRaise c e] /\ r = Raise e) \/
      (exists v T', T = EvCall c :: EvReturn c v :: T' /\ follows plan' v T' r k)
  end.

Section Discipline.

Variable dev : device.

Definition quiet_ok {A} (m : M A) : Prop :=
  forall h r h', m h = (r, h') -> (exists a, r = Ok a) /\ milestones h' = milestones h.

(** [m] is one session-level call [c]. *)
Definition leaf {A} (c : call) (to_val : A -> pyval) (m : M A) : Prop :=
  forall h r h', m h = (r, h') ->
  milestones h' = milestones h ++ [EvCall c; outcome c to_val r].

(** [m] makes the calls of [plan] and ends as [k] says. *)
Definition runs (m : M unit) (plan : list call) (last : pyval)
    (k : pyval -> list event -> result unit -> Prop) : Prop :=
  forall h r h', m h = (r, h') ->
  exists T, milestones h' = milestones h ++ T /\ follows plan last T r k.

Lemma runs_call {A} (c : call) (to_val : A -> pyval) (m : M A) (f : A -> M unit)
    plan last k :
  leaf c to_val m ->
  (forall a, runs (f a) plan (to_val a) k) ->
  runs (bind m f) (c :: plan) last k.
Proof.
  intros Hm Hf h r h' E. unfold bind in E.
  destruct (m h) as [[a|e] h1] eqn:E1; pose proof (Hm _ _ _ E1) as K1; simpl in K1.
  - destruct (Hf a _ _ _ E) as (T & K & F).
    exists (EvCall c :: EvReturn c (to_val a) :: T). split.
    + rewrite K, K1, <- app_assoc. reflexivity.
    + right. exists (to_val a), T. split; [reflexivity | exact F].
  - inversion E; subst. exists [EvCall c; EvRaise c e]. split; [exact K1|].
    left. exists e. split; reflexivity.
Qed.

Lemma runs_quiet {A} (m : M A) (f : A -> M unit) plan last k :
  quiet_ok m ->
  (forall a, runs (f a) plan last k) ->
  runs (bind m f) plan last k.
Proof.
  intros Hm Hf h r h' E. unfold bind in E.
  destruct (m h) as [[a|e] h1] eqn:E1; destruct (Hm _ _ _ E1) as [[a' Ha] K1].
  - rewrite <- K1. eapply Hf; eassumption.
  - discriminate.
Qed.

Lemma runs_assoc {A B} (m : M A) (f : A -> M B) (g : B -> M unit) plan last k :
  runs (bind m (fun x => bind (f x) g)) plan last k ->
  runs (bind (bind m f) g) plan last k.
Proof.
  intros H h r h' E. rewrite bind_assoc in E. eapply H; eassumption.
Qed.

(** The session-level calls are leaves. *)
Lemma leaf_of_keep {A} (c : call) (to_val : A -> pyval) (m : M A) :
  is_milestone (EvCall c) = true ->
  (forall h r h', m h = (r, h') ->
     keep is_milestone h' =
       keep is_milestone h ++ keep is_milestone [EvCall c; outcome c to_val r]) ->
  leaf c to_val m.
Proof.
  intros Hc Hk h r h' E. unfold milestones. fold (keep is_milestone h').
  rewrite (Hk _ _ _ E). unfold keep at 2. simpl filter. rewrite Hc.
  replace (is_milestone (outcome c to_val r)) with true; [reflexivity|].
  destruct r; simpl; exact (eq_sym Hc).
Qed.

Lemma leaf_get : leaf CGet VInfo (get dev).
Proof.
  apply leaf_of_keep; [reflexivity|].
  apply keep_get; first [apply milestone_wire | apply milestone_progress].
Qed.

Lemma leaf_get_version :
  leaf CGetVersionAndProtectionStatus VStatus (get_version_and_protection_status dev).
Proof.
  apply leaf_of_keep; [reflexivity|].
  apply keep_get_version; first [apply milestone_wire | apply milestone_progress].
Qed.

Lemma leaf_get_id : leaf CGetId VInt (get_id dev).
Proof.
  apply leaf_of_keep; [reflexivity|].
  apply keep_get_id; first [apply milestone_wire | apply milestone_progress].
Qed.

Lemma leaf_write_unprotect : leaf CWriteUnprotect to_none (write_unprotect dev).
Proof.
  apply leaf_of_keep; [reflexivity|].
  apply keep_write_unprotect; first [apply milestone_wire | apply milestone_progress].
Qed.

Lemma leaf_readout_unprotect : leaf CReadoutUnprotect to_none (readout_unprotect dev).
Proof.
  apply leaf_of_keep; [reflexivity|].
  apply keep_readout_unprotect; first [apply milestone_wire | apply milestone_progress].
Qed.

Lemma leaf_global_erase : leaf CGlobalErase to_none (global_erase dev).
Proof.
  apply leaf_of_keep; [reflexivity|].
  apply keep_global_erase; first [apply milestone_wire | apply milestone_progress].
Qed.

Lemma leaf_extended_erase : leaf CExtendedErase to_none (extended_erase dev).
Proof.
  apply leaf_of_keep; [reflexivity|].
  apply keep_extended_erase; first [apply milestone_wire | apply milestone_progress].
Qed.

Lemma leaf_go a : leaf (CGo a) to_none (go dev a).
Proof.
  apply leaf_of_keep; [reflexivity|].
  apply keep_go; first [apply milestone_wire | apply milestone_progress].
Qed.

Lemma leaf_synchronize self skip :
  leaf (CSynchronize skip) to_none (synchronize self skip).
Proof.
  intros h r h' E.
  destruct (keep_synchronize is_milestone milestone_wire self skip h r h' E) as [-> K].
  exact K.
Qed.

Lemma no_chunk_milestone (P : call -> Prop) (inner : list event) :
  (forall c, P c -> is_milestone (EvCall c) = false) ->
  Forall (record_of is_milestone P) inner -> inner = [].
Proof.
  intros HP F. destruct inner as [|e inner]; [reflexivity|]. exfalso.
  inversion F as [|? ? [Hs (c & Hc & Pc)] _]; subst.
  specialize (HP c Pc). unfold is_milestone in *. rewrite Hc in Hs. simpl in HP.
  congruence.
Qed.

Lemma leaf_write_memory_blocks a d cb :
  (forall q, quiet is_milestone (cb q)) ->
  leaf (CWriteMemoryBlocks a d) to_none (write_memory_blocks dev a d (Some cb)).
Proof.
  intros Hcb h r h' E.
  destruct (keep_write_memory_blocks dev is_milestone milestone_wire a d cb h r h' Hcb E)
    as (inner & K & F).
  apply no_chunk_milestone in F; [|intros c (o & s & ->); reflexivity]. subst inner.
  unfold milestones. fold (keep is_milestone h'). rewrite K.
  destruct r; reflexivity.
Qed.

Lemma leaf_read_memory_blocks a n cb :
  (forall q, quiet is_milestone (cb q)) ->
  leaf (CReadMemoryBlocks a n) VBytes (read_memory_blocks dev a n (Some cb)).
Proof.
  intros Hcb h r h' E.
  destruct (keep_read_memory_blocks dev is_milestone milestone_wire a n cb h r h' Hcb E)
    as (inner & K & F).
  apply no_chunk_milestone in F; [|intros c (o & s & ->); reflexivity]. subst inner.
  unfold milestones. fold (keep is_milestone h'). rewrite K.
  destruct r; reflexivity.
Qed.

End Discipline.

(** ** The session *)

Definition callback_of (observe : bool) : option (string -> option Q -> M unit) :=
  if observe then Some record_progress else None.

(** [load_address or DEFAULT_FLASH_ADDRESS] *)
Definition effective_address (load_address : option Z) : Z :=
  match load_address with
  | Some a => if a =? 0 then DEFAULT_FLASH_ADDRESS else a
  | None => DEFAULT_FLASH_ADDRESS
  end.

(** The erase command chosen for a device. *)
Definition erase_call (info : DeviceInfo) : call :=
  if contains CMD_ERASE (commands info) then CGlobalErase else CExtendedErase.

(** The calls that follow the general-info [get], up to the read-back. *)
Definition session_plan (opt_readout_unprotect opt_write_unprotect : bool)
    (address : Z) (image : bytes) (info : DeviceInfo) : list call :=
  [CGetVersionAndProtectionStatus; CGetId]
  ++ (if opt_readout_unprotect then [CReadoutUnprotect; CSynchronize false] else [])
  ++ (if opt_write_unprotect then [CWriteUnprotect; CSynchronize false] else [])
  ++ [erase_call info;
      CWriteMemoryBlocks address image;
      CReadMemoryBlocks address (len image)].

(** After the read-back: verification, then the optional go. *)
Definition closing (opt_go : bool) (address : Z) (image : bytes)
    (readback : pyval) (T : list event) (r : result unit) : Prop :=
  (readback <> VBytes image /\ T = [] /\
   r = Raise (STM32LoaderException "Verification failed")) \/
  (readback = VBytes image /\
   if opt_go then T = [EvCall (CGo address); outcome (CGo address) to_none r]
   else T = [] /\ r = Ok tt).

Definition after_get (opt_readout_unprotect opt_write_unprotect opt_go : bool)
    (address : Z) (image : bytes) (v : pyval) (T : list event) (r : result unit) : Prop :=
  exists info, v = VInfo info /\
    follows (session_plan opt_readout_unprotect opt_write_unprotect address image info)
            v T r (closing opt_go address image).

Lemma milestones_all (l : list event) :
  Forall (fun e => is_milestone e = true) l -> milestones l = l.
Proof.
  induction 1 as [|e l He _ IH]; [reflexivity|].
  unfold milestones in *. simpl. rewrite He, IH. reflexivity.
Qed.

Lemma milestones_attempts (failures : list exn) (info : option DeviceInfo) :
  milestones (flat_map failed_attempt failures ++ stopped info)
  = flat_map failed_attempt failures ++ stopped info.
Proof.
  apply milestones_all, Forall_app. split.
  - apply Forall_flat_map, Forall_forall. intros e _. repeat constructor.
  - destruct info; repeat constructor.
Qed.

Lemma try_finally_close {A} (m : M A) (loader : STM32Loader) h r h' :
  try_finally m (close loader) h = (r, h') ->
  exists hb, m h = (r, hb) /\ h' = hb ++ [EvClose].
Proof.
  unfold try_finally, close, io_close, emit. destruct (m h) as [r0 hb].
  intros E. inversion E. eauto.
Qed.

Section Session.

Variable dev : device.
Variables (port : string) (binary_image : bytes) (load_address : option Z).
Variables (observe opt_readout_unprotect opt_write_unprotect opt_go : bool).
Variable args : loader_arguments.

Let address := effective_address load_address.
Let image := pad_image binary_image.

(** The callback actually used by [load]. *)
Definition reporter (observe : bool) : string -> option Q -> M unit :=
  match callback_of observe with
  | Some f => f
  | None => fun _ _ => ret tt
  end.

Lemma reporter_quiet_ok stage fraction : quiet_ok (reporter observe stage fraction).
Proof.
  intros h r h' E. unfold reporter, callback_of in E.
  destruct observe; inversion E; subst; split; eauto.
  rewrite milestones_app. apply app_nil_r.
Qed.

Lemma reporter_quiet stage fraction : quiet is_milestone (reporter observe stage fraction).
Proof.
  intros h r h' E. apply (reporter_quiet_ok stage fraction h r h' E).
Qed.

Lemma runs_after_get (m : M unit) (info : DeviceInfo) :
  runs m (session_plan opt_readout_unprotect opt_write_unprotect address image info)
       (VInfo info) (closing opt_go address image) ->
  runs m [] (VInfo info)
       (after_get opt_readout_unprotect opt_write_unprotect opt_go address image).
Proof.
  intros H h r h' E. destruct (H _ _ _ E) as (T & K & F).
  exists T. split; [exact K|]. simpl. exists info. split; [reflexivity | exact F].
Qed.

Lemma runs_closing (readback : bytes) :
  runs (if bytes_eq_dec readback image then
          if opt_go then go dev address else ret tt
        else raise (STM32LoaderException "Verification failed"))
       [] (VBytes readback) (closing opt_go address image).
Proof.
  intros h r h' E. simpl. unfold closing.
  destruct (bytes_eq_dec readback image) as [->|Hne].
  - destruct opt_go.
    + exists [EvCall (CGo address); outcome (CGo address) to_none r].
      split; [apply (leaf_go dev address _ _ _ E)|]. right. split; reflexivity.
    + inversion E; subst. exists []. rewrite app_nil_r. split; [reflexivity|].
      right. repeat split.
  - inversion E; subst. exists []. rewrite app_nil_r. split; [reflexivity|].
    left. repeat split. congruence.
Qed.

(** The call discipline of [load]: after the first synchronization come at
    most three failed attempts at [get], each followed by a
    resynchronization, and possibly the attempt that succeeded; then the
    general-info [get] and, if it returns, the calls of the session plan in
    order, the verification and the optional [go]. *)
Lemma load_call_discipline (h0 h : history) (r : result unit) :
  load dev port binary_image load_address (callback_of observe)
       opt_readout_unprotect opt_write_unprotect opt_go args h0 = (r, h) ->
  exists (failures : list exn) (early : option DeviceInfo) (T : list event),
    milestones h =
      milestones h0
      ++ [EvCall (CSynchronize false); EvReturn (CSynchronize false) VNone]
      ++ flat_map failed_attempt failures ++ stopped early ++ T /\
    (List.length failures <= 3)%nat /\
    (early = None -> List.length failures = 3%nat) /\
    (early <> None -> (List.length failures < 3)%nat) /\
    follows [CGet] VNone T r
      (after_get opt_readout_unprotect opt_write_unprotect opt_go address image).
Proof.
  intros E. unfold load in E. cbv zeta in E.
  fold (reporter observe) in E. fold address image in E.
  unfold bind at 1 in E.
  destruct (reporter observe "Synchronization" None h0) as [r0 h1] eqn:E0.
  destruct (reporter_quiet_ok _ _ _ _ _ E0) as [[u Hu] K0]. subst r0.
  unfold bind at 1 in E.
  destruct (STM32Loader_init port args h1) as [[loader|e] h2] eqn:E1;
    [|unfold STM32Loader_init, bind, emit in E1; discriminate].
  pose proof (quiet_init is_milestone milestone_wire port args _ _ _ E1) as K1.
  unfold keep in K1. fold (milestones h2) (milestones h1) in K1.
  apply try_finally_close in E. destruct E as (hb & E & ->).
  unfold bind at 1, try_except in E.
  destruct (synchronize loader false h2) as [rs h3] eqn:E2.
  destruct (keep_synchronize is_milestone milestone_wire _ _ _ _ _ E2) as [-> K2].
  unfold keep in K2. fold (milestones h3) (milestones h2) in K2. simpl in K2.
  unfold bind at 1 in E.
  destruct (resynchronize dev loader 3 h3) as [rr h4] eqn:E3.
  destruct (keep_resynchronize dev is_milestone milestone_wire loader 3 _ _ _ E3)
    as (-> & failures & early & K3 & Hlen & Hnone & Hsome).
  unfold keep in K3. fold (milestones h4) (milestones h3) in K3.
  fold (milestones (flat_map failed_attempt failures ++ stopped early)) in K3.
  rewrite milestones_attempts in K3.
  assert (runs
    (var_get <- get dev ;;
     get_version_and_protection_status dev ;;
     get_id dev ;;
     reporter observe "Configuring target" None ;;
     (if opt_readout_unprotect then readout_unprotect dev ;; synchronize loader false
      else ret tt) ;;
     (if opt_write_unprotect then write_unprotect dev ;; synchronize loader false
      else ret tt) ;;
     (if contains CMD_ERASE (commands var_get) then global_erase dev
      else extended_erase dev) ;;
     write_memory_blocks dev address image
       (Some (fun x => reporter observe "Writing image" (Some x))) ;;
     readback <- read_memory_blocks dev address (len image)
                   (Some (fun x => reporter observe "Verification" (Some x))) ;;
     if bytes_eq_dec readback image then
       if opt_go then go dev address else ret tt
     else raise (STM32LoaderException "Verification failed"))
    [CGet] VNone
    (after_get opt_readout_unprotect opt_write_unprotect opt_go address image)) as Hruns.
  { apply runs_call with (to_val := VInfo); [apply leaf_get|]. intros var_get.
    apply runs_after_get. unfold session_plan, erase_call. simpl app.
    apply runs_call with (to_val := VStatus); [apply leaf_get_version|]. intros ?.
    apply runs_call with (to_val := VInt); [apply leaf_get_id|]. intros ?.
    apply runs_quiet; [apply reporter_quiet_ok|]. intros ?.
    assert (forall plan last k (f : unit -> M unit),
              runs (f tt) plan last k -> runs (bind (ret tt) f) plan last k) as Hskip.
    { intros plan last k f H. apply runs_quiet; [|intros []; exact H].
      intros h' r' h'' Er. inversion Er. split; eauto. }
    destruct opt_readout_unprotect; destruct opt_write_unprotect;
      destruct (contains CMD_ERASE (commands var_get)); simpl app;
      repeat first
        [ apply Hskip
        | apply runs_assoc
        | apply runs_call with (to_val := to_none);
          [ first [ apply leaf_readout_unprotect | apply leaf_write_unprotect
                  | apply leaf_synchronize | apply leaf_global_erase
                  | apply leaf_extended_erase
                  | apply leaf_write_memory_blocks; intros q; apply reporter_quiet ]
          | intros ? ] ];
      (apply runs_call with (to_val := VBytes);
       [apply leaf_read_memory_blocks; intros q; apply reporter_quiet|]);
      intros readback; apply runs_closing. }
  destruct (Hruns _ _ _ E) as (T & K & F).
  exists failures, early, T. split; [|auto].
  rewrite milestones_app, K, K3, K2, K1, K0. simpl (milestones [EvClose]).
  repeat rewrite <- app_assoc. rewrite app_nil_r. reflexivity.
Qed.

End Session.

(** ** Observations on a history *)

(** The calls made, in order. *)
Definition calls (h : history) : list call :=
  flat_map (fun e => match e with EvCall c => [c] | _ => [] end) h.

Definition is_erase (c : call) : bool :=
  match c with
  | CGlobalErase | CExtendedErase => true
  | _ => false
  end.

(** The erase commands issued. *)
Definition erase_calls (h : history) : list call := filter is_erase (calls h).



Lemma calls_app (h1 h2 : history) : calls (h1 ++ h2) = calls h1 ++ calls h2.
Proof. apply flat_map_app. Qed.

Lemma erase_calls_app (h1 h2 : history) :
  erase_calls (h1 ++ h2) = erase_calls h1 ++ erase_calls h2.
Proof. unfold erase_calls. rewrite calls_app. apply filter_app. Qed.


Lemma erase_calls_milestones (h : history) : erase_calls h = erase_calls (milestones h).
Proof.
  induction h as [|e h IH]; [reflexivity|].
  change (e :: h) with ([e] ++ h). rewrite milestones_app, !erase_calls_app, IH.
  f_equal. destruct e as [| | | | | | |c|c v|c x]; try reflexivity; destruct c; reflexivity.
Qed.


Lemma erase_calls_failed (failures : list exn) :
  erase_calls (flat_map failed_attempt failures) = [].
Proof.
  induction failures as [|e l IH]; [reflexivity|].
  change (flat_map failed_attempt (e :: l))
    with (failed_attempt e ++ flat_map failed_attempt l).
  rewrite erase_calls_app, IH. reflexivity.
Qed.

Lemma erase_calls_stopped (early : option DeviceInfo) : erase_calls (stopped early) = [].
Proof. destruct early; reflexivity. Qed.


Lemma is_erase_erase_call (info : DeviceInfo) : is_erase (erase_call info) = true.
Proof. unfold erase_call. destruct (contains CMD_ERASE (commands info)); reflexivity. Qed.





(** ** Plans that were carried out *)

(** The records of calls that all returned. *)
Definition completed (l : list (call * pyval)) : list event :=
  flat_map (fun cv => [EvCall (fst cv); EvReturn (fst cv) (snd cv)]) l.




(** A call seen at all belongs to the plan, or to what follows it. *)
Lemma follows_calls (k : pyval -> list event -> result unit -> Prop) (P : call -> Prop) :
  (forall v' T' r', k v' T' r' -> forall c, In (EvCall c) T' -> P c) ->
  forall plan last T r c,
  follows plan last T r k ->
  In (EvCall c) T ->
  In c plan \/ P c.
Proof.
  intros Hk. induction plan as [|c0 plan IH]; intros last T r c F Hin.
  - right. eapply Hk; eassumption.
  - cbn [follows] in F. destruct F as [(e & -> & ->)|(v' & T' & -> & F)].
    + destruct Hin as [H|[H|[]]]; try discriminate.
      inversion H; subst. left. left. reflexivity.
    + destruct Hin as [H|[H|H]]; [|discriminate|].
      * inversion H; subst. left. left. reflexivity.
      * destruct (IH _ _ _ _ F H) as [H1|H1]; [left; right; exact H1 | right; exact H1].
Qed.


Lemma closing_calls g address image v' T' r' :
  closing g address image v' T' r' ->
  forall c, In (EvCall c) T' -> c = CGo address /\ v' = VBytes image /\ g = true.
Proof.
  intros [(_ & -> & _)|(Hv & H)] c Hin; [destruct Hin|].
  destruct g; [subst T' | destruct H as [-> _]; destruct Hin].
  destruct Hin as [H|[H|[]]]; [inversion H; auto|]. destruct r'; discriminate.
Qed.

(** The plan of a session, split before the read-back. *)
Definition write_plan (ru wu : bool) (address : Z) (image : bytes) (info : DeviceInfo)
    : list call :=
  [CGetVersionAndProtectionStatus; CGetId]
  ++ (if ru then [CReadoutUnprotect; CSynchronize false] else [])
  ++ (if wu then [CWriteUnprotect; CSynchronize false] else [])
  ++ [erase_call info; CWriteMemoryBlocks address image].

Lemma session_plan_split ru wu address image info :
  session_plan ru wu address image info =
    write_plan ru wu address image info ++ [CReadMemoryBlocks address (len image)].
Proof.
  unfold session_plan, write_plan. destruct ru; destruct wu; reflexivity.
Qed.


(** The records up to the general-info [get]. *)
Definition opening (failures : list exn) (early : option DeviceInfo) : list event :=
  [EvCall (CSynchronize false); EvReturn (CSynchronize false) VNone]
  ++ flat_map failed_attempt failures ++ stopped early.

Lemma opening_calls failures early e :
  In e (opening failures early) ->
  exists c, event_call e = Some c /\ (c = CGet \/ exists skip, c = CSynchronize skip).
Proof.
  unfold opening. intros H. apply in_app_or in H. destruct H as [H|H].
  - destruct H as [<-|[<-|[]]]; eexists; (split; [reflexivity|]); right; eauto.
  - apply in_app_or in H. destruct H as [H|H].
    + apply in_flat_map in H. destruct H as (x & _ & H).
      destruct H as [<-|[<-|[<-|[<-|[]]]]]; eexists; (split; [reflexivity|]); eauto.
    + destruct early as [i|]; [|destruct H].
      destruct H as [<-|[<-|[]]]; eexists; (split; [reflexivity|]); eauto.
Qed.

Lemma in_milestones (e : event) (h : history) :
  is_milestone e = true -> In e h -> In e (milestones h).
Proof. intros Hm Hin. apply filter_In. split; assumption. Qed.

Lemma map_fst_snoc (done : list (call * pyval)) (p : list call) (c : call) :
  map fst done = p ++ [c] ->
  exists done' w, done = done' ++ [(c, w)] /\ map fst done' = p.
Proof.
  revert p. induction done as [|[c0 v0] done IH]; intros p H.
  - destruct p; discriminate.
  - destruct p as [|c1 p]; simpl in H; injection H as Hc Hd.
    + destruct done; [|discriminate]. subst c0.
      exists [], v0. split; reflexivity.
    + destruct (IH _ Hd) as (done' & w & -> & Hp). subst c1.
      exists ((c0, v0) :: done'), w. split; [reflexivity | simpl; congruence].
Qed.

Lemma completed_app (l1 l2 : list (call * pyval)) :
  completed (l1 ++ l2) = completed l1 ++ completed l2.
Proof. apply flat_map_app. Qed.


(** The run of a session, seen through its milestones: the opening, then
    either a general-info [get] that raises, or one that returns and is
    followed by the session plan. *)
Lemma load_session (dev : device) (port : string) (binary_image : bytes)
    (load_address : option Z) (observe ru wu g : bool) (args : loader_arguments)
    (r : result unit) (h : history) :
  load dev port binary_image load_address (callback_of observe) ru wu g args [] = (r, h) ->
  exists failures early,
    (List.length failures <= 3)%nat /\
    (early = None -> List.length failures = 3%nat) /\
    (early <> None -> (List.length failures < 3)%nat) /\
    ((exists e,
        milestones h = opening failures early ++ [EvCall CGet; EvRaise CGet e] /\
        r = Raise e) \/
     (exists info T,
        milestones h =
          opening failures early ++ [EvCall CGet; EvReturn CGet (VInfo info)] ++ T /\
        follows (session_plan ru wu (effective_address load_address)
                   (pad_image binary_image) info)
                (VInfo info) T r
                (closing g (effective_address load_address) (pad_image binary_image)))).
Proof.
  intros E. apply load_call_discipline in E.
  destruct E as (failures & early & T & K & Hlen & Hnone & Hsome & F).
  exists failures, early. split; [exact Hlen|]. split; [exact Hnone|].
  split; [exact Hsome|].
  simpl (milestones []) in K. rewrite app_nil_l in K. unfold opening.
  cbn [follows] in F. destruct F as [(e & -> & ->)|(v & T' & -> & info & -> & F)].
  - left. exists e. split; [|reflexivity]. rewrite K.
    repeat rewrite <- app_assoc. reflexivity.
  - right. exists info, T'. split; [|exact F]. rewrite K.
    repeat rewrite <- app_assoc. reflexivity.
Qed.


Ltac in_list := repeat first [left; reflexivity | right].


(** ** The chunks written in a session *)

Section Chunks.

Variable dev : device.
Variable sel : event -> bool.
Hypothesis sel_wire : forall e, on_wire e = true -> sel e = false.
Hypothesis sel_progress : forall s f, sel (EvProgress s f) = false.
(** Only records of [write_memory] may be selected. *)
Hypothesis sel_calls :
  forall e c, event_call e = Some c -> (forall a d, c <> CWriteMemory a d) -> sel e = false.

Lemma quiet_of_keep {A} (c : call) (to_val : A -> pyval) (m : M A) :
  (forall h r h', m h = (r, h') ->
     keep sel h' = keep sel h ++ keep sel [EvCall c; outcome c to_val r]) ->
  (forall a d, c <> CWriteMemory a d) ->
  quiet sel m.
Proof.
  intros Hk Hc h r h' E. rewrite (Hk _ _ _ E). unfold keep at 2. simpl.
  rewrite (sel_calls (EvCall c) c eq_refl Hc).
  replace (sel (outcome c to_val r)) with false; [apply app_nil_r|].
  symmetry. destruct r; simpl; apply (sel_calls _ c); solve [reflexivity | exact Hc].
Qed.




Variables (observe : bool) (address : Z) (image : bytes).

Let P := record_of sel (is_write_chunk address image).

Lemma reporter_quiet_sel stage fraction : quiet sel (reporter observe stage fraction).
Proof.
  unfold reporter, callback_of. destruct observe.
  - apply quiet_record_progress. exact sel_progress.
  - apply quiet_ret.
Qed.








End Chunks.

(** ** Padding *)

Lemma pad_image_done (binary_image : bytes) :
  (List.length binary_image mod 4 = 0)%nat -> pad_image binary_image = binary_image.
Proof.
  intros H. rewrite pad_image_equation_1.
  destruct (Nat.eq_dec (List.length binary_image mod 4) 0); [reflexivity | contradiction].
Qed.

Lemma pad_image_more (binary_image : bytes) :
  (List.length binary_image mod 4 <> 0)%nat ->
  pad_image binary_image = pad_image (binary_image ++ [xff]).
Proof.
  intros H. rewrite pad_image_equation_1.
  destruct (Nat.eq_dec (List.length binary_image mod 4) 0); [contradiction | reflexivity].
Qed.

(** The number of bytes the loop appends. *)
Definition padding (binary_image : bytes) : nat :=
  ((4 - List.length binary_image mod 4) mod 4)%nat.

Lemma padding_step (binary_image : bytes) (k : nat) :
  padding binary_image = S k -> padding (binary_image ++ [xff]) = k.
Proof.
  unfold padding. rewrite length_app. simpl List.length.
  pose proof (Nat.mod_upper_bound (List.length binary_image) 4 ltac:(lia)) as Hb.
  pose proof (Nat.Div0.add_mod (List.length binary_image) 1 4) as Hm.
  change (1 mod 4)%nat with 1%nat in Hm. rewrite Hm.
  assert (List.length binary_image mod 4 = 0 \/ List.length binary_image mod 4 = 1 \/
          List.length binary_image mod 4 = 2 \/ List.length binary_image mod 4 = 3)%nat
    as [E|[E|[E|E]]] by lia; rewrite E; simpl; lia.
Qed.

Lemma pad_image_padding (k : nat) :
  forall binary_image, padding binary_image = k ->
  pad_image binary_image = binary_image ++ repeat xff k.
Proof.
  induction k as [|k IH]; intros binary_image Hk.
  - rewrite pad_image_done; [simpl; rewrite app_nil_r; reflexivity|].
    unfold padding in Hk.
    pose proof (Nat.mod_upper_bound (List.length binary_image) 4 ltac:(lia)) as Hb.
    assert (List.length binary_image mod 4 = 0 \/ List.length binary_image mod 4 = 1 \/
            List.length binary_image mod 4 = 2 \/ List.length binary_image mod 4 = 3)%nat
      as [E|[E|[E|E]]] by lia; rewrite E in Hk; simpl in Hk; lia.
  - rewrite pad_image_more.
    + rewrite (IH _ (padding_step _ _ Hk)), <- app_assoc. reflexivity.
    + intros E. unfold padding in Hk. rewrite E in Hk. simpl in Hk. discriminate.
Qed.


Lemma padded_length (binary_image : bytes) :
  ((List.length binary_image + padding binary_image) mod 4 = 0)%nat.
Proof.
  unfold padding.
  pose proof (Nat.mod_upper_bound (List.length binary_image) 4 ltac:(lia)) as Hb.
  pose proof (Nat.div_mod_eq (List.length binary_image) 4) as Hd.
  assert (List.length binary_image mod 4 = 0 \/ List.length binary_image mod 4 = 1 \/
          List.length binary_image mod 4 = 2 \/ List.length binary_image mod 4 = 3)%nat
    as [E|[E|[E|E]]] by lia; rewrite E in *; simpl Nat.modulo at 2.
  - rewrite Hd. replace (4 * (List.length binary_image / 4) + 0 + 0)%nat
      with ((List.length binary_image / 4) * 4)%nat by lia. apply Nat.Div0.mod_mul.
  - rewrite Hd. replace (4 * (List.length binary_image / 4) + 1 + 3)%nat
      with ((List.length binary_image / 4 + 1) * 4)%nat by lia. apply Nat.Div0.mod_mul.
  - rewrite Hd. replace (4 * (List.length binary_image / 4) + 2 + 2)%nat
      with ((List.length binary_image / 4 + 1) * 4)%nat by lia. apply Nat.Div0.mod_mul.
  - rewrite Hd. replace (4 * (List.length binary_image / 4) + 3 + 1)%nat
      with ((List.length binary_image / 4 + 1) * 4)%nat by lia. apply Nat.Div0.mod_mul.
Qed.


Definition is_write_chunk_call (e : event) : bool :=
  match e with
  | EvCall (CWriteMemory _ _) => true
  | _ => false
  end.

Lemma milestone_wire_chunk (e : event) : on_wire e = true -> is_write_chunk_call e = false.
Proof. destruct e; simpl; intros H; try discriminate; reflexivity. Qed.

Lemma chunk_calls_only (e : event) (c : call) :
  event_call e = Some c -> (forall a d, c <> CWriteMemory a d) ->
  is_write_chunk_call e = false.
Proof.
  intros He Hc. destruct e as [| | | | | | |c0|c0 v|c0 x]; try reflexivity.
  inversion He; subst. destruct c; try reflexivity. exfalso. eapply Hc. reflexivity.
Qed.



(** ** The synchronization phase *)

Lemma erase_calls_opening failures early : erase_calls (opening failures early) = [].
Proof.
  unfold opening. rewrite !erase_calls_app, erase_calls_failed, erase_calls_stopped.
  reflexivity.
Qed.

(** C1 as amended.  The retry loop attempts get at most three times; each
    failure is followed by synchronize(skip_prefix=True) and swallowed, and
    the loop stops at the first success (so fewer than three failures are seen
    when an attempt succeeded, and exactly three when none did).  After the
    loop get is issued once more.  If that get raises, its exception is the
    outcome of load and neither an erase command nor write_memory_blocks is
    called in the run; if it returns, load goes on with the next call. *)
Theorem load_synchronization_phase (dev : device) (port : string) (binary_image : bytes)
    (load_address : option Z) (observe opt_readout_unprotect opt_write_unprotect opt_go : bool)
    (args : loader_arguments) :
  let run := load dev port binary_image load_address (callback_of observe)
               opt_readout_unprotect opt_write_unprotect opt_go args [] in
  exists (failures : list exn) (early : option DeviceInfo),
    match early with
    | None => List.length failures = 3%nat
    | Some _ => (List.length failures < 3)%nat
    end /\
    ((exists e,
        milestones (snd run) = opening failures early ++ [EvCall CGet; EvRaise CGet e] /\
        fst run = Raise e /\
        erase_calls (snd run) = [] /\
        forall a d, ~ In (EvCall (CWriteMemoryBlocks a d)) (snd run)) \/
     (exists info rest,
        milestones (snd run) =
          opening failures early
          ++ [EvCall CGet; EvReturn CGet (VInfo info);
              EvCall CGetVersionAndProtectionStatus] ++ rest)).
Proof.
  intros run. subst run.
  destruct (load dev port binary_image load_address (callback_of observe)
              opt_readout_unprotect opt_write_unprotect opt_go args []) as [r h] eqn:E.
  cbn [fst snd]. apply load_session in E.
  destruct E as (failures & early & Hlen & Hnone & Hsome & H).
  exists failures, early. split.
  { destruct early; [apply Hsome; discriminate | apply Hnone; reflexivity]. }
  destruct H as [(e & K & ->)|(info & T & K & F)].
  - left. exists e. split; [exact K|]. split; [reflexivity|]. split.
    + rewrite erase_calls_milestones, K, erase_calls_app, erase_calls_opening.
      reflexivity.
    + intros a d Hin. apply in_milestones in Hin; [|reflexivity].
      rewrite K in Hin. apply in_app_or in Hin. destruct Hin as [Hin|Hin].
      * apply opening_calls in Hin. destruct Hin as (c & Hc & [->|[s ->]]); discriminate.
      * destruct Hin as [Hin|[Hin|[]]]; discriminate.
  - right. exists info.
    unfold session_plan in F. cbn [app follows] in F.
    destruct F as [(e & -> & _)|(v & T' & -> & _)].
    + exists [EvRaise CGetVersionAndProtectionStatus e]. exact K.
    + exists (EvReturn CGetVersionAndProtectionStatus v :: T'). exact K.
Qed.

(** On a line where nothing ever arrives. *)
Lemma load_synchronization_phase_witness :
  let run := load silent_device "COM1" [x42; x42; x42] None (callback_of false)
               false false true default_arguments [] in
  exists (failures : list exn) (early : option DeviceInfo),
    match early with
    | None => List.length failures = 3%nat
    | Some _ => (List.length failures < 3)%nat
    end /\
    ((exists e,
        milestones (snd run) = opening failures early ++ [EvCall CGet; EvRaise CGet e] /\
        fst run = Raise e /\
        erase_calls (snd run) = [] /\
        forall a d, ~ In (EvCall (CWriteMemoryBlocks a d)) (snd run)) \/
     (exists info rest,
        milestones (snd run) =
          opening failures early
          ++ [EvCall CGet; EvReturn CGet (VInfo info);
              EvCall CGetVersionAndProtectionStatus] ++ rest)).
Proof.
  exact (load_synchronization_phase silent_device "COM1" [x42; x42; x42] None
           false false false true default_arguments).
Defined.

(** C1 as stated fails.  A board that misses the first three
    synchronization bytes: the three attempts of the loop all raise, each
    followed by synchronize(skip_prefix=True); no exception propagates; the
    get issued after the loop returns, and load goes on to erase, write,
    verify and start the image, and returns normally. *)
Lemma load_three_failures_counterexample :
  let run := load (bootloader late_board) "COM1" [x42; x42; x42] None (callback_of false)
               false false true default_arguments [] in
  firstn 16 (milestones (snd run)) =
    opening [STM32LoaderTimeoutException; STM32LoaderTimeoutException;
             STM32LoaderTimeoutException] None
    ++ [EvCall CGet; EvReturn CGet (VInfo (mkDeviceInfo 0x31 extended_commands))] /\
  fst run = Ok tt /\
  erase_calls (snd run) = [CExtendedErase] /\
  In (EvReturn (CWriteMemoryBlocks DEFAULT_FLASH_ADDRESS [x42; x42; x42; xff]) VNone)
     (snd run) /\
  ~ (exists e, fst run = Raise e).
Proof.
  intros run. split; [vm_compute; reflexivity|]. split; [vm_compute; reflexivity|].
  split; [vm_compute; reflexivity|]. split; [vm_compute; in_list|].
  intros [e He]. vm_compute in He. discriminate.
Qed.

(** ** Progress reports of the block transfers *)

(** What matters to the progress contract: a chunk transferred (with its
    size), a report made to the one-argument callback. *)
Inductive mark : Type :=
| Chunk (size : Z)
| Report (fraction : Q).

Definition mark_of (e : event) : list mark :=
  match e with
  | EvReturn (CWriteMemory _ d) _ => [Chunk (len d)]
  | EvReturn (CReadMemory _ n) _ => [Chunk n]
  | EvProgress None (Some q) => [Report q]
  | _ => []
  end.

Definition marks (h : history) : list mark := flat_map mark_of h.

Definition sel_mark (e : event) : bool :=
  match mark_of e with
  | [] => false
  | _ => true
  end.

(** The chunks before the last one are full. *)
Definition full_chunks (total : Z) : nat := Z.to_nat ((total - 1) / 256).

(** Reports after [m] full chunks, starting at [offset]. *)
Definition reports (total offset : Z) (m : nat) : list mark :=
  flat_map (fun k => [Chunk 256; Report (fdiv (offset + 256 * Z.of_nat k) total)])
           (seq 1 m).

(** The contract of the code, for [total > 0] bytes: after each chunk but the
    last, a report of the bytes transferred so far over the total; after the
    last chunk, one report of 1.0. *)
Definition expected_marks (total : Z) : list mark :=
  reports total 0 (full_chunks total)
  ++ [Chunk (total - 256 * Z.of_nat (full_chunks total)); Report 1%Q].

(** The contract as the specification words it: a report after every chunk,
    the last one included, and then one more report of 1.0. *)
Definition stated_marks (total : Z) : list mark :=
  reports total 0 (full_chunks total)
  ++ [Chunk (total - 256 * Z.of_nat (full_chunks total)); Report (fdiv total total);
      Report 1%Q].

Lemma marks_app (h1 h2 : history) : marks (h1 ++ h2) = marks h1 ++ marks h2.
Proof. apply flat_map_app. Qed.

Lemma sel_mark_wire (e : event) : on_wire e = true -> sel_mark e = false.
Proof. destruct e; simpl; intros H; try discriminate; reflexivity. Qed.

Lemma marks_keep (h : history) : marks (keep sel_mark h) = marks h.
Proof.
  induction h as [|e h IH]; [reflexivity|].
  change (marks (e :: h)) with (mark_of e ++ marks h).
  unfold keep in *. cbn [filter]. destruct (sel_mark e) eqn:Es.
  - change (marks (e :: filter sel_mark h)) with (mark_of e ++ marks (filter sel_mark h)).
    rewrite IH. reflexivity.
  - rewrite IH. unfold sel_mark in Es. destruct (mark_of e); [reflexivity | discriminate].
Qed.

Lemma marks_of_keep (h h' : history) (l : list event) :
  keep sel_mark h' = keep sel_mark h ++ keep sel_mark l ->
  marks h' = marks h ++ marks l.
Proof.
  intros K. rewrite <- (marks_keep h'), K, marks_app, !marks_keep. reflexivity.
Qed.

Lemma len_slice (data : bytes) (lo hi : Z) :
  0 <= lo <= hi -> hi <= len data -> len (slice data lo hi) = hi - lo.
Proof.
  intros H1 H2. unfold len, slice in *. rewrite length_firstn, length_skipn. lia.
Qed.

Lemma reports_succ (total offset : Z) (m : nat) :
  reports total offset (S m) =
    [Chunk 256; Report (fdiv (offset + 256) total)] ++ reports total (offset + 256) m.
Proof.
  unfold reports. rewrite <- cons_seq, <- seq_shift. cbn [flat_map].
  rewrite flat_map_concat_map, map_map, <- flat_map_concat_map.
  replace (offset + 256 * Z.of_nat 1) with (offset + 256) by lia.
  f_equal. apply flat_map_ext. intros k.
  replace (offset + 256 * Z.of_nat (S k)) with (offset + 256 + 256 * Z.of_nat k) by lia.
  reflexivity.
Qed.

Section Progress.

Variable dev : device.

Lemma marks_write_memory a d h h' :
  write_memory dev a d h = (Ok tt, h') -> marks h' = marks h ++ [Chunk (len d)].
Proof.
  intros E. apply (keep_write_memory dev sel_mark sel_mark_wire) in E.
  apply marks_of_keep in E. exact E.
Qed.

Lemma marks_read_memory a n h chunk h' :
  read_memory dev a n h = (Ok chunk, h') -> marks h' = marks h ++ [Chunk n].
Proof.
  intros E. apply (keep_read_memory dev sel_mark sel_mark_wire) in E.
  apply marks_of_keep in E. exact E.
Qed.

Lemma marks_record_fraction q h r h' :
  record_fraction q h = (r, h') -> r = Ok tt /\ marks h' = marks h ++ [Report q].
Proof.
  unfold record_fraction, emit. intros E. inversion E; subst.
  split; [reflexivity|]. rewrite marks_app. reflexivity.
Qed.

Lemma write_loop_marks a data (n : nat) :
  forall length offset h st h',
  (Z.to_nat length <= n)%nat ->
  0 <= offset -> offset + length = len data ->
  write_memory_blocks_loop dev a data record_fraction length offset h = (Ok st, h') ->
  exists m : nat,
    st = (length - 256 * Z.of_nat m, offset + 256 * Z.of_nat m) /\
    length - 256 * Z.of_nat m <= 256 /\
    (0 < length -> 0 < length - 256 * Z.of_nat m) /\
    marks h' = marks h ++ reports (len data) offset m.
Proof.
  induction n as [|n IH]; intros length offset h st h' Hn Hoff Hlen E;
    destruct (Z_gt_dec length WRITE_BLOCK_SIZE) as [Hgt|Hle]; unfold WRITE_BLOCK_SIZE in *;
    try (rewrite write_loop_done in E by (unfold WRITE_BLOCK_SIZE; lia);
         inversion E; subst; exists 0%nat; unfold reports; simpl;
         rewrite app_nil_r; repeat split; f_equal; lia).
  rewrite write_loop_more in E by (unfold WRITE_BLOCK_SIZE; lia).
  unfold WRITE_BLOCK_SIZE in E. unfold bind at 1 in E.
  destruct (write_memory dev (a + offset) (slice data offset (offset + 256)) h)
    as [[[]|e] h1] eqn:E1; [|discriminate].
  apply marks_write_memory in E1. rewrite len_slice in E1 by lia.
  unfold bind at 1 in E.
  destruct (record_fraction (fdiv (offset + 256) (len data)) h1) as [r2 h2] eqn:E2.
  apply marks_record_fraction in E2. destruct E2 as [-> K2].
  destruct (IH (length - 256) (offset + 256) h2 st h') as (m & -> & Hm & Hpos & K);
    [lia | lia | lia | exact E |].
  exists (S m). split; [f_equal; lia|]. split; [lia|]. split; [lia|].
  rewrite K, K2, E1, reports_succ.
  replace (offset + 256 - offset) with 256 by lia.
  repeat rewrite <- app_assoc. reflexivity.
Qed.

Lemma read_loop_marks a original (n : nat) :
  forall length offset output h st h',
  (Z.to_nat length <= n)%nat ->
  read_memory_blocks_loop dev a original record_fraction length offset output h
    = (Ok st, h') ->
  exists (m : nat) out,
    st = (length - 256 * Z.of_nat m, offset + 256 * Z.of_nat m, out) /\
    length - 256 * Z.of_nat m <= 256 /\
    (0 < length -> 0 < length - 256 * Z.of_nat m) /\
    marks h' = marks h ++ reports original offset m.
Proof.
  induction n as [|n IH]; intros length offset output h st h' Hn E;
    destruct (Z_gt_dec length READ_BLOCK_SIZE) as [Hgt|Hle]; unfold READ_BLOCK_SIZE in *;
    try (rewrite read_loop_done in E by (unfold READ_BLOCK_SIZE; lia);
         inversion E; subst; exists 0%nat, output; unfold reports; simpl;
         rewrite app_nil_r; repeat split; f_equal; try f_equal; lia).
  rewrite read_loop_more in E by (unfold READ_BLOCK_SIZE; lia).
  unfold READ_BLOCK_SIZE in E. unfold bind at 1 in E.
  destruct (read_memory dev (a + offset) 256 h) as [[chunk|e] h1] eqn:E1; [|discriminate].
  apply marks_read_memory in E1.
  unfold bind at 1 in E.
  destruct (record_fraction (fdiv (offset + 256) original) h1) as [r2 h2] eqn:E2.
  apply marks_record_fraction in E2. destruct E2 as [-> K2].
  destruct (IH (length - 256) (offset + 256) (output ++ chunk) h2 st h')
    as (m & out & -> & Hm & Hpos & K); [lia | exact E |].
  exists (S m), out. split; [f_equal; f_equal; lia|]. split; [lia|]. split; [lia|].
  rewrite K, K2, E1, reports_succ.
  repeat rewrite <- app_assoc. reflexivity.
Qed.

Lemma full_chunks_unique (total : Z) (m : nat) :
  0 < total - 256 * Z.of_nat m <= 256 -> m = full_chunks total.
Proof.
  intros H. unfold full_chunks.
  assert ((total - 1) / 256 = Z.of_nat m) as ->; [|lia].
  symmetry. apply Z.div_unique with (r := total - 1 - 256 * Z.of_nat m); lia.
Qed.

End Progress.

Section ProgressContract.

Variable dev : device.

Lemma write_memory_blocks_marks a data h h' :
  0 < len data ->
  write_memory_blocks dev a data (Some record_fraction) h = (Ok tt, h') ->
  marks h' = marks h ++ expected_marks (len data).
Proof.
  intros Hpos E. unfold write_memory_blocks, method in E.
  match type of E with
  | context [bind ?m ?f ?h0] => destruct (bind m f h0) as [[[]|e] hb] eqn:Eb
  end; [|discriminate].
  inversion E; subst h'; clear E. rewrite marks_app. simpl (marks [_]). rewrite app_nil_r.
  unfold bind at 1 in Eb.
  destruct (write_memory_blocks_loop dev a data record_fraction (len data) 0
              (h ++ [EvCall (CWriteMemoryBlocks a data)])) as [[st|e] h1] eqn:El;
    [|discriminate].
  destruct (write_loop_marks dev a data _ _ _ _ _ _ (Nat.le_refl _) (Z.le_refl 0)
              (Z.add_0_l _) El) as (m & -> & Hm & Hgt & K).
  specialize (Hgt Hpos). cbv iota beta in Eb.
  replace (len data - 256 * Z.of_nat m >? 0) with true in Eb
    by (symmetry; rewrite Z.gtb_ltb; apply Z.ltb_lt; lia).
  unfold bind at 1 in Eb.
  match type of Eb with
  | context [write_memory dev ?x ?d h1] =>
      destruct (write_memory dev x d h1) as [[[]|e] h2] eqn:Ew; [|discriminate]
  end.
  apply marks_write_memory in Ew. rewrite len_slice in Ew by lia.
  apply marks_record_fraction in Eb. destruct Eb as [_ Kb].
  rewrite Kb, Ew, K, marks_app. simpl (marks [_]). rewrite app_nil_r.
  unfold expected_marks. rewrite <- (full_chunks_unique (len data) m) by lia.
  replace (0 + 256 * Z.of_nat m + (len data - 256 * Z.of_nat m) - (0 + 256 * Z.of_nat m))
    with (len data - 256 * Z.of_nat m) by lia.
  repeat rewrite <- app_assoc. reflexivity.
Qed.

Lemma read_memory_blocks_marks a total h out h' :
  0 < total ->
  read_memory_blocks dev a total (Some record_fraction) h = (Ok out, h') ->
  marks h' = marks h ++ expected_marks total.
Proof.
  intros Hpos E. unfold read_memory_blocks, method in E.
  match type of E with
  | context [bind ?m ?f ?h0] => destruct (bind m f h0) as [[o|e] hb] eqn:Eb
  end; [|discriminate].
  inversion E; subst h' o; clear E. rewrite marks_app. simpl (marks [_]). rewrite app_nil_r.
  unfold bind at 1 in Eb.
  destruct (read_memory_blocks_loop dev a total record_fraction total 0 []
              (h ++ [EvCall (CReadMemoryBlocks a total)])) as [[st|e] h1] eqn:El;
    [|discriminate].
  destruct (read_loop_marks dev a total _ _ _ _ _ _ _ (Nat.le_refl _) El)
    as (m & acc & -> & Hm & Hgt & K).
  specialize (Hgt Hpos). cbv iota beta in Eb.
  replace (total - 256 * Z.of_nat m >? 0) with true in Eb
    by (symmetry; rewrite Z.gtb_ltb; apply Z.ltb_lt; lia).
  unfold bind at 1 2 in Eb.
  match type of Eb with
  | context [read_memory dev ?x ?d h1] =>
      destruct (read_memory dev x d h1) as [[chunk|e] h2] eqn:Ew; [|discriminate]
  end.
  apply marks_read_memory in Ew. unfold ret at 1 in Eb. unfold bind at 1 in Eb.
  destruct (record_fraction 1 h2) as [r3 h3] eqn:E3.
  apply marks_record_fraction in E3. destruct E3 as [-> K3].
  inversion Eb; subst hb.
  rewrite K3, Ew, K, marks_app. simpl (marks [_]). rewrite app_nil_r.
  unfold expected_marks. rewrite <- (full_chunks_unique total m) by lia.
  repeat rewrite <- app_assoc. reflexivity.
Qed.

(** C7 as amended.  For a transfer of a positive number of bytes that
    succeeds, write_memory_blocks and read_memory_blocks invoke the progress
    callback after each chunk except the last with the bytes transferred so
    far divided by the total, and once, with 1.0, after the last chunk; the
    sequence of chunks and reports is the same for both operations. *)
Theorem block_progress_contract (start_address : Z) :
  (forall data h h',
     0 < len data ->
     write_memory_blocks dev start_address data (Some record_fraction) h = (Ok tt, h') ->
     marks h' = marks h ++ expected_marks (len data)) /\
  (forall total h out h',
     0 < total ->
     read_memory_blocks dev start_address total (Some record_fraction) h = (Ok out, h') ->
     marks h' = marks h ++ expected_marks total).
Proof.
  split.
  - intros data h h'. apply write_memory_blocks_marks.
  - intros total h out h'. apply read_memory_blocks_marks.
Qed.

End ProgressContract.

(** 260 bytes written to and read back from a healthy board: two chunks,
    one intermediate report, one final report. *)
Lemma block_progress_contract_witness :
  let dev := bootloader good_board in
  let data := repeat x42 260 in
  let written := write_memory_blocks dev DEFAULT_FLASH_ADDRESS data (Some record_fraction)
                   synchronized in
  let readback := read_memory_blocks dev DEFAULT_FLASH_ADDRESS 260 (Some record_fraction)
                    (snd written) in
  marks (snd written) = [Chunk 256; Report (256 # 260); Chunk 4; Report 1%Q] /\
  marks (snd readback) =
    marks (snd written) ++ [Chunk 256; Report (256 # 260); Chunk 4; Report 1%Q].
Proof.
  intros dev data written readback.
  destruct (block_progress_contract dev DEFAULT_FLASH_ADDRESS) as [Hw Hr].
  split.
  - apply (Hw data synchronized (snd written)); [reflexivity | vm_compute; reflexivity].
  - apply (Hr 260 (snd written) data (snd readback)); [reflexivity | vm_compute; reflexivity].
Defined.

(** C7 as stated fails.  Four bytes written to a healthy board: one chunk,
    and the callback is invoked once, with 1.0, where the stated contract
    asks for two invocations (4/4 after the chunk, then 1.0). *)
Lemma block_progress_counterexample :
  let run := write_memory_blocks (bootloader good_board) DEFAULT_FLASH_ADDRESS
               [x01; x02; x03; x04] (Some record_fraction) synchronized in
  fst run = Ok tt /\
  marks (snd run) = [Chunk 4; Report 1%Q] /\
  stated_marks 4 = [Chunk 4; Report (4 # 4); Report 1%Q] /\
  marks (snd run) <> marks synchronized ++ stated_marks 4.
Proof.
  intros run. split; [vm_compute; reflexivity|]. split; [vm_compute; reflexivity|].
  split; [vm_compute; reflexivity|].
  intros H. vm_compute in H. discriminate.
Qed.

(** ** Runs on the simulated boards *)

Example erase_on_good_board :
  let run := load (bootloader good_board) "COM1" [x42; x42; x42] None (callback_of false)
               false false true default_arguments [] in
  fst run = Ok tt /\ erase_calls (snd run) = [CGlobalErase].
Proof. split; vm_compute; reflexivity. Qed.

Example erase_on_extended_board :
  let run := load (bootloader extended_board) "COM1" [x42; x42; x42] None (callback_of false)
               true true true default_arguments [] in
  fst run = Ok tt /\ erase_calls (snd run) = [CExtendedErase].
Proof. split; vm_compute; reflexivity. Qed.

(** The scenario of a 1000-byte image on a healthy board: four chunks
    written with three intermediate reports and a final one, the same for the
    read-back, and go at the end. *)
Example thousand_bytes :
  let run := load (bootloader good_board) "COM1" (repeat x42 1000) None (callback_of true)
               false false true default_arguments [] in
  fst run = Ok tt /\
  map (fun c => match c with
                | CWriteMemory _ d => len d
                | _ => 0
                end)
      (filter (fun c => match c with CWriteMemory _ _ => true | _ => false end)
              (calls (snd run))) = [256; 256; 256; 232] /\
  filter (fun e => match e with EvProgress _ (Some _) => true | _ => false end) (snd run) =
    [EvProgress (Some "Writing image"%string) (Some (256 # 1000));
     EvProgress (Some "Writing image"%string) (Some (512 # 1000));
     EvProgress (Some "Writing image"%string) (Some (768 # 1000));
     EvProgress (Some "Writing image"%string) (Some 1%Q);
     EvProgress (Some "Verification"%string) (Some (256 # 1000));
     EvProgress (Some "Verification"%string) (Some (512 # 1000));
     EvProgress (Some "Verification"%string) (Some (768 # 1000));
     EvProgress (Some "Verification"%string) (Some 1%Q)] /\
  last (calls (snd run)) CGet = CGo DEFAULT_FLASH_ADDRESS.
Proof.
  intros run. split; [vm_compute; reflexivity|]. split; [vm_compute; reflexivity|].
  split; vm_compute; reflexivity.
Qed.

(** * Further properties of the loader *)

(** ** What a successful step leaves in the history *)

Section Steps.

Variable dev : device.

Lemma read_bytes_ok (n : Z) (h h' : history) (l : list Z) :
  _read_bytes dev n h = (Ok l, h') ->
  len (arriving dev h n) = n /\ l = map ord (arriving dev h n) /\
  h' = h ++ [EvRead n (arriving dev h n)].
Proof.
  rewrite read_bytes_run. destruct (len (arriving dev h n) =? n) eqn:E; [|discriminate].
  intros H. inversion H. apply Z.eqb_eq in E. auto.
Qed.

Lemma read_byte_ok (h h' : history) (x : Z) :
  _read_byte dev h = (Ok x, h') ->
  exists b, arriving dev h 1 = [b] /\ x = ord b /\ h' = h ++ [EvRead 1 [b]].
Proof.
  rewrite read_byte_run.
  pose proof (arriving_length dev h 1 ltac:(lia)) as Hl.
  destruct (arriving dev h 1) as [|b [|b' l]]; [discriminate| |unfold len in Hl; simpl in Hl; lia].
  intros H. inversion H. eauto.
Qed.

Lemma ord_inj (b1 b2 : byte) : ord b1 = ord b2 -> b1 = b2.
Proof. intros H. rewrite <- (byte_of_Z_ord b1), <- (byte_of_Z_ord b2), H. reflexivity. Qed.

Lemma wait_for_ack_ok (h h' : history) :
  _wait_for_ack dev h = (Ok tt, h') ->
  arriving dev h 1 = [x79] /\ h' = h ++ [EvRead 1 [x79]].
Proof.
  unfold _wait_for_ack, bind. destruct (_read_byte dev h) as [[x|e] h1] eqn:E; [|discriminate].
  apply read_byte_ok in E. destruct E as (b & Ha & -> & ->).
  unfold NACK, ACK. destruct (ord b =? 31); [discriminate|].
  destruct (ord b =? 121) eqn:E2; [|discriminate].
  apply Z.eqb_eq in E2. assert (b = x79) as -> by (apply ord_inj; exact E2).
  intros H. inversion H. auto.
Qed.

Lemma write_bchr_ok (x : Z) (h h' : history) :
  _write_bchr x h = (Ok tt, h') -> 0 <= x < 256 /\ h' = h ++ [EvWrite [byte_of_Z x]].
Proof.
  intros E. destruct (Z_le_dec 0 x) as [H0|H0]; [destruct (Z_lt_dec x 256) as [H1|H1]|].
  - rewrite write_bchr_run in E by lia. inversion E. split; [lia | reflexivity].
  - unfold _write_bchr, bind, lift in E. rewrite bchr_out_of_range in E by lia. discriminate.
  - unfold _write_bchr, bind, lift in E. rewrite bchr_out_of_range in E by lia. discriminate.
Qed.

Lemma lxor_255_nat (n : nat) :
  (n < 256)%nat -> Z.lxor (Z.of_nat n) 255 = 255 - Z.of_nat n.
Proof.
  intros Hn.
  assert (forallb (fun k => Z.lxor (Z.of_nat k) 255 =? 255 - Z.of_nat k) (seq 0 256) = true)
    as Hall by (vm_compute; reflexivity).
  rewrite forallb_forall in Hall. apply Z.eqb_eq, Hall, in_seq. lia.
Qed.

Lemma lxor_255 (x : Z) : 0 <= x < 256 -> Z.lxor x 255 = 255 - x.
Proof.
  intros H. rewrite <- (Z2Nat.id x) by lia. apply lxor_255_nat. lia.
Qed.

Lemma generic_execute_and_confirm_ok (cmd : Z) (h h' : history) :
  generic_execute_and_confirm dev cmd h = (Ok tt, h') ->
  0 <= cmd < 256 /\
  h' = h ++ [EvWrite [byte_of_Z cmd]; EvWrite [byte_of_Z (255 - cmd)]; EvRead 1 [x79]].
Proof.
  unfold generic_execute_and_confirm. intros E. unfold bind at 1 in E.
  destruct (_write_bchr cmd h) as [[[]|e] h1] eqn:E1; [|discriminate].
  apply write_bchr_ok in E1. destruct E1 as [Hc ->].
  unfold bind at 1 in E.
  destruct (_write_bchr (Z.lxor cmd 255) (h ++ [EvWrite [byte_of_Z cmd]]))
    as [[[]|e] h2] eqn:E2; [|discriminate].
  apply write_bchr_ok in E2. destruct E2 as [_ ->].
  apply wait_for_ack_ok in E. destruct E as [_ ->].
  split; [exact Hc|]. rewrite lxor_255 by exact Hc.
  repeat rewrite <- app_assoc. reflexivity.
Qed.

Lemma encode_address_ok (address : Z) (b : bytes) :
  _encode_address_with_checksum address = Ok b -> 0 <= address < 2 ^ 32.
Proof.
  unfold _encode_address_with_checksum, struct_pack_I_be.
  destruct ((0 <=? address) && (address <? 2 ^ 32)) eqn:E; [|discriminate].
  intros _. apply andb_true_iff in E. destruct E as [E1 E2].
  apply Z.leb_le in E1. apply Z.ltb_lt in E2. lia.
Qed.

Lemma command_and_address_ok (cmd address : Z) (h h' : history) :
  command_and_address dev cmd address h = (Ok tt, h') ->
  0 <= cmd < 256 /\ 0 <= address < 2 ^ 32 /\
  exists encoded,
    _encode_address_with_checksum address = Ok encoded /\
    h' = h ++ [EvWrite [byte_of_Z cmd]; EvWrite [byte_of_Z (255 - cmd)]; EvRead 1 [x79];
               EvWrite encoded; EvRead 1 [x79]].
Proof.
  unfold command_and_address. intros E. unfold bind at 1 in E.
  destruct (generic_execute_and_confirm dev cmd h) as [[[]|e] h1] eqn:E1; [|discriminate].
  apply generic_execute_and_confirm_ok in E1. destruct E1 as [Hc ->].
  unfold bind at 1, lift at 1 in E.
  destruct (_encode_address_with_checksum address) as [encoded|e] eqn:Ee; [|discriminate].
  unfold bind at 1, _write, io_write, emit in E.
  apply wait_for_ack_ok in E. destruct E as [_ ->].
  split; [exact Hc|]. split; [eapply encode_address_ok; eassumption|].
  exists encoded. split; [reflexivity|]. repeat rewrite <- app_assoc. reflexivity.
Qed.

End Steps.


(** ** Byte-level helpers *)

(** X1.  [_read_bytes] is all or nothing: it performs one read of the channel;
    it returns the values of exactly [num_bytes] bytes, each in range(256),
    or raises the timeout exception; a shorter read is never returned. *)
Theorem read_bytes_all_or_nothing (dev : device) (num_bytes : Z) (h : history) :
  snd (_read_bytes dev num_bytes h) = h ++ [EvRead num_bytes (arriving dev h num_bytes)] /\
  match fst (_read_bytes dev num_bytes h) with
  | Ok l => len (arriving dev h num_bytes) = num_bytes /\
            l = map ord (arriving dev h num_bytes) /\
            Z.of_nat (List.length l) = num_bytes /\
            Forall (fun x => 0 <= x < 256) l
  | Raise e => e = STM32LoaderTimeoutException /\
               len (arriving dev h num_bytes) <> num_bytes
  end.
Proof.
  rewrite read_bytes_run. cbn [fst snd]. split; [reflexivity|].
  destruct (len (arriving dev h num_bytes) =? num_bytes) eqn:E.
  - apply Z.eqb_eq in E. split; [exact E|]. split; [reflexivity|]. split.
    + rewrite length_map. exact E.
    + apply Forall_forall. intros x Hx. apply in_map_iff in Hx.
      destruct Hx as (b & <- & _). apply ord_range.
  - apply Z.eqb_neq in E. split; [reflexivity | exact E].
Qed.

(** X2.  [write_memory] checks the length of the data before anything else: data
    that is empty, longer than 256 bytes or not a multiple of 4 bytes long is
    refused with the exception "Invalid data length", and nothing is written
    to or read from the channel. *)
Theorem write_memory_rejects_length (dev : device) (start_address : Z) (data : bytes)
    (h : history) :
  len data = 0 \/ 256 < len data \/ len data mod 4 <> 0 ->
  write_memory dev start_address data h =
    (Raise (STM32LoaderException "Invalid data length"),
     h ++ [EvCall (CWriteMemory start_address data);
           EvRaise (CWriteMemory start_address data)
                   (STM32LoaderException "Invalid data length")]).
Proof.
  intros H. unfold write_memory, method.
  replace ((len data >? 256) || (len data =? 0) || negb (len data mod 4 =? 0)) with true.
  - unfold raise. rewrite <- app_assoc. reflexivity.
  - symmetry. apply orb_true_iff. destruct H as [H|[H|H]].
    + left. apply orb_true_iff. right. apply Z.eqb_eq. exact H.
    + left. apply orb_true_iff. left. rewrite Z.gtb_ltb. apply Z.ltb_lt. exact H.
    + right. apply negb_true_iff, Z.eqb_neq. exact H.
Qed.

(** A five-byte chunk offered to a silent line. *)
Lemma write_memory_rejects_length_witness :
  write_memory silent_device 0 [x01; x02; x03; x04; x05] [] =
    (Raise (STM32LoaderException "Invalid data length"),
     [EvCall (CWriteMemory 0 [x01; x02; x03; x04; x05]);
      EvRaise (CWriteMemory 0 [x01; x02; x03; x04; x05])
              (STM32LoaderException "Invalid data length")]).
Proof.
  apply (write_memory_rejects_length silent_device 0 [x01; x02; x03; x04; x05] []).
  right. right. vm_compute. discriminate.
Defined.

Lemma generic_execute_and_confirm_run (dev : device) (cmd : Z) (h : history) :
  0 <= cmd < 256 ->
  generic_execute_and_confirm dev cmd h =
    _wait_for_ack dev (h ++ [EvWrite [byte_of_Z cmd]; EvWrite [byte_of_Z (255 - cmd)]]).
Proof.
  intros Hc. unfold generic_execute_and_confirm, bind.
  rewrite write_bchr_run by exact Hc.
  rewrite write_bchr_run by (rewrite lxor_255 by exact Hc; lia).
  rewrite lxor_255 by exact Hc. rewrite <- app_assoc. reflexivity.
Qed.

(** X3.  [generic_execute_and_confirm] sends the command byte and then its
    bitwise complement (the two byte values add up to 255), in two writes made
    before anything is read, and its outcome is that of the ACK wait that
    follows. *)
Theorem generic_execute_and_confirm_frame (dev : device) (cmd : Z) (h : history) :
  0 <= cmd < 256 ->
  let h2 := h ++ [EvWrite [byte_of_Z cmd]; EvWrite [byte_of_Z (255 - cmd)]] in
  ord (byte_of_Z cmd) + ord (byte_of_Z (255 - cmd)) = 255 /\
  generic_execute_and_confirm dev cmd h = _wait_for_ack dev h2.
Proof.
  intros Hc h2. split.
  - rewrite !ord_byte_of_Z, !Z.mod_small by lia. lia.
  - apply generic_execute_and_confirm_run. exact Hc.
Qed.

Lemma generic_execute_and_confirm_frame_witness :
  generic_execute_and_confirm (bootloader good_board) CMD_GET synchronized =
    (Ok tt, synchronized ++ [EvWrite [x00]; EvWrite [xff]; EvRead 1 [x79]]).
Proof.
  destruct (generic_execute_and_confirm_frame (bootloader good_board) CMD_GET synchronized)
    as [_ E]; [unfold CMD_GET; lia|].
  rewrite E. vm_compute. reflexivity.
Defined.

(** X4.  A command value that does not fit a byte is refused with ValueError
    before anything is written. *)
Theorem generic_execute_and_confirm_range (dev : device) (cmd : Z) (h : history) :
  ~ (0 <= cmd < 256) ->
  generic_execute_and_confirm dev cmd h = (Raise ValueError, h).
Proof.
  intros Hc. unfold generic_execute_and_confirm, bind, _write_bchr, bind, lift.
  rewrite bchr_out_of_range by exact Hc. reflexivity.
Qed.

Lemma generic_execute_and_confirm_range_witness :
  generic_execute_and_confirm silent_device 256 [] = (Raise ValueError, []).
Proof. apply generic_execute_and_confirm_range. lia. Defined.

(** X5.  [synchronize] does not wait for any answer, so its run is the same
    whatever the device does: it flushes the input, sends the configured
    prefix followed by a one-second pause only if the prefix is not empty and
    [skip_prefix] is false, sends the byte 0x7F, pauses one second, flushes
    the input again and returns. *)
Theorem synchronize_wire (self : STM32Loader) (skip_prefix : bool) (h : history) :
  synchronize self skip_prefix h =
    (Ok tt,
     h ++ [EvCall (CSynchronize skip_prefix); EvFlushInput]
       ++ (if negb skip_prefix && negb (len (synchronization_prefix self) =? 0)
           then [EvWrite (synchronization_prefix self); EvSleep 1] else [])
       ++ [EvWrite [x7f]; EvSleep 1; EvFlushInput;
           EvReturn (CSynchronize skip_prefix) VNone]).
Proof.
  unfold synchronize, method, bind, io_flushInput, _write_bchr, bind, lift, _write,
    io_write, time_sleep, emit, ret.
  rewrite bchr_in_range by (unfold SYNCHRONIZATION_BYTE; lia).
  change (byte_of_Z SYNCHRONIZATION_BYTE) with x7f.
  destruct skip_prefix; destruct (len (synchronization_prefix self) =? 0);
    cbn [negb andb]; repeat rewrite <- app_assoc; reflexivity.
Qed.

(** X6.  Padding an image that is already padded changes nothing, and the
    padded image starts with the original one. *)
Theorem pad_image_idempotent (binary_image : bytes) :
  pad_image (pad_image binary_image) = pad_image binary_image /\
  firstn (List.length binary_image) (pad_image binary_image) = binary_image.
Proof.
  split.
  - apply pad_image_done.
    rewrite (pad_image_padding (padding binary_image) binary_image eq_refl).
    rewrite length_app, repeat_length. apply padded_length.
  - rewrite (pad_image_padding (padding binary_image) binary_image eq_refl).
    rewrite firstn_app, Nat.sub_diag, firstn_all. simpl. apply app_nil_r.
Qed.


(** ** What a successful command has exchanged *)

Lemma method_ok {A} (c : call) (to_val : A -> pyval) (body : M A) h a h' :
  method c to_val body h = (Ok a, h') ->
  exists hb, body (h ++ [EvCall c]) = (Ok a, hb) /\ h' = hb ++ [EvReturn c (to_val a)].
Proof.
  unfold method. destruct (body (h ++ [EvCall c])) as [[a0|e] hb]; [|discriminate].
  intros E. inversion E. eauto.
Qed.

Ltac ok_bind E :=
  unfold bind at 1 in E;
  match type of E with
  | (match ?m with _ => _ end) = _ =>
      let r := fresh "r" in
      let hh := fresh "h" in
      let Es := fresh "Es" in
      destruct m as [[r|r] hh] eqn:Es; [|discriminate]
  end.

Ltac tidy := repeat rewrite <- app_assoc; cbn [app].

Section Replies.

Variable dev : device.

(** X7.  When [get] returns, it has sent 0x00 0xFF and read, one after the other:
    an ACK, a length byte N, a version byte, N further bytes and an ACK; the
    Device Info it returns holds that version and those N bytes, in order. *)
Theorem get_parses_reply (h h' : history) (info : DeviceInfo) :
  get dev h = (Ok info, h') ->
  exists n v cs,
    h' = h ++ [EvCall CGet; EvWrite [x00]; EvWrite [xff]; EvRead 1 [x79];
               EvRead 1 [n]; EvRead 1 [v]; EvRead (ord n) cs; EvRead 1 [x79];
               EvReturn CGet (VInfo info)] /\
    len cs = ord n /\
    info = mkDeviceInfo (ord v) (map ord cs).
Proof.
  intros E. apply method_ok in E. destruct E as (hb & E & ->).
  ok_bind E. destruct r. apply generic_execute_and_confirm_ok in Es. destruct Es as [_ ->].
  ok_bind E. apply read_byte_ok in Es. destruct Es as (n & _ & -> & ->).
  ok_bind E. apply read_byte_ok in Es. destruct Es as (v & _ & -> & ->).
  ok_bind E. apply read_bytes_ok in Es. destruct Es as (Hl & -> & ->).
  ok_bind E. destruct r. apply wait_for_ack_ok in Es. destruct Es as [_ ->].
  inversion E; subst. exists n, v, (arriving dev
     ((((h ++ [EvCall CGet]) ++
        [EvWrite [byte_of_Z CMD_GET]; EvWrite [byte_of_Z (255 - CMD_GET)]; EvRead 1 [x79]]) ++
       [EvRead 1 [n]]) ++ [EvRead 1 [v]]) (ord n)).
  split; [tidy; reflexivity|]. split; [exact Hl | reflexivity].
Qed.

(** X8.  When [get_version_and_protection_status] returns, it has sent 0x01 0xFE
    and read an ACK, the version byte, two option bytes and an ACK; it returns
    that version and those two option bytes. *)
Theorem get_version_parses_reply (h h' : history) (st : ProtectionStatus) :
  get_version_and_protection_status dev h = (Ok st, h') ->
  exists v o1 o2,
    h' = h ++ [EvCall CGetVersionAndProtectionStatus;
               EvWrite [x01]; EvWrite [xfe]; EvRead 1 [x79];
               EvRead 1 [v]; EvRead 1 [o1]; EvRead 1 [o2]; EvRead 1 [x79];
               EvReturn CGetVersionAndProtectionStatus (VStatus st)] /\
    st = mkProtectionStatus (ord v) [ord o1; ord o2].
Proof.
  intros E. apply method_ok in E. destruct E as (hb & E & ->).
  ok_bind E. destruct r. apply generic_execute_and_confirm_ok in Es. destruct Es as [_ ->].
  ok_bind E. apply read_byte_ok in Es. destruct Es as (v & _ & -> & ->).
  ok_bind E. apply read_byte_ok in Es. destruct Es as (o1 & _ & -> & ->).
  ok_bind E. apply read_byte_ok in Es. destruct Es as (o2 & _ & -> & ->).
  ok_bind E. destruct r. apply wait_for_ack_ok in Es. destruct Es as [_ ->].
  inversion E; subst. exists v, o1, o2. split; [tidy; reflexivity | reflexivity].
Qed.

Lemma shift_or_bytes (msb lsb : byte) :
  Z.lor (Z.shiftl (ord msb) 8) (ord lsb) = ord msb * 256 + ord lsb.
Proof.
  pose proof (ord_range msb) as Hm. pose proof (ord_range lsb) as Hl.
  rewrite Z.shiftl_mul_pow2 by lia. change (2 ^ 8) with 256.
  rewrite <- Z.lxor_lor.
  - rewrite <- Z.add_nocarry_lxor; [reflexivity|].
    apply Z.bits_inj'. intros i Hi. rewrite Z.land_spec, Z.bits_0.
    destruct (Z_lt_dec i 8) as [H8|H8].
    + replace (ord msb * 256) with (ord msb * 2 ^ 8) by reflexivity.
      rewrite Z.mul_pow2_bits_low by lia. reflexivity.
    + rewrite (Z.bits_above_log2 (ord lsb)); [apply andb_false_r | lia |].
      pose proof (log2_byte (ord lsb) Hl). lia.
  - apply Z.bits_inj'. intros i Hi. rewrite Z.land_spec, Z.bits_0.
    destruct (Z_lt_dec i 8) as [H8|H8].
    + replace (ord msb * 256) with (ord msb * 2 ^ 8) by reflexivity.
      rewrite Z.mul_pow2_bits_low by lia. reflexivity.
    + rewrite (Z.bits_above_log2 (ord lsb)); [apply andb_false_r | lia |].
      pose proof (log2_byte (ord lsb) Hl). lia.
Qed.

(** X9.  When [get_id] returns, it has sent 0x02 0xFD and read an ACK, a length
    byte equal to 1, two identifier bytes and an ACK; the identifier returned
    is the big-endian value of the two bytes, below 65536. *)
Theorem get_id_parses_reply (h h' : history) (id : Z) :
  get_id dev h = (Ok id, h') ->
  exists msb lsb,
    h' = h ++ [EvCall CGetId; EvWrite [x02]; EvWrite [xfd]; EvRead 1 [x79];
               EvRead 1 [x01]; EvRead 1 [msb]; EvRead 1 [lsb]; EvRead 1 [x79];
               EvReturn CGetId (VInt id)] /\
    id = ord msb * 256 + ord lsb /\ 0 <= id < 65536.
Proof.
  intros E. apply method_ok in E. destruct E as (hb & E & ->).
  ok_bind E. destruct r. apply generic_execute_and_confirm_ok in Es. destruct Es as [_ ->].
  ok_bind E. apply read_byte_ok in Es. destruct Es as (n & _ & -> & ->).
  destruct (negb (ord n =? 1)) eqn:En; [discriminate|].
  apply negb_false_iff, Z.eqb_eq in En.
  assert (n = x01) as -> by (apply ord_inj; exact En).
  ok_bind E. apply read_byte_ok in Es. destruct Es as (msb & _ & -> & ->).
  ok_bind E. apply read_byte_ok in Es. destruct Es as (lsb & _ & -> & ->).
  ok_bind E. destruct r. apply wait_for_ack_ok in Es. destruct Es as [_ ->].
  rewrite shift_or_bytes in E. unfold ret in E. injection E as Hid Hh. subst id hb.
  exists msb, lsb. split; [tidy; reflexivity|]. split; [reflexivity|].
  pose proof (ord_range msb). pose proof (ord_range lsb). lia.
Qed.

(** X10.  If the length byte that follows the acknowledged GET ID command is not
    1, [get_id] raises "GET ID: Unexpected number of bytes" at once, without
    reading the rest of the reply. *)
Theorem get_id_unexpected_length (h h1 : history) (n : byte) :
  generic_execute_and_confirm dev CMD_GET_ID (h ++ [EvCall CGetId]) = (Ok tt, h1) ->
  arriving dev h1 1 = [n] ->
  ord n <> 1 ->
  get_id dev h =
    (Raise (STM32LoaderException "GET ID: Unexpected number of bytes"),
     h1 ++ [EvRead 1 [n];
            EvRaise CGetId (STM32LoaderException "GET ID: Unexpected number of bytes")]).
Proof.
  intros E1 Ha Hn. unfold get_id, method. unfold bind at 1. rewrite E1.
  unfold bind at 1. rewrite read_byte_run, Ha.
  replace (negb (ord n =? 1)) with true
    by (symmetry; apply negb_true_iff, Z.eqb_neq; exact Hn).
  unfold raise. tidy. reflexivity.
Qed.

End Replies.

(** A device that plays back a fixed reply: each read takes the next bytes
    of it. *)
Definition consumed (h : history) : nat :=
  fold_left (fun n e => match e with EvRead _ d => (n + List.length d)%nat | _ => n end) h 0%nat.

Definition replay (reply : bytes) : device :=
  fun h _ => skipn (consumed h) reply.

Lemma get_parses_reply_witness :
  exists n v cs,
    snd (get (bootloader good_board) synchronized) =
      synchronized ++ [EvCall CGet; EvWrite [x00]; EvWrite [xff]; EvRead 1 [x79];
                       EvRead 1 [n]; EvRead 1 [v]; EvRead (ord n) cs; EvRead 1 [x79];
                       EvReturn CGet (VInfo (mkDeviceInfo 0x22 all_commands))] /\
    len cs = ord n /\
    mkDeviceInfo 0x22 all_commands = mkDeviceInfo (ord v) (map ord cs).
Proof.
  apply (get_parses_reply (bootloader good_board) synchronized
           (snd (get (bootloader good_board) synchronized))
           (mkDeviceInfo 0x22 all_commands)).
  vm_compute. reflexivity.
Defined.

Lemma get_version_parses_reply_witness :
  exists v o1 o2,
    snd (get_version_and_protection_status (bootloader good_board) synchronized) =
      synchronized ++ [EvCall CGetVersionAndProtectionStatus;
                       EvWrite [x01]; EvWrite [xfe]; EvRead 1 [x79];
                       EvRead 1 [v]; EvRead 1 [o1]; EvRead 1 [o2]; EvRead 1 [x79];
                       EvReturn CGetVersionAndProtectionStatus
                         (VStatus (mkProtectionStatus 0x22 [0; 0]))] /\
    mkProtectionStatus 0x22 [0; 0] = mkProtectionStatus (ord v) [ord o1; ord o2].
Proof.
  apply (get_version_parses_reply (bootloader good_board) synchronized
           (snd (get_version_and_protection_status (bootloader good_board) synchronized))
           (mkProtectionStatus 0x22 [0; 0])).
  vm_compute. reflexivity.
Defined.

Lemma get_id_parses_reply_witness :
  exists msb lsb,
    snd (get_id (bootloader good_board) synchronized) =
      synchronized ++ [EvCall CGetId; EvWrite [x02]; EvWrite [xfd]; EvRead 1 [x79];
                       EvRead 1 [x01]; EvRead 1 [msb]; EvRead 1 [lsb]; EvRead 1 [x79];
                       EvReturn CGetId (VInt 0x0410)] /\
    0x0410 = ord msb * 256 + ord lsb /\ 0 <= 0x0410 < 65536.
Proof.
  apply (get_id_parses_reply (bootloader good_board) synchronized
           (snd (get_id (bootloader good_board) synchronized)) 0x0410).
  vm_compute. reflexivity.
Defined.

(** A device that announces three identifier bytes. *)
Lemma get_id_unexpected_length_witness :
  get_id (replay [x79; x02; x04; x10; x00; x79]) [] =
    (Raise (STM32LoaderException "GET ID: Unexpected number of bytes"),
     [EvCall CGetId; EvWrite [x02]; EvWrite [xfd]; EvRead 1 [x79]; EvRead 1 [x02];
      EvRaise CGetId (STM32LoaderException "GET ID: Unexpected number of bytes")]).
Proof.
  apply (get_id_unexpected_length (replay [x79; x02; x04; x10; x00; x79]) []
           [EvCall CGetId; EvWrite [x02]; EvWrite [xfd]; EvRead 1 [x79]] x02).
  - vm_compute. reflexivity.
  - vm_compute. reflexivity.
  - vm_compute. discriminate.
Defined.

(** ** The frames of the remaining commands *)


Section Frames.

Variable dev : device.

(** X11.  When [write_unprotect] or [readout_unprotect] returns, it has sent its
    command with the complement (0x73 0x8C, or 0x92 0x6D) and read two ACKs,
    and nothing else. *)
Theorem unprotect_two_acks :
  (forall h h', write_unprotect dev h = (Ok tt, h') ->
     h' = h ++ [EvCall CWriteUnprotect; EvWrite [x73]; EvWrite [x8c];
                EvRead 1 [x79]; EvRead 1 [x79]; EvReturn CWriteUnprotect VNone]) /\
  (forall h h', readout_unprotect dev h = (Ok tt, h') ->
     h' = h ++ [EvCall CReadoutUnprotect; EvWrite [x92]; EvWrite [x6d];
                EvRead 1 [x79]; EvRead 1 [x79]; EvReturn CReadoutUnprotect VNone]).
Proof.
  split; intros h h' E; apply method_ok in E; destruct E as (hb & E & ->);
    ok_bind E; destruct r; apply generic_execute_and_confirm_ok in Es;
    destruct Es as [_ ->]; apply wait_for_ack_ok in E; destruct E as [_ ->];
    tidy; reflexivity.
Qed.

(** X12.  When [global_erase] returns, it has sent 0x43 0xBC, read an ACK, sent
    the two bytes 0xFF 0x00 and read an ACK; when [extended_erase] returns, it
    has sent 0x44 0xBB, read an ACK, sent the three bytes 0xFF 0xFF 0x00 and
    read an ACK. *)
Theorem erase_frames :
  (forall h h', global_erase dev h = (Ok tt, h') ->
     h' = h ++ [EvCall CGlobalErase; EvWrite [x43]; EvWrite [xbc]; EvRead 1 [x79];
                EvWrite [xff; x00]; EvRead 1 [x79]; EvReturn CGlobalErase VNone]) /\
  (forall h h', extended_erase dev h = (Ok tt, h') ->
     h' = h ++ [EvCall CExtendedErase; EvWrite [x44]; EvWrite [xbb]; EvRead 1 [x79];
                EvWrite [xff; xff; x00]; EvRead 1 [x79]; EvReturn CExtendedErase VNone]).
Proof.
  split; intros h h' E; apply method_ok in E; destruct E as (hb & E & ->);
    ok_bind E; destruct r; apply generic_execute_and_confirm_ok in Es;
    destruct Es as [_ ->]; unfold bind at 1, _write, io_write, emit in E;
    apply wait_for_ack_ok in E; destruct E as [_ ->];
    tidy; reflexivity.
Qed.

(** X13.  The selector of an erase command is sent only after the command has
    been acknowledged: if the ACK wait that follows the command fails, the
    erase call fails with the same exception and the last thing written is the
    complement of the command. *)
Theorem erase_needs_acknowledgement (h : history) (e : exn) :
  (fst (_wait_for_ack dev (h ++ [EvCall CGlobalErase; EvWrite [x43]; EvWrite [xbc]]))
     = Raise e ->
   global_erase dev h =
     (Raise e, h ++ [EvCall CGlobalErase; EvWrite [x43]; EvWrite [xbc];
                     EvRead 1 (arriving dev (h ++ [EvCall CGlobalErase; EvWrite [x43];
                                                   EvWrite [xbc]]) 1);
                     EvRaise CGlobalErase e])) /\
  (fst (_wait_for_ack dev (h ++ [EvCall CExtendedErase; EvWrite [x44]; EvWrite [xbb]]))
     = Raise e ->
   extended_erase dev h =
     (Raise e, h ++ [EvCall CExtendedErase; EvWrite [x44]; EvWrite [xbb];
                     EvRead 1 (arriving dev (h ++ [EvCall CExtendedErase; EvWrite [x44];
                                                   EvWrite [xbb]]) 1);
                     EvRaise CExtendedErase e])).
Proof.
  split; intros Hw.
  - unfold global_erase, method. unfold bind at 1.
    rewrite generic_execute_and_confirm_run by (unfold CMD_ERASE; lia).
    change (byte_of_Z CMD_ERASE) with x43.
    change (byte_of_Z (255 - CMD_ERASE)) with xbc. rewrite <- app_assoc. cbn [app].
    destruct (_wait_for_ack dev (h ++ [EvCall CGlobalErase; EvWrite [x43]; EvWrite [xbc]]))
      as [r hw] eqn:Ew.
    pose proof (read_byte_run dev (h ++ [EvCall CGlobalErase; EvWrite [x43]; EvWrite [xbc]]))
      as Hr.
    unfold _wait_for_ack, bind in Ew. rewrite Hr in Ew. cbn [fst] in Hw. subst r.
    assert (hw = (h ++ [EvCall CGlobalErase; EvWrite [x43]; EvWrite [xbc]]) ++
                 [EvRead 1 (arriving dev (h ++ [EvCall CGlobalErase; EvWrite [x43];
                                               EvWrite [xbc]]) 1)]) as ->.
    { destruct (arriving dev _ 1) as [|b l]; [inversion Ew; reflexivity|].
      destruct (ord b =? NACK); [inversion Ew; reflexivity|].
      destruct (negb (ord b =? ACK)); inversion Ew; reflexivity. }
    tidy. reflexivity.
  - unfold extended_erase, method. unfold bind at 1.
    rewrite generic_execute_and_confirm_run by (unfold CMD_EXTENDED_ERASE; lia).
    change (byte_of_Z CMD_EXTENDED_ERASE) with x44.
    change (byte_of_Z (255 - CMD_EXTENDED_ERASE)) with xbb. rewrite <- app_assoc. cbn [app].
    destruct (_wait_for_ack dev (h ++ [EvCall CExtendedErase; EvWrite [x44]; EvWrite [xbb]]))
      as [r hw] eqn:Ew.
    pose proof (read_byte_run dev (h ++ [EvCall CExtendedErase; EvWrite [x44];
                                         EvWrite [xbb]])) as Hr.
    unfold _wait_for_ack, bind in Ew. rewrite Hr in Ew. cbn [fst] in Hw. subst r.
    assert (hw = (h ++ [EvCall CExtendedErase; EvWrite [x44]; EvWrite [xbb]]) ++
                 [EvRead 1 (arriving dev (h ++ [EvCall CExtendedErase; EvWrite [x44];
                                               EvWrite [xbb]]) 1)]) as ->.
    { destruct (arriving dev _ 1) as [|b l]; [inversion Ew; reflexivity|].
      destruct (ord b =? NACK); [inversion Ew; reflexivity|].
      destruct (negb (ord b =? ACK)); inversion Ew; reflexivity. }
    tidy. reflexivity.
Qed.

(** X14.  When [go] returns, the address fits 32 bits and the call has sent 0x21
    0xDE, read an ACK, sent the five bytes of the encoded address and read an
    ACK, and nothing else. *)
Theorem go_frame (start_address : Z) (h h' : history) :
  go dev start_address h = (Ok tt, h') ->
  0 <= start_address < 2 ^ 32 /\
  exists encoded,
    _encode_address_with_checksum start_address = Ok encoded /\
    h' = h ++ [EvCall (CGo start_address); EvWrite [x21]; EvWrite [xde]; EvRead 1 [x79];
               EvWrite encoded; EvRead 1 [x79]; EvReturn (CGo start_address) VNone].
Proof.
  intros E. apply method_ok in E. destruct E as (hb & E & ->).
  change (command_and_address dev CMD_GO start_address (h ++ [EvCall (CGo start_address)])
          = (Ok tt, hb)) in E.
  apply command_and_address_ok in E. destruct E as (_ & Ha & encoded & He & ->).
  split; [exact Ha|]. exists encoded. split; [exact He|]. tidy. reflexivity.
Qed.

(** X15.  An address that does not fit 32 bits is only detected after the GO
    command has been sent and acknowledged: [go] then raises the packing error
    and sends no address. *)
Theorem go_address_out_of_range (start_address : Z) (h h1 : history) :
  ~ (0 <= start_address < 2 ^ 32) ->
  generic_execute_and_confirm dev CMD_GO (h ++ [EvCall (CGo start_address)]) = (Ok tt, h1) ->
  go dev start_address h = (Raise StructError, h1 ++ [EvRaise (CGo start_address) StructError]).
Proof.
  intros Ha E. unfold go, method. unfold bind at 1. rewrite E.
  unfold bind at 1, lift at 1.
  assert (_encode_address_with_checksum start_address = Raise StructError) as ->.
  { unfold _encode_address_with_checksum, struct_pack_I_be.
    destruct ((0 <=? start_address) && (start_address <? 2 ^ 32)) eqn:Er; [|reflexivity].
    apply andb_true_iff in Er. destruct Er as [E1 E2].
    apply Z.leb_le in E1. apply Z.ltb_lt in E2. lia. }
  reflexivity.
Qed.

(** X16.  When [read_memory] returns, the length asked for is at least 1, the
    bytes returned are exactly the [length] bytes delivered by the last read,
    and the call has sent 0x11 0xEE, the encoded address, and the byte
    min(length,256)-1 with its complement, each step acknowledged. *)
Theorem read_memory_returns_delivered (start_address length : Z) (h h' : history)
    (out : bytes) :
  read_memory dev start_address length h = (Ok out, h') ->
  1 <= length /\ len out = length /\ 0 <= start_address < 2 ^ 32 /\
  exists encoded,
    _encode_address_with_checksum start_address = Ok encoded /\
    h' = h ++ [EvCall (CReadMemory start_address length);
               EvWrite [x11]; EvWrite [xee]; EvRead 1 [x79];
               EvWrite encoded; EvRead 1 [x79];
               EvWrite [byte_of_Z (Z.min length 256 - 1)];
               EvWrite [byte_of_Z (255 - (Z.min length 256 - 1))]; EvRead 1 [x79];
               EvRead length out;
               EvReturn (CReadMemory start_address length) (VBytes out)].
Proof.
  intros E. apply method_ok in E. destruct E as (hb & E & ->).
  ok_bind E. destruct r. apply generic_execute_and_confirm_ok in Es. destruct Es as [_ ->].
  unfold bind at 1, lift at 1 in E.
  destruct (_encode_address_with_checksum start_address) as [encoded|e] eqn:Ee;
    [|discriminate].
  unfold bind at 1, _write, io_write, emit in E.
  ok_bind E. destruct r. apply wait_for_ack_ok in Es. destruct Es as [_ ->].
  cbv zeta in E.
  ok_bind E. destruct r. apply write_bchr_ok in Es. destruct Es as [Hn ->].
  ok_bind E. destruct r. apply write_bchr_ok in Es. destruct Es as [_ ->].
  ok_bind E. destruct r. apply wait_for_ack_ok in Es. destruct Es as [_ ->].
  ok_bind E. apply read_bytes_ok in Es. destruct Es as (Hl & -> & ->).
  unfold lift in E. rewrite join_bchr_ord in E. injection E as Ho Hh. subst out hb.
  split; [lia|]. split; [exact Hl|]. split; [eapply encode_address_ok; eassumption|].
  exists encoded. split; [reflexivity|]. rewrite lxor_255 by exact Hn.
  tidy. reflexivity.
Qed.

End Frames.

Lemma unprotect_two_acks_witness :
  snd (write_unprotect (bootloader good_board) synchronized) =
    synchronized ++ [EvCall CWriteUnprotect; EvWrite [x73]; EvWrite [x8c];
                     EvRead 1 [x79]; EvRead 1 [x79]; EvReturn CWriteUnprotect VNone] /\
  snd (readout_unprotect (bootloader good_board) synchronized) =
    synchronized ++ [EvCall CReadoutUnprotect; EvWrite [x92]; EvWrite [x6d];
                     EvRead 1 [x79]; EvRead 1 [x79]; EvReturn CReadoutUnprotect VNone].
Proof.
  destruct (unprotect_two_acks (bootloader good_board)) as [Hw Hr].
  split; [apply Hw | apply Hr]; vm_compute; reflexivity.
Defined.

Lemma erase_frames_witness :
  snd (global_erase (bootloader good_board) synchronized) =
    synchronized ++ [EvCall CGlobalErase; EvWrite [x43]; EvWrite [xbc]; EvRead 1 [x79];
                     EvWrite [xff; x00]; EvRead 1 [x79]; EvReturn CGlobalErase VNone] /\
  snd (extended_erase (bootloader extended_board) synchronized) =
    synchronized ++ [EvCall CExtendedErase; EvWrite [x44]; EvWrite [xbb]; EvRead 1 [x79];
                     EvWrite [xff; xff; x00]; EvRead 1 [x79];
                     EvReturn CExtendedErase VNone].
Proof.
  split.
  - apply (proj1 (erase_frames (bootloader good_board))). vm_compute. reflexivity.
  - apply (proj2 (erase_frames (bootloader extended_board))). vm_compute. reflexivity.
Defined.

(** A board without the classic erase command answers it with NACK. *)
Lemma erase_needs_acknowledgement_witness :
  global_erase (bootloader extended_board) synchronized =
    (Raise STM32LoaderNACKException,
     synchronized ++ [EvCall CGlobalErase; EvWrite [x43]; EvWrite [xbc];
                      EvRead 1 [x1f]; EvRaise CGlobalErase STM32LoaderNACKException]).
Proof.
  rewrite (proj1 (erase_needs_acknowledgement (bootloader extended_board) synchronized
                    STM32LoaderNACKException)).
  - vm_compute. reflexivity.
  - vm_compute. reflexivity.
Defined.

Lemma go_frame_witness :
  0 <= DEFAULT_FLASH_ADDRESS < 2 ^ 32 /\
  exists encoded,
    _encode_address_with_checksum DEFAULT_FLASH_ADDRESS = Ok encoded /\
    snd (go (bootloader good_board) DEFAULT_FLASH_ADDRESS synchronized) =
      synchronized ++ [EvCall (CGo DEFAULT_FLASH_ADDRESS); EvWrite [x21]; EvWrite [xde];
                       EvRead 1 [x79]; EvWrite encoded; EvRead 1 [x79];
                       EvReturn (CGo DEFAULT_FLASH_ADDRESS) VNone].
Proof.
  apply (go_frame (bootloader good_board) DEFAULT_FLASH_ADDRESS synchronized).
  vm_compute. reflexivity.
Defined.

Lemma go_address_out_of_range_witness :
  go (bootloader good_board) (2 ^ 32) synchronized =
    (Raise StructError,
     synchronized ++ [EvCall (CGo (2 ^ 32)); EvWrite [x21]; EvWrite [xde]; EvRead 1 [x79];
                      EvRaise (CGo (2 ^ 32)) StructError]).
Proof.
  rewrite (go_address_out_of_range (bootloader good_board) (2 ^ 32) synchronized
             (synchronized ++ [EvCall (CGo (2 ^ 32)); EvWrite [x21]; EvWrite [xde];
                               EvRead 1 [x79]])).
  - rewrite <- app_assoc. reflexivity.
  - lia.
  - vm_compute. reflexivity.
Defined.

Lemma read_memory_returns_delivered_witness :
  1 <= 8 /\ len (repeat x00 8) = 8 /\ 0 <= DEFAULT_FLASH_ADDRESS < 2 ^ 32 /\
  exists encoded,
    _encode_address_with_checksum DEFAULT_FLASH_ADDRESS = Ok encoded /\
    snd (read_memory (bootloader good_board) DEFAULT_FLASH_ADDRESS 8 synchronized) =
      synchronized ++ [EvCall (CReadMemory DEFAULT_FLASH_ADDRESS 8);
                       EvWrite [x11]; EvWrite [xee]; EvRead 1 [x79];
                       EvWrite encoded; EvRead 1 [x79];
                       EvWrite [byte_of_Z (Z.min 8 256 - 1)];
                       EvWrite [byte_of_Z (255 - (Z.min 8 256 - 1))]; EvRead 1 [x79];
                       EvRead 8 (repeat x00 8);
                       EvReturn (CReadMemory DEFAULT_FLASH_ADDRESS 8)
                                (VBytes (repeat x00 8))].
Proof.
  apply (read_memory_returns_delivered (bootloader good_board) DEFAULT_FLASH_ADDRESS 8
           synchronized).
  vm_compute. reflexivity.
Defined.


(** ** Block transfers: what is read and what is written *)

Lemma firstn_skipn_add {A} (l : list A) (o n : nat) :
  firstn o l ++ firstn n (skipn o l) = firstn (o + n) l.
Proof.
  revert l. induction o as [|o IH]; intros l; [reflexivity|].
  destruct l as [|x l]; [simpl; rewrite firstn_nil; reflexivity|].
  simpl. rewrite IH. reflexivity.
Qed.

Lemma firstn_slice (data : bytes) (lo hi : Z) :
  0 <= lo <= hi ->
  firstn (Z.to_nat lo) data ++ slice data lo hi = firstn (Z.to_nat hi) data.
Proof.
  intros H. unfold slice. rewrite firstn_skipn_add. f_equal. lia.
Qed.

(** The write_memory calls recorded in a history: address and data. *)
Definition chunk_writes (h : history) : list (Z * bytes) :=
  flat_map (fun e => match e with EvCall (CWriteMemory a d) => [(a, d)] | _ => [] end) h.

(** Chunks laid one after the other from [address]. *)
Fixpoint contiguous (address : Z) (cs : list (Z * bytes)) : Prop :=
  match cs with
  | [] => True
  | (a, d) :: cs' => a = address /\ contiguous (address + len d) cs'
  end.

Lemma chunk_writes_app (h1 h2 : history) :
  chunk_writes (h1 ++ h2) = chunk_writes h1 ++ chunk_writes h2.
Proof. apply flat_map_app. Qed.

Lemma chunk_writes_keep (h : history) :
  chunk_writes (keep is_write_chunk_call h) = chunk_writes h.
Proof.
  induction h as [|e h IH]; [reflexivity|].
  change (e :: h) with ([e] ++ h). rewrite chunk_writes_app.
  unfold keep in *. rewrite filter_app, chunk_writes_app, IH. f_equal.
  cbn [filter]. destruct (is_write_chunk_call e) eqn:Es; [reflexivity|].
  destruct e as [| | | | | | |c|c v|c x]; try reflexivity.
  destruct c; try reflexivity. discriminate.
Qed.

Lemma contiguous_app (address : Z) (cs1 cs2 : list (Z * bytes)) :
  contiguous address cs1 ->
  contiguous (address + len (List.concat (map snd cs1))) cs2 ->
  contiguous address (cs1 ++ cs2).
Proof.
  revert address. induction cs1 as [|[a d] cs1 IH]; intros address H1 H2.
  - simpl in *. unfold len in H2. simpl in H2. rewrite Z.add_0_r in H2. exact H2.
  - simpl in *. destruct H1 as [-> H1]. split; [reflexivity|]. apply IH; [exact H1|].
    unfold len in *. rewrite length_app in H2.
    replace (address + Z.of_nat (List.length d)
             + Z.of_nat (List.length (List.concat (map snd cs1))))
      with (address + Z.of_nat (List.length d + List.length (List.concat (map snd cs1)))) by lia.
    exact H2.
Qed.

(** The callbacks of the block transfers used below: the recorder, or none. *)
Definition fraction_callback (observe : bool) : option (Q -> M unit) :=
  if observe then Some record_fraction else None.

Definition fraction_reporter (observe : bool) : Q -> M unit :=
  match fraction_callback observe with
  | Some f => f
  | None => fun _ => ret tt
  end.

Section BlockData.

Variable dev : device.

Lemma write_memory_ok_length a d h h' :
  write_memory dev a d h = (Ok tt, h') -> 0 < len d <= 256 /\ len d mod 4 = 0.
Proof.
  intros E. apply method_ok in E. destruct E as (hb & E & _).
  destruct ((len d >? 256) || (len d =? 0) || negb (len d mod 4 =? 0)) eqn:Ev;
    [discriminate|].
  apply orb_false_iff in Ev. destruct Ev as [Ev E4].
  apply orb_false_iff in Ev. destruct Ev as [E256 E0].
  apply negb_false_iff, Z.eqb_eq in E4. apply Z.eqb_neq in E0.
  rewrite Z.gtb_ltb in E256. apply Z.ltb_ge in E256.
  assert (0 <= len d) by (unfold len; lia). lia.
Qed.

Lemma read_memory_ok_length a n h out h' :
  read_memory dev a n h = (Ok out, h') -> 1 <= n /\ len out = n.
Proof.
  intros E. apply method_ok in E. destruct E as (hb & E & ->).
  ok_bind E. destruct r. clear Es.
  unfold bind at 1, lift at 1 in E.
  destruct (_encode_address_with_checksum a) as [encoded|e]; [|discriminate].
  unfold bind at 1, _write, io_write, emit in E.
  ok_bind E. destruct r. clear Es. cbv zeta in E.
  ok_bind E. destruct r. apply write_bchr_ok in Es. destruct Es as [Hn _].
  ok_bind E. destruct r. clear Es. ok_bind E. destruct r. clear Es.
  ok_bind E. apply read_bytes_ok in Es. destruct Es as (Hl & -> & _).
  unfold lift in E. rewrite join_bchr_ord in E. injection E as Ho Hh. subst out.
  split; [lia | exact Hl].
Qed.

Lemma chunk_writes_write_memory a d h r h' :
  write_memory dev a d h = (r, h') -> chunk_writes h' = chunk_writes h ++ [(a, d)].
Proof.
  intros E. apply (keep_write_memory dev is_write_chunk_call milestone_wire_chunk) in E.
  rewrite <- (chunk_writes_keep h'), E. unfold keep at 2. cbn [filter is_write_chunk_call].
  replace (is_write_chunk_call (outcome (CWriteMemory a d) to_none r)) with false
    by (destruct r; reflexivity).
  fold (keep is_write_chunk_call h). rewrite chunk_writes_app, chunk_writes_keep.
  reflexivity.
Qed.

(** A computation that makes no call of [write_memory]. *)
Lemma chunk_writes_quiet {A} (m : M A) h r h' :
  quiet is_write_chunk_call m -> m h = (r, h') -> chunk_writes h' = chunk_writes h.
Proof.
  intros Hq E. rewrite <- (chunk_writes_keep h'), <- (chunk_writes_keep h).
  f_equal. eapply Hq. eassumption.
Qed.

(** The invariant of the loop of [write_memory_blocks]: what has been handed
    to [write_memory] so far is the data up to the current offset. *)
Lemma write_loop_chunks a data cb (n : nat) :
  (forall q, quiet is_write_chunk_call (cb q)) ->
  forall length offset h r h',
  (Z.to_nat length <= n)%nat ->
  0 <= offset -> 0 <= length -> offset + length = len data ->
  write_memory_blocks_loop dev a data cb length offset h = (r, h') ->
  exists cs offset',
    chunk_writes h' = chunk_writes h ++ cs /\
    contiguous (a + offset) cs /\
    offset <= offset' <= len data /\
    len (List.concat (map snd cs)) = offset' - offset /\
    firstn (Z.to_nat offset) data ++ List.concat (map snd cs) = firstn (Z.to_nat offset') data /\
    Forall (fun c => 0 < len (snd c) <= 256) cs /\
    (forall st, r = Ok st -> st = (len data - offset', offset') /\ len data - offset' <= 256 /\
                             (offset' = offset \/ 0 < len data - offset')).
Proof.
  intros Hcb.
  induction n as [|n IH]; intros length offset h r h' Hn Hoff Hpos Hlen E.
  all: destruct (Z_gt_dec length WRITE_BLOCK_SIZE) as [Hgt|Hle];
    unfold WRITE_BLOCK_SIZE in *.
  1: exfalso; lia.
  1, 3: rewrite write_loop_done in E by (unfold WRITE_BLOCK_SIZE; lia);
    unfold ret in E; injection E as Hr Hh; subst r h';
    exists [], offset; cbn [List.concat map contiguous]; rewrite !app_nil_r;
    split; [reflexivity|]; split; [exact I|]; split; [lia|];
    split; [unfold len; simpl; lia|]; split; [reflexivity|]; split; [constructor|];
    intros st Hst; injection Hst as <-;
    split; [f_equal; lia|]; split; [lia | left; reflexivity].
  rewrite write_loop_more in E by (unfold WRITE_BLOCK_SIZE; lia).
  unfold WRITE_BLOCK_SIZE in E. unfold bind at 1 in E.
  assert (len (slice data offset (offset + 256)) = 256) as Hsl
    by (rewrite len_slice by lia; lia).
  assert (forall h1,
            chunk_writes h1 = chunk_writes h ++ [(a + offset, slice data offset (offset + 256))] ->
            exists cs offset',
              chunk_writes h1 = chunk_writes h ++ cs /\
              contiguous (a + offset) cs /\
              offset <= offset' <= len data /\
              len (List.concat (map snd cs)) = offset' - offset /\
              firstn (Z.to_nat offset) data ++ List.concat (map snd cs)
                = firstn (Z.to_nat offset') data /\
              Forall (fun c => 0 < len (snd c) <= 256) cs) as Hstop.
  { intros h1 K1.
    exists [(a + offset, slice data offset (offset + 256))], (offset + 256).
    split; [exact K1|]. split; [cbn [contiguous]; auto|]. split; [lia|].
    split; [cbn [map snd List.concat]; rewrite app_nil_r; lia|].
    split; [cbn [map snd List.concat]; rewrite app_nil_r; apply firstn_slice; lia|].
    repeat constructor; cbn [snd]; lia. }
  destruct (write_memory dev (a + offset) (slice data offset (offset + 256)) h)
    as [[[]|e] h1] eqn:E1; apply chunk_writes_write_memory in E1.
  - unfold bind at 1 in E.
    destruct (cb (fdiv (offset + 256) (len data)) h1) as [[[]|e2] h2] eqn:E2;
      apply (chunk_writes_quiet _ _ _ _ (Hcb _)) in E2.
    + destruct (IH (length - 256) (offset + 256) h2 r h')
        as (cs & offset' & K & Hc & Ho & Hl & Hf & Hb & Hs);
        [lia | lia | lia | lia | exact E |].
      exists ((a + offset, slice data offset (offset + 256)) :: cs), offset'.
      split; [rewrite K, E2, E1, <- app_assoc; reflexivity|].
      split; [cbn [contiguous]; split; [reflexivity|]; rewrite Hsl;
              replace (a + offset + 256) with (a + (offset + 256)) by lia; exact Hc|].
      split; [lia|].
      split; [cbn [map snd List.concat]; unfold len in *; rewrite length_app; lia|].
      split; [cbn [map snd List.concat]; rewrite app_assoc, firstn_slice by lia; exact Hf|].
      split; [constructor; [cbn [snd]; lia | exact Hb]|].
      intros st Hst. destruct (Hs st Hst) as (-> & H1 & H2).
      split; [reflexivity|]. split; [lia|]. right. lia.
    + inversion E; subst. rewrite <- E2 in E1.
      destruct (Hstop _ E1) as (cs & offset' & H). exists cs, offset'.
      repeat (split; [apply H|]). intros st Hst. discriminate.
  - inversion E; subst.
    destruct (Hstop _ E1) as (cs & offset' & H). exists cs, offset'.
    repeat (split; [apply H|]). intros st Hst. discriminate.
Qed.

(** The chunks of one call of [write_memory_blocks], for a callback that does
    not write to the device itself. *)
Lemma write_memory_blocks_run (start_address : Z) (data : bytes) (cb : Q -> M unit)
    (h : history) (r : result unit) (h' : history) :
  (forall q, quiet is_write_chunk_call (cb q)) ->
  write_memory_blocks dev start_address data (Some cb) h = (r, h') ->
  exists cs,
    chunk_writes h' = chunk_writes h ++ cs /\
    contiguous start_address cs /\
    Forall (fun c => 0 < len (snd c) <= 256) cs /\
    (exists k, List.concat (map snd cs) = firstn k data) /\
    (r = Ok tt -> List.concat (map snd cs) = data).
Proof.
  intros Hcb E. unfold write_memory_blocks, method in E. cbv zeta in E.
  match type of E with
  | context [bind ?m ?f ?h0] => destruct (bind m f h0) as [rb hb] eqn:Eb
  end.
  assert (chunk_writes h' = chunk_writes hb /\ r = rb) as [Kh ->].
  { destruct rb as [[]|e]; inversion E; subst; rewrite chunk_writes_app;
      split; try apply app_nil_r; reflexivity. }
  rewrite Kh. clear E Kh h'.
  unfold bind at 1 in Eb.
  destruct (write_memory_blocks_loop dev start_address data cb
              (len data) 0 (h ++ [EvCall (CWriteMemoryBlocks start_address data)]))
    as [rl h1] eqn:El.
  destruct (write_loop_chunks start_address data cb _ Hcb _ _ _ _ _
              (Nat.le_refl _) (Z.le_refl 0) (Nat2Z.is_nonneg _) (Z.add_0_l _) El)
    as (cs & offset' & K & Hc & Ho & Hl & Hf & Hb & Hs).
  rewrite chunk_writes_app in K. cbn [chunk_writes flat_map] in K.
  rewrite app_nil_r in K. rewrite Z.add_0_r in Hc. cbn [Z.to_nat firstn app] in Hf.
  destruct rl as [st|e].
  - destruct (Hs st eq_refl) as (-> & Hle & Hor). cbv iota beta in Eb.
    destruct (len data - offset' >? 0) eqn:Eg.
    + rewrite Z.gtb_ltb in Eg. apply Z.ltb_lt in Eg.
      unfold bind at 1 in Eb.
      match type of Eb with
      | context [write_memory dev ?x ?d h1] =>
          destruct (write_memory dev x d h1) as [rw h2] eqn:Ew
      end.
      pose proof (chunk_writes_write_memory _ _ _ _ _ Ew) as Kw.
      assert (chunk_writes hb = chunk_writes h2) as Kb.
      { destruct rw as [[]|e].
        - apply (chunk_writes_quiet _ _ _ _ (Hcb _)) in Eb. exact Eb.
        - inversion Eb; subst. reflexivity. }
      exists (cs ++ [(start_address + offset',
                      slice data offset' (offset' + (len data - offset')))]).
      assert (len (slice data offset' (offset' + (len data - offset')))
              = len data - offset') as Hsl by (rewrite len_slice by lia; lia).
      split; [rewrite Kb, Kw, K, <- app_assoc; reflexivity|].
      split; [apply contiguous_app; [exact Hc|]; cbn [contiguous]; rewrite Hl;
              split; [f_equal; lia | exact I]|].
      split; [apply Forall_app; split; [exact Hb|]; repeat constructor; cbn [snd]; lia|].
      assert (List.concat (map snd (cs ++ [(start_address + offset',
                slice data offset' (offset' + (len data - offset')))])) = data) as Hall.
      { rewrite map_app, concat_app. cbn [map snd List.concat]. rewrite app_nil_r, Hf.
        rewrite firstn_slice by lia.
        replace (offset' + (len data - offset')) with (len data) by lia.
        unfold len. rewrite Nat2Z.id. apply firstn_all. }
      split; [exists (List.length data); rewrite Hall, firstn_all; reflexivity|].
      intros _. exact Hall.
    + rewrite Z.gtb_ltb in Eg. apply Z.ltb_ge in Eg.
      unfold bind at 1, ret at 1 in Eb.
      apply (chunk_writes_quiet _ _ _ _ (Hcb _)) in Eb.
      exists cs. split; [rewrite Eb, K; reflexivity|]. split; [exact Hc|].
      split; [exact Hb|].
      assert (List.concat (map snd cs) = data) as Hall.
      { rewrite Hf. replace offset' with (len data) by lia.
        unfold len. rewrite Nat2Z.id. apply firstn_all. }
      split; [exists (List.length data); rewrite Hall, firstn_all; reflexivity|].
      intros _. exact Hall.
  - inversion Eb; subst. exists cs. split; [exact K|]. split; [exact Hc|].
    split; [exact Hb|]. split; [exists (Z.to_nat offset'); exact Hf | discriminate].
Qed.

Lemma quiet_fraction_reporter observe q :
  quiet is_write_chunk_call (fraction_reporter observe q).
Proof.
  unfold fraction_reporter, fraction_callback. destruct observe.
  - apply quiet_emit. reflexivity.
  - apply quiet_ret.
Qed.

(** X17.  Whatever the outcome, the chunks handed to [write_memory] by
    [write_memory_blocks] are at most 256 bytes long, lie one after the other
    from the start address, and put together are the beginning of the data;
    when the call returns, they are the whole data. *)
Theorem write_memory_blocks_chunks (start_address : Z) (data : bytes) (observe : bool)
    (h : history) :
  let run := write_memory_blocks dev start_address data (fraction_callback observe) h in
  exists cs,
    chunk_writes (snd run) = chunk_writes h ++ cs /\
    contiguous start_address cs /\
    Forall (fun c => 0 < len (snd c) <= 256) cs /\
    (exists k, List.concat (map snd cs) = firstn k data) /\
    (fst run = Ok tt -> List.concat (map snd cs) = data).
Proof.
  intros run. subst run.
  destruct (write_memory_blocks dev start_address data (fraction_callback observe) h)
    as [r h'] eqn:E.
  cbn [fst snd]. apply (write_memory_blocks_run _ _ (fraction_reporter observe)).
  - apply quiet_fraction_reporter.
  - rewrite <- E. destruct observe; reflexivity.
Qed.

(** The state of the loop of [write_memory_blocks] when it is left normally:
    a number of full blocks has been taken off. *)
Lemma write_loop_state a data cb (n : nat) :
  forall length offset h st h',
  (Z.to_nat length <= n)%nat ->
  write_memory_blocks_loop dev a data cb length offset h = (Ok st, h') ->
  exists m : nat,
    st = (length - 256 * Z.of_nat m, offset + 256 * Z.of_nat m) /\
    length - 256 * Z.of_nat m <= 256 /\
    (m = 0%nat \/ 0 < length - 256 * Z.of_nat m).
Proof.
  induction n as [|n IH]; intros length offset h st h' Hn E.
  all: destruct (Z_gt_dec length WRITE_BLOCK_SIZE) as [Hgt|Hle];
    unfold WRITE_BLOCK_SIZE in *.
  1: exfalso; lia.
  1, 3: rewrite write_loop_done in E by (unfold WRITE_BLOCK_SIZE; lia);
    unfold ret in E; injection E as <- <-; exists 0%nat;
    split; [f_equal; lia|]; split; [lia | left; reflexivity].
  rewrite write_loop_more in E by (unfold WRITE_BLOCK_SIZE; lia).
  unfold WRITE_BLOCK_SIZE in E. ok_bind E. clear Es. ok_bind E. clear Es.
  assert (Z.to_nat (length - 256) <= n)%nat as Hn' by lia.
  destruct (IH _ _ _ _ _ Hn' E) as (m & -> & Hm & Hor).
  exists (S m). split; [f_equal; lia|]. split; [lia | right; lia].
Qed.

(** X18.  [write_memory_blocks] can only return normally on data whose length is a
    multiple of 4: the full blocks are 256 bytes long and the last chunk is
    refused by [write_memory] otherwise. *)
Theorem write_memory_blocks_needs_multiple_of_4 (start_address : Z) (data : bytes)
    (progress_report_callback : option (Q -> M unit)) (h h' : history) :
  write_memory_blocks dev start_address data progress_report_callback h = (Ok tt, h') ->
  len data mod 4 = 0.
Proof.
  intros E. apply method_ok in E. destruct E as (hb & E & _). cbv zeta in E.
  remember (match progress_report_callback with
            | Some f => f
            | None => fun _ => ret tt
            end) as cb eqn:Hcb. clear Hcb.
  ok_bind E. destruct (write_loop_state _ _ _ _ _ _ _ _ _ (Nat.le_refl _) Es)
    as (m & -> & Hle & Hor).
  cbv iota beta in E. clear Es.
  assert (0 <= len data) as Hlen by (unfold len; lia).
  destruct (len data - 256 * Z.of_nat m >? 0) eqn:Eg.
  - rewrite Z.gtb_ltb in Eg. apply Z.ltb_lt in Eg.
    ok_bind E. destruct r. apply write_memory_ok_length in Es. destruct Es as [_ H4].
    rewrite len_slice in H4 by lia.
    replace (0 + 256 * Z.of_nat m + (len data - 256 * Z.of_nat m) - (0 + 256 * Z.of_nat m))
      with (len data - 256 * Z.of_nat m) in H4 by lia.
    replace (len data) with ((len data - 256 * Z.of_nat m) + 64 * Z.of_nat m * 4) by lia.
    rewrite Z.mod_add by lia. exact H4.
  - rewrite Z.gtb_ltb in Eg. apply Z.ltb_ge in Eg.
    destruct Hor as [->|Hm]; [|lia].
    replace (len data) with 0 by lia. reflexivity.
Qed.

(** The loop of [read_memory_blocks] accumulates 256 bytes per round. *)
Lemma read_loop_output a original cb (n : nat) :
  forall length offset output h st h',
  (Z.to_nat length <= n)%nat ->
  read_memory_blocks_loop dev a original cb length offset output h = (Ok st, h') ->
  exists (m : nat) out,
    st = (length - 256 * Z.of_nat m, offset + 256 * Z.of_nat m, out) /\
    len out = len output + 256 * Z.of_nat m /\
    length - 256 * Z.of_nat m <= 256 /\
    (m = 0%nat \/ 0 < length - 256 * Z.of_nat m).
Proof.
  induction n as [|n IH]; intros length offset output h st h' Hn E.
  all: destruct (Z_gt_dec length READ_BLOCK_SIZE) as [Hgt|Hle]; unfold READ_BLOCK_SIZE in *.
  1: exfalso; lia.
  1, 3: rewrite read_loop_done in E by (unfold READ_BLOCK_SIZE; lia);
    unfold ret in E; injection E as <- <-; exists 0%nat, output;
    split; [f_equal; f_equal; lia|]; split; [lia|]; split; [lia | left; reflexivity].
  rewrite read_loop_more in E by (unfold READ_BLOCK_SIZE; lia).
  unfold READ_BLOCK_SIZE in E. unfold bind at 1 in E.
  destruct (read_memory dev (a + offset) 256 h) as [[chunk|e] h1] eqn:E1; [|discriminate].
  apply read_memory_ok_length in E1. destruct E1 as [_ Hc].
  cbv zeta in E. ok_bind E. clear Es.
  assert (Z.to_nat (length - 256) <= n)%nat as Hn' by lia.
  destruct (IH (length - 256) (offset + 256) (output ++ chunk) _ st h' Hn' E)
    as (m & out & -> & Hl & Hm & Hor).
  exists (S m), out. split; [f_equal; f_equal; lia|].
  split; [unfold len in *; rewrite length_app in Hl; lia|]. split; [lia | right; lia].
Qed.

(** X19.  When [read_memory_blocks] returns, it returns exactly the number of
    bytes asked for, whatever the callback. *)
Theorem read_memory_blocks_length (start_address length : Z)
    (progress_report_callback : option (Q -> M unit)) (h h' : history) (out : bytes) :
  0 <= length ->
  read_memory_blocks dev start_address length progress_report_callback h = (Ok out, h') ->
  len out = length.
Proof.
  intros Hpos E. apply method_ok in E. destruct E as (hb & E & _). cbv zeta in E.
  remember (match progress_report_callback with
            | Some f => f
            | None => fun _ => ret tt
            end) as cb eqn:Hcb. clear Hcb.
  ok_bind E. destruct (read_loop_output _ _ _ _ _ _ _ _ _ _ (Nat.le_refl _) Es)
    as (m & acc & -> & Hl & Hm & Hor).
  cbv iota beta in E. clear Es. change (len []) with 0 in Hl.
  destruct (length - 256 * Z.of_nat m >? 0) eqn:Eg.
  - ok_bind E. ok_bind Es. apply read_memory_ok_length in Es0. destruct Es0 as [_ Hc].
    unfold ret in Es. injection Es as <- _.
    ok_bind E. unfold ret in E. injection E as <- _.
    unfold len in *. rewrite length_app. lia.
  - rewrite Z.gtb_ltb in Eg. apply Z.ltb_ge in Eg.
    ok_bind E. unfold ret in Es. injection Es as <- _.
    ok_bind E. unfold ret in E. injection E as <- _.
    destruct Hor as [->|Hor]; lia.
Qed.

(** X20.  With nothing to read (a length of zero or less) [read_memory_blocks]
    exchanges nothing with the device: for any callback the call is one
    invocation of the callback with 1.0 followed by the return of the empty
    byte string. *)
Theorem read_memory_blocks_nothing_to_read (start_address length : Z)
    (cb : Q -> M unit) (h : history) :
  length <= 0 ->
  read_memory_blocks dev start_address length (Some cb) h =
    method (CReadMemoryBlocks start_address length) VBytes (cb 1%Q ;; ret []) h.
Proof.
  intros Hl. unfold read_memory_blocks, method. cbv zeta.
  rewrite read_loop_done by (unfold READ_BLOCK_SIZE; lia).
  unfold bind at 1, ret at 1.
  replace (length >? 0) with false by (symmetry; rewrite Z.gtb_ltb; apply Z.ltb_ge; lia).
  unfold bind at 1, ret at 1. reflexivity.
Qed.

End BlockData.

(** Runs of the block transfers on a healthy board. *)
Lemma write_memory_blocks_chunks_witness :
  let run := write_memory_blocks (bootloader good_board) DEFAULT_FLASH_ADDRESS
               (repeat x42 260) (fraction_callback true) synchronized in
  exists cs,
    chunk_writes (snd run) = chunk_writes synchronized ++ cs /\
    contiguous DEFAULT_FLASH_ADDRESS cs /\
    Forall (fun c => 0 < len (snd c) <= 256) cs /\
    (exists k, List.concat (map snd cs) = firstn k (repeat x42 260)) /\
    (fst run = Ok tt -> List.concat (map snd cs) = repeat x42 260).
Proof.
  exact (write_memory_blocks_chunks (bootloader good_board) DEFAULT_FLASH_ADDRESS
           (repeat x42 260) true synchronized).
Defined.

Lemma write_memory_blocks_needs_multiple_of_4_witness :
  fst (write_memory_blocks (bootloader good_board) DEFAULT_FLASH_ADDRESS
         (repeat x42 260) None synchronized) = Ok tt /\
  len (repeat x42 260) mod 4 = 0.
Proof.
  split; [vm_compute; reflexivity|].
  apply (write_memory_blocks_needs_multiple_of_4 (bootloader good_board)
           DEFAULT_FLASH_ADDRESS (repeat x42 260) None synchronized
           (snd (write_memory_blocks (bootloader good_board) DEFAULT_FLASH_ADDRESS
                   (repeat x42 260) None synchronized))).
  vm_compute. reflexivity.
Defined.

Lemma read_memory_blocks_length_witness :
  0 <= 300 /\
  len (repeat x00 300) = 300.
Proof.
  split; [lia|].
  apply (read_memory_blocks_length (bootloader good_board) DEFAULT_FLASH_ADDRESS 300
           (Some record_fraction) synchronized
           (snd (read_memory_blocks (bootloader good_board) DEFAULT_FLASH_ADDRESS 300
                   (Some record_fraction) synchronized))).
  - lia.
  - vm_compute. reflexivity.
Defined.

Lemma read_memory_blocks_nothing_to_read_witness :
  read_memory_blocks (bootloader good_board) DEFAULT_FLASH_ADDRESS (-4)
    (Some record_fraction) synchronized =
  (Ok [], synchronized ++ [EvCall (CReadMemoryBlocks DEFAULT_FLASH_ADDRESS (-4));
                           EvProgress None (Some 1%Q);
                           EvReturn (CReadMemoryBlocks DEFAULT_FLASH_ADDRESS (-4))
                                    (VBytes [])]).
Proof.
  rewrite (read_memory_blocks_nothing_to_read (bootloader good_board)
             DEFAULT_FLASH_ADDRESS (-4) record_fraction synchronized).
  - reflexivity.
  - lia.
Defined.

(** ** The session as a whole *)

Lemma last_cons {A} (l : list A) (a d : A) : last (a :: l) d = last l a.
Proof.
  revert a d. induction l as [|b l IH]; intros a d; [reflexivity|].
  change (last (a :: b :: l) d) with (last (b :: l) d).
  rewrite (IH b d), (IH b a). reflexivity.
Qed.

(** A plan that ends normally was carried out in full. *)
Lemma follows_ok (k : pyval -> list event -> result unit -> Prop) :
  forall plan first T,
  follows plan first T (Ok tt) k ->
  exists done post,
    map fst done = plan /\
    T = completed done ++ post /\
    k (last (map snd done) first) post (Ok tt).
Proof.
  induction plan as [|c plan IH]; intros first T F.
  - exists [], T. repeat split. exact F.
  - cbn [follows] in F. destruct F as [(e & _ & Hr)|(v & T' & -> & F)]; [discriminate|].
    destruct (IH _ _ F) as (done & post & Hd & -> & Hk).
    exists ((c, v) :: done), post. split; [simpl; congruence|].
    split; [reflexivity|]. cbn [map snd]. rewrite last_cons. exact Hk.
Qed.

(** Where a session-level call of a run comes from. *)
Lemma load_call_origin (dev : device) (port : string) (binary_image : bytes)
    (load_address : option Z) (observe ru wu g : bool) (args : loader_arguments)
    (r : result unit) (h : history) (c : call) :
  load dev port binary_image load_address (callback_of observe) ru wu g args [] = (r, h) ->
  In (EvCall c) h ->
  is_milestone (EvCall c) = true ->
  c = CGet \/ (exists skip, c = CSynchronize skip) \/
  (exists info, In c (session_plan ru wu (effective_address load_address)
                        (pad_image binary_image) info)) \/
  (c = CGo (effective_address load_address) /\ g = true).
Proof.
  intros E Hin Hm. apply in_milestones in Hin; [|exact Hm].
  apply load_session in E.
  destruct E as (failures & early & _ & _ & _ & [(e & K & ->)|(info & T & K & F)]);
    rewrite K in Hin; apply in_app_or in Hin; destruct Hin as [Hin|Hin];
    try (apply opening_calls in Hin; destruct Hin as (c' & Hc & Hor);
         inversion Hc; subst c'; tauto).
  - destruct Hin as [H|[H|[]]]; [inversion H; auto | discriminate].
  - apply in_app_or in Hin. destruct Hin as [Hin|Hin].
    + destruct Hin as [H|[H|[]]]; [inversion H; auto | discriminate].
    + destruct (follows_calls _
                  (fun c => c = CGo (effective_address load_address) /\ g = true)
                  (fun v' T' r' Hc c0 Hi =>
                     let H := closing_calls _ _ _ _ _ _ Hc c0 Hi in
                     conj (proj1 H) (proj2 (proj2 H)))
                  _ _ _ _ _ F Hin) as [H|H]; [|auto].
      right. right. left. exists info. exact H.
Qed.

(** X21.  The optional steps are taken on request only: a run of [load] calls
    [readout_unprotect], [write_unprotect] and [go] only when the
    corresponding argument is set, and [go] only at the load address. *)
Theorem load_optional_steps (dev : device) (port : string) (binary_image : bytes)
    (load_address : option Z) (observe opt_readout_unprotect opt_write_unprotect opt_go : bool)
    (args : loader_arguments) :
  let run := load dev port binary_image load_address (callback_of observe)
               opt_readout_unprotect opt_write_unprotect opt_go args [] in
  (In (EvCall CReadoutUnprotect) (snd run) -> opt_readout_unprotect = true) /\
  (In (EvCall CWriteUnprotect) (snd run) -> opt_write_unprotect = true) /\
  (forall a, In (EvCall (CGo a)) (snd run) ->
             opt_go = true /\ a = effective_address load_address).
Proof.
  intros run. subst run.
  destruct (load dev port binary_image load_address (callback_of observe)
              opt_readout_unprotect opt_write_unprotect opt_go args []) as [r h] eqn:E.
  cbn [snd].
  assert (forall c, In (EvCall c) h -> is_milestone (EvCall c) = true ->
            (forall skip, c <> CSynchronize skip) -> c <> CGet ->
            (exists info, In c (session_plan opt_readout_unprotect opt_write_unprotect
                                  (effective_address load_address)
                                  (pad_image binary_image) info)) \/
            (c = CGo (effective_address load_address) /\ opt_go = true)) as Horigin.
  { intros c Hin Hm Hs Hg.
    destruct (load_call_origin _ _ _ _ _ _ _ _ _ _ _ c E Hin Hm)
      as [H|[[skip H]|[H|H]]]; [contradiction | exfalso; eapply Hs; eassumption | auto | auto]. }
  split; [|split].
  - intros Hin. destruct (Horigin _ Hin eq_refl) as [[info H]|[H _]];
      [intros ?; discriminate | discriminate | | discriminate].
    unfold session_plan, erase_call in H.
    destruct opt_readout_unprotect; [reflexivity|]. exfalso.
    destruct opt_write_unprotect; destruct (contains CMD_ERASE (commands info));
      cbn [app In] in H; repeat (destruct H as [H|H]; [discriminate|]); destruct H.
  - intros Hin. destruct (Horigin _ Hin eq_refl) as [[info H]|[H _]];
      [intros ?; discriminate | discriminate | | discriminate].
    unfold session_plan, erase_call in H.
    destruct opt_write_unprotect; [reflexivity|]. exfalso.
    destruct opt_readout_unprotect; destruct (contains CMD_ERASE (commands info));
      cbn [app In] in H; repeat (destruct H as [H|H]; [discriminate|]); destruct H.
  - intros a Hin. destruct (Horigin _ Hin eq_refl) as [[info H]|[H Hg]];
      [intros ?; discriminate | discriminate | |].
    + exfalso. unfold session_plan, erase_call in H.
      destruct opt_readout_unprotect; destruct opt_write_unprotect;
        destruct (contains CMD_ERASE (commands info));
        cbn [app In] in H; repeat (destruct H as [H|H]; [discriminate|]); destruct H.
    + inversion H. auto.
Qed.

(** X22.  A run of [load] that returns normally went through the whole session:
    after the opening and the general-info [get], every call of the plan
    returned, in order; the read-back returned the padded image; and [go],
    when requested, returned as the last call. *)
Theorem load_success_session (dev : device) (port : string) (binary_image : bytes)
    (load_address : option Z) (observe opt_readout_unprotect opt_write_unprotect opt_go : bool)
    (args : loader_arguments) (h : history) :
  let address := effective_address load_address in
  let image := pad_image binary_image in
  load dev port binary_image load_address (callback_of observe)
       opt_readout_unprotect opt_write_unprotect opt_go args [] = (Ok tt, h) ->
  exists failures early info done,
    map fst done = write_plan opt_readout_unprotect opt_write_unprotect address image info /\
    milestones h =
      opening failures early
      ++ [EvCall CGet; EvReturn CGet (VInfo info)]
      ++ completed done
      ++ [EvCall (CReadMemoryBlocks address (len image));
          EvReturn (CReadMemoryBlocks address (len image)) (VBytes image)]
      ++ (if opt_go then [EvCall (CGo address); EvReturn (CGo address) VNone] else []).
Proof.
  intros address image E. apply load_session in E.
  destruct E as (failures & early & _ & _ & _ & [(e & _ & Hr)|(info & T & K & F)]);
    [discriminate|].
  apply follows_ok in F. destruct F as (done & post & Hd & -> & Hk).
  rewrite session_plan_split in Hd. apply map_fst_snoc in Hd.
  destruct Hd as (done' & w & -> & Hd).
  rewrite map_app in Hk. cbn [map snd] in Hk. rewrite last_last in Hk.
  exists failures, early, info, done'. split; [exact Hd|].
  rewrite K, completed_app. fold address image in Hk |- *.
  destruct Hk as [(_ & _ & Hr)|(-> & Hk)]; [discriminate|].
  repeat rewrite <- app_assoc. do 3 f_equal.
  destruct opt_go; [subst post; reflexivity | destruct Hk as [-> _]; reflexivity].
Qed.

Lemma load_success_session_witness :
  let run := load (bootloader good_board) "COM1" [x42; x42; x42] None (callback_of false)
               false false true default_arguments [] in
  exists failures early info done,
    map fst done = write_plan false false DEFAULT_FLASH_ADDRESS [x42; x42; x42; xff] info /\
    milestones (snd run) =
      opening failures early
      ++ [EvCall CGet; EvReturn CGet (VInfo info)]
      ++ completed done
      ++ [EvCall (CReadMemoryBlocks DEFAULT_FLASH_ADDRESS 4);
          EvReturn (CReadMemoryBlocks DEFAULT_FLASH_ADDRESS 4) (VBytes [x42; x42; x42; xff])]
      ++ [EvCall (CGo DEFAULT_FLASH_ADDRESS); EvReturn (CGo DEFAULT_FLASH_ADDRESS) VNone].
Proof.
  intros run.
  apply (load_success_session (bootloader good_board) "COM1" [x42; x42; x42] None false
           false false true default_arguments (snd run)).
  vm_compute. reflexivity.
Defined.

(** ** What a session adds to the history *)

(** [m] only adds to the history, and none of the events it adds is
    [banned]. *)
Definition adds_only (banned : event -> bool) {A} (m : M A) : Prop :=
  forall h r h', m h = (r, h') ->
  exists t, h' = h ++ t /\ Forall (fun e => banned e = false) t.

(** Opening and closing the port. *)
Definition port_event (e : event) : bool :=
  match e with
  | EvOpen _ _ _ | EvClose => true
  | _ => false
  end.

Section Adds.

Variable dev : device.
Variable banned : event -> bool.
(** The traffic on the line and the records of the spy are not banned. *)
Hypothesis banned_wire :
  forall e, on_wire e = true -> port_event e = false -> banned e = false.
Hypothesis banned_call : forall e c, event_call e = Some c -> banned e = false.

Local Abbreviation adds := (adds_only banned).

Lemma adds_only_ret {A} (a : A) : adds (ret a).
Proof. intros h r h' E. inversion E. exists []. rewrite app_nil_r. auto. Qed.

Lemma adds_only_raise {A} (e : exn) : adds (@raise A e).
Proof. intros h r h' E. inversion E. exists []. rewrite app_nil_r. auto. Qed.

Lemma adds_only_lift {A} (x : result A) : adds (lift x).
Proof. intros h r h' E. inversion E. exists []. rewrite app_nil_r. auto. Qed.

Lemma adds_only_emit (e : event) : banned e = false -> adds (emit e).
Proof. intros He h r h' E. inversion E. exists [e]. auto. Qed.

Lemma adds_only_io_read (n : Z) : adds (io_read dev n).
Proof.
  intros h r h' E. inversion E. eexists [_]. split; [reflexivity|].
  constructor; [|constructor]. apply banned_wire; reflexivity.
Qed.

Lemma adds_only_bind {A B} (m : M A) (f : A -> M B) :
  adds m -> (forall a, adds (f a)) -> adds (bind m f).
Proof.
  intros Hm Hf h r h' E. unfold bind in E.
  destruct (m h) as [[a|e] h1] eqn:E1; destruct (Hm _ _ _ E1) as (t1 & -> & F1).
  - destruct (Hf a _ _ _ E) as (t2 & -> & F2). exists (t1 ++ t2).
    rewrite app_assoc. split; [reflexivity | apply Forall_app; auto].
  - inversion E; subst. eauto.
Qed.

Lemma adds_only_try_except {A} (m : M A) (handler : exn -> M A) :
  adds m -> (forall e, adds (handler e)) -> adds (try_except m handler).
Proof.
  intros Hm Hh h r h' E. unfold try_except in E.
  destruct (m h) as [[a|e] h1] eqn:E1; destruct (Hm _ _ _ E1) as (t1 & -> & F1).
  - inversion E; subst. eauto.
  - destruct (Hh e _ _ _ E) as (t2 & -> & F2). exists (t1 ++ t2).
    rewrite app_assoc. split; [reflexivity | apply Forall_app; auto].
Qed.

Lemma adds_only_method {A} (c : call) (to_val : A -> pyval) (body : M A) :
  adds body -> adds (method c to_val body).
Proof.
  intros Hb h r h' E. unfold method in E.
  destruct (body (h ++ [EvCall c])) as [[a|e] hb] eqn:Eb;
    destruct (Hb _ _ _ Eb) as (t & -> & F); inversion E; subst;
    eexists (EvCall c :: t ++ [_]); repeat rewrite <- app_assoc;
    (split; [reflexivity|]); constructor;
    try (apply (banned_call _ c); reflexivity);
    apply Forall_app; (split; [exact F|]); constructor;
    try (apply (banned_call _ c); reflexivity); constructor.
Qed.

Ltac adds_body :=
  unfold generic_execute_and_confirm, _wait_for_ack, _read_byte, _read_bytes,
    _write_bchr, _write, io_write, io_flushInput, time_sleep;
  cbv zeta;
  repeat first
    [ apply adds_only_ret | apply adds_only_raise | apply adds_only_lift
    | apply adds_only_emit; apply banned_wire; reflexivity | apply adds_only_io_read
    | apply adds_only_bind; [|intros ?]
    | apply adds_only_method
    | match goal with |- adds (if ?b then _ else _) => destruct b end
    | match goal with |- adds (match ?l with [] => _ | _ :: _ => _ end) => destruct l end ].

Lemma adds_only_synchronize self skip : adds (synchronize self skip).
Proof. unfold synchronize. adds_body. Qed.

Lemma adds_only_get : adds (get dev).
Proof. unfold get. adds_body. Qed.

Lemma adds_only_get_version : adds (get_version_and_protection_status dev).
Proof. unfold get_version_and_protection_status. adds_body. Qed.

Lemma adds_only_get_id : adds (get_id dev).
Proof. unfold get_id. adds_body. Qed.

Lemma adds_only_readout_unprotect : adds (readout_unprotect dev).
Proof. unfold readout_unprotect. adds_body. Qed.

Lemma adds_only_write_unprotect : adds (write_unprotect dev).
Proof. unfold write_unprotect. adds_body. Qed.

Lemma adds_only_global_erase : adds (global_erase dev).
Proof. unfold global_erase. adds_body. Qed.

Lemma adds_only_extended_erase : adds (extended_erase dev).
Proof. unfold extended_erase. adds_body. Qed.

Lemma adds_only_go a : adds (go dev a).
Proof. unfold go. adds_body. Qed.

Lemma adds_only_read_memory a n : adds (read_memory dev a n).
Proof. unfold read_memory. adds_body. Qed.

Lemma adds_only_write_memory a d : adds (write_memory dev a d).
Proof. unfold write_memory. adds_body. Qed.

Lemma adds_only_write_loop a d cb (n : nat) :
  (forall q, adds (cb q)) ->
  forall length offset, (Z.to_nat length <= n)%nat ->
  adds (write_memory_blocks_loop dev a d cb length offset).
Proof.
  intros Hcb. induction n as [|n IH]; intros length offset Hn;
    destruct (Z_gt_dec length WRITE_BLOCK_SIZE) as [Hgt|Hle];
    try (rewrite write_loop_done by lia; apply adds_only_ret).
  - unfold WRITE_BLOCK_SIZE in Hgt. lia.
  - rewrite write_loop_more by assumption.
    apply adds_only_bind; [apply adds_only_write_memory | intros _].
    apply adds_only_bind; [apply Hcb | intros _].
    apply IH. unfold WRITE_BLOCK_SIZE in *. lia.
Qed.

Lemma adds_only_read_loop a original cb (n : nat) :
  (forall q, adds (cb q)) ->
  forall length offset output, (Z.to_nat length <= n)%nat ->
  adds (read_memory_blocks_loop dev a original cb length offset output).
Proof.
  intros Hcb. induction n as [|n IH]; intros length offset output Hn;
    destruct (Z_gt_dec length READ_BLOCK_SIZE) as [Hgt|Hle];
    try (rewrite read_loop_done by lia; apply adds_only_ret).
  - unfold READ_BLOCK_SIZE in Hgt. lia.
  - rewrite read_loop_more by assumption.
    apply adds_only_bind; [apply adds_only_read_memory | intros chunk].
    apply adds_only_bind; [apply Hcb | intros _].
    apply IH. unfold READ_BLOCK_SIZE in *. lia.
Qed.

Lemma adds_only_write_memory_blocks a d cb :
  (forall q, adds (cb q)) ->
  adds (write_memory_blocks dev a d (Some cb)).
Proof.
  intros Hcb. apply adds_only_method.
  apply adds_only_bind; [eapply adds_only_write_loop; [exact Hcb | reflexivity]|].
  intros [length offset].
  apply adds_only_bind; [|intros _; apply Hcb].
  destruct (length >? 0); [apply adds_only_write_memory | apply adds_only_ret].
Qed.

Lemma adds_only_read_memory_blocks a n cb :
  (forall q, adds (cb q)) ->
  adds (read_memory_blocks dev a n (Some cb)).
Proof.
  intros Hcb. apply adds_only_method.
  apply adds_only_bind; [eapply adds_only_read_loop; [exact Hcb | reflexivity]|].
  intros [[length offset] output].
  apply adds_only_bind;
    [|intros out; apply adds_only_bind; [apply Hcb | intros _; apply adds_only_ret]].
  destruct (length >? 0); [|apply adds_only_ret].
  apply adds_only_bind; [apply adds_only_read_memory | intros chunk; apply adds_only_ret].
Qed.

Lemma adds_only_resynchronize loader n : adds (resynchronize dev loader n).
Proof.
  induction n as [|n IH]; simpl.
  - apply adds_only_ret.
  - apply adds_only_bind.
    + apply adds_only_try_except.
      * apply adds_only_bind; [apply adds_only_get | intros ?; apply adds_only_ret].
      * intros e. apply adds_only_bind;
          [apply adds_only_synchronize | intros ?; apply adds_only_ret].
    + intros [|]; [apply adds_only_ret | exact IH].
Qed.

End Adds.

(** ** The serial port during a session *)

Lemma port_event_wire (e : event) :
  on_wire e = true -> port_event e = false -> port_event e = false.
Proof. intros _ H. exact H. Qed.

Lemma port_event_call (e : event) (c : call) : event_call e = Some c -> port_event e = false.
Proof. destruct e; intros H; try discriminate; reflexivity. Qed.

Lemma reporter_run observe stage fraction h :
  reporter observe stage fraction h =
    (Ok tt, h ++ (if observe then [EvProgress (Some stage) fraction] else [])).
Proof.
  unfold reporter, callback_of. destruct observe; [reflexivity|].
  unfold ret. rewrite app_nil_r. reflexivity.
Qed.

Lemma adds_only_reporter (banned : event -> bool) observe stage fraction :
  banned (EvProgress (Some stage) fraction) = false ->
  adds_only banned (reporter observe stage fraction).
Proof.
  intros Hb h r h' E. rewrite reporter_run in E. inversion E; subst.
  eexists. split; [reflexivity|]. destruct observe; repeat constructor. exact Hb.
Qed.

(** The port settings used when none are given: [baudrate or 115200],
    [timeout or 1.0]. *)
Definition port_settings (args : loader_arguments) (baudrate : Z) (timeout : Q) : Prop :=
  baudrate = match arg_baudrate args with
             | Some b => if b =? 0 then 115200 else b
             | None => 115200
             end /\
  timeout = match arg_timeout args with
            | Some t => if Qeq_bool t 0 then 1%Q else t
            | None => 1%Q
            end.

(** The session proper of [load], from the first [synchronize] to [go], adds
    no banned event when the callback adds none. *)
Lemma adds_only_session (dev : device) (banned : event -> bool)
    (loader : STM32Loader) (address : Z) (image : bytes) (progress : string -> option Q -> M unit)
    (ru wu g : bool) (body : M unit) :
  (forall e, on_wire e = true -> port_event e = false -> banned e = false) ->
  (forall e c, event_call e = Some c -> banned e = false) ->
  (forall s f, adds_only banned (progress s f)) ->
  body =
    (try_except (synchronize loader false) (fun _ => ret tt) ;;
     resynchronize dev loader 3 ;;
     var_get <- get dev ;;
     get_version_and_protection_status dev ;;
     get_id dev ;;
     progress "Configuring target"%string None ;;
     (if ru then readout_unprotect dev ;; synchronize loader false else ret tt) ;;
     (if wu then write_unprotect dev ;; synchronize loader false else ret tt) ;;
     (if contains CMD_ERASE (commands var_get) then global_erase dev
      else extended_erase dev) ;;
     write_memory_blocks dev address image
       (Some (fun x => progress "Writing image"%string (Some x))) ;;
     readback <- read_memory_blocks dev address (len image)
                   (Some (fun x => progress "Verification"%string (Some x))) ;;
     if bytes_eq_dec readback image then
       if g then go dev address else ret tt
     else raise (STM32LoaderException "Verification failed")) ->
  adds_only banned body.
Proof.
  intros Hw Hc Hp ->.
  apply adds_only_bind;
    [apply adds_only_try_except;
       [apply adds_only_synchronize; assumption | intros ?; apply adds_only_ret] | intros ?].
  apply adds_only_bind; [apply adds_only_resynchronize; assumption | intros ?].
  apply adds_only_bind; [apply adds_only_get; assumption | intros var_get].
  apply adds_only_bind; [apply adds_only_get_version; assumption | intros ?].
  apply adds_only_bind; [apply adds_only_get_id; assumption | intros ?].
  apply adds_only_bind; [apply Hp | intros ?].
  apply adds_only_bind.
  { destruct ru; [|apply adds_only_ret].
    apply adds_only_bind;
      [apply adds_only_readout_unprotect | intros ?; apply adds_only_synchronize];
      assumption. }
  intros ?. apply adds_only_bind.
  { destruct wu; [|apply adds_only_ret].
    apply adds_only_bind;
      [apply adds_only_write_unprotect | intros ?; apply adds_only_synchronize];
      assumption. }
  intros ?. apply adds_only_bind.
  { destruct (contains CMD_ERASE (commands var_get));
      [apply adds_only_global_erase | apply adds_only_extended_erase]; assumption. }
  intros ?. apply adds_only_bind;
    [apply adds_only_write_memory_blocks; try assumption; intros q; apply Hp | intros ?].
  apply adds_only_bind;
    [apply adds_only_read_memory_blocks; try assumption; intros q; apply Hp
    | intros readback].
  destruct (bytes_eq_dec readback image); [|apply adds_only_raise].
  destruct g; [apply adds_only_go; assumption | apply adds_only_ret].
Qed.

(** X23.  [load] opens the serial port once, right after announcing the
    synchronization stage, and closes it once, as the very last thing it
    does, whether the session succeeds or fails; in between the port is
    neither opened nor closed. *)
Theorem load_opens_and_closes_port (dev : device) (port : string) (binary_image : bytes)
    (load_address : option Z) (observe opt_readout_unprotect opt_write_unprotect opt_go : bool)
    (args : loader_arguments) :
  let run := load dev port binary_image load_address (callback_of observe)
               opt_readout_unprotect opt_write_unprotect opt_go args [] in
  exists baudrate timeout session,
    port_settings args baudrate timeout /\
    snd run =
      (if observe then [EvProgress (Some "Synchronization"%string) None] else [])
      ++ [EvOpen port baudrate timeout] ++ session ++ [EvClose] /\
    Forall (fun e => port_event e = false) session.
Proof.
  intros run. subst run.
  destruct (load dev port binary_image load_address (callback_of observe)
              opt_readout_unprotect opt_write_unprotect opt_go args []) as [r h] eqn:E.
  cbn [snd]. unfold load in E. cbv zeta in E. fold (reporter observe) in E.
  fold (effective_address load_address) in E.
  unfold bind at 1 in E. rewrite reporter_run in E. cbn [app] in E.
  unfold bind at 1 in E. unfold STM32Loader_init at 1 in E. cbv zeta in E.
  unfold bind at 1, emit at 1, ret at 1 in E.
  apply try_finally_close in E. destruct E as (hb & E & ->).
  match type of E with
  | ?body ?h1 = _ =>
      assert (adds_only port_event body) as Hbody
        by (eapply (adds_only_session dev port_event);
            [exact port_event_wire | exact port_event_call
            | intros s f; apply adds_only_reporter; reflexivity | reflexivity])
  end.
  destruct (Hbody _ _ _ E) as (session & -> & Hs).
  eexists _, _, session. split; [split; reflexivity|]. split; [|exact Hs].
  repeat rewrite <- app_assoc. reflexivity.
Qed.

(** ** What a session writes to the flash *)

(** The chunks handed to [write_memory] in the course of [m] are the
    beginning of [image], laid out from [address] in chunks of at most 256
    bytes, and the whole of it when [m] returns. *)
Definition writes_image {A} (address : Z) (image : bytes) (m : M A) : Prop :=
  forall h r h', m h = (r, h') ->
  exists cs,
    chunk_writes h' = chunk_writes h ++ cs /\
    contiguous address cs /\
    Forall (fun c => 0 < len (snd c) <= 256) cs /\
    (exists k, List.concat (map snd cs) = firstn k image) /\
    ((exists a, r = Ok a) -> List.concat (map snd cs) = image).

Section Written.

Variable dev : device.
Variables (address : Z) (image : bytes).

Local Abbreviation calm := (quiet is_write_chunk_call).

Lemma calm_call {A} (c : call) (to_val : A -> pyval) (m : M A) :
  (forall h r h', m h = (r, h') ->
     keep is_write_chunk_call h' =
       keep is_write_chunk_call h ++ keep is_write_chunk_call [EvCall c; outcome c to_val r]) ->
  (forall a d, c <> CWriteMemory a d) ->
  calm m.
Proof. apply (quiet_of_keep is_write_chunk_call chunk_calls_only). Qed.

Lemma calm_synchronize self skip : calm (synchronize self skip).
Proof.
  intros h r h' E.
  destruct (keep_synchronize is_write_chunk_call milestone_wire_chunk _ _ _ _ _ E) as [_ K].
  rewrite K. apply app_nil_r.
Qed.

Lemma calm_get : calm (get dev).
Proof.
  apply (calm_call CGet VInfo); [|intros ? ?; discriminate].
  apply keep_get, milestone_wire_chunk.
Qed.

Lemma calm_try_except {A} (m : M A) (handler : exn -> M A) :
  calm m -> (forall e, calm (handler e)) -> calm (try_except m handler).
Proof.
  intros Hm Hh h r h' E. unfold try_except in E.
  destruct (m h) as [[a|e] h1] eqn:E1.
  - inversion E; subst. eapply Hm; eassumption.
  - rewrite (Hh e _ _ _ E). eapply Hm; eassumption.
Qed.

Lemma calm_resynchronize loader n : calm (resynchronize dev loader n).
Proof.
  induction n as [|n IH]; simpl.
  - apply quiet_ret.
  - apply quiet_bind.
    + apply calm_try_except.
      * apply quiet_bind; [apply calm_get | intros ?; apply quiet_ret].
      * intros e. apply quiet_bind; [apply calm_synchronize | intros ?; apply quiet_ret].
    + intros [|]; [apply quiet_ret | exact IH].
Qed.

Lemma calm_reporter observe stage fraction : calm (reporter observe stage fraction).
Proof. apply reporter_quiet_sel. reflexivity. Qed.

Lemma calm_read_memory_blocks a n cb :
  (forall q, calm (cb q)) -> calm (read_memory_blocks dev a n (Some cb)).
Proof.
  intros Hcb h r h' E.
  destruct (keep_read_memory_blocks dev is_write_chunk_call milestone_wire_chunk
              a n cb h r h' Hcb E) as (inner & K & F).
  assert (inner = []) as ->.
  { destruct inner as [|e inner]; [reflexivity|]. exfalso.
    inversion F as [|? ? [Hs (c & Hc & a' & n' & ->)] _]; subst.
    rewrite (chunk_calls_only e _ Hc) in Hs by (intros ? ?; discriminate). discriminate. }
  rewrite K. destruct r; cbn; apply app_nil_r.
Qed.

Lemma writes_image_after {A B} (m : M A) (f : A -> M B) :
  calm m -> (forall a, writes_image address image (f a)) ->
  writes_image address image (bind m f).
Proof.
  intros Hm Hf h r h' E. unfold bind in E.
  destruct (m h) as [[a|e] h1] eqn:E1; pose proof (chunk_writes_quiet _ _ _ _ Hm E1) as K1.
  - destruct (Hf a _ _ _ E) as (cs & K & H). exists cs. rewrite K, K1. auto.
  - inversion E; subst. exists []. rewrite app_nil_r.
    split; [exact K1|]. split; [exact I|]. split; [constructor|].
    split; [exists 0%nat; reflexivity|]. intros [a Ha]. discriminate.
Qed.

Lemma writes_image_before {A B} (m : M A) (f : A -> M B) :
  writes_image address image m -> (forall a, calm (f a)) ->
  writes_image address image (bind m f).
Proof.
  intros Hm Hf h r h' E. unfold bind in E.
  destruct (m h) as [[a|e] h1] eqn:E1; destruct (Hm _ _ _ E1) as (cs & K & Hc & Hb & Hk & Hall).
  - exists cs. rewrite (chunk_writes_quiet _ _ _ _ (Hf a) E).
    repeat (split; [assumption|]). intros _. apply Hall. eauto.
  - inversion E; subst. exists cs.
    repeat (split; [assumption|]). intros [a Ha]. discriminate.
Qed.

Lemma writes_image_finally {A} (m : M A) (loader : STM32Loader) :
  writes_image address image m ->
  writes_image address image (try_finally m (close loader)).
Proof.
  intros Hm h r h' E. apply try_finally_close in E. destruct E as (hb & E & ->).
  destruct (Hm _ _ _ E) as (cs & K & H). exists cs.
  rewrite chunk_writes_app. cbn [chunk_writes flat_map]. rewrite app_nil_r. auto.
Qed.

Lemma writes_image_blocks cb :
  (forall q, calm (cb q)) ->
  writes_image address image (write_memory_blocks dev address image (Some cb)).
Proof.
  intros Hcb h r h' E.
  destruct (write_memory_blocks_run dev _ _ _ _ _ _ Hcb E) as (cs & K & Hc & Hb & Hk & Hall).
  exists cs. repeat (split; [assumption|]). intros [[] ->]. apply Hall. reflexivity.
Qed.

End Written.

(** X24.  In a run of [load] the chunks handed to [write_memory], in the order
    they are written, are at most 256 bytes long, lie one after the other
    from the load address, and put together are the beginning of the padded
    image; when [load] returns normally they are the whole padded image. *)
Theorem load_writes_image (dev : device) (port : string) (binary_image : bytes)
    (load_address : option Z) (observe opt_readout_unprotect opt_write_unprotect opt_go : bool)
    (args : loader_arguments) :
  let run := load dev port binary_image load_address (callback_of observe)
               opt_readout_unprotect opt_write_unprotect opt_go args [] in
  let address := effective_address load_address in
  let image := pad_image binary_image in
  exists cs,
    chunk_writes (snd run) = cs /\
    contiguous address cs /\
    Forall (fun c => 0 < len (snd c) <= 256) cs /\
    (exists k, List.concat (map snd cs) = firstn k image) /\
    (fst run = Ok tt -> List.concat (map snd cs) = image).
Proof.
  intros run address image. subst run.
  assert (writes_image address image
            (load dev port binary_image load_address (callback_of observe)
               opt_readout_unprotect opt_write_unprotect opt_go args)) as H.
  { unfold load. cbv zeta. fold (reporter observe).
    fold (effective_address load_address). fold address image.
    apply writes_image_after; [apply calm_reporter | intros ?].
    apply writes_image_after; [apply quiet_init, milestone_wire_chunk | intros loader].
    apply writes_image_finally.
    apply writes_image_after;
      [apply calm_try_except; [apply calm_synchronize | intros ?; apply quiet_ret]
      | intros ?].
    apply writes_image_after; [apply calm_resynchronize | intros ?].
    apply writes_image_after; [apply calm_get | intros var_get].
    apply writes_image_after;
      [apply (calm_call CGetVersionAndProtectionStatus VStatus);
       [apply keep_get_version, milestone_wire_chunk | intros ? ?; discriminate] | intros ?].
    apply writes_image_after;
      [apply (calm_call CGetId VInt);
       [apply keep_get_id, milestone_wire_chunk | intros ? ?; discriminate] | intros ?].
    apply writes_image_after; [apply calm_reporter | intros ?].
    apply writes_image_after.
    { destruct opt_readout_unprotect; [|apply quiet_ret].
      apply quiet_bind; [|intros ?; apply calm_synchronize].
      apply (calm_call CReadoutUnprotect to_none); [|intros ? ?; discriminate].
      apply keep_readout_unprotect, milestone_wire_chunk. }
    intros ?. apply writes_image_after.
    { destruct opt_write_unprotect; [|apply quiet_ret].
      apply quiet_bind; [|intros ?; apply calm_synchronize].
      apply (calm_call CWriteUnprotect to_none); [|intros ? ?; discriminate].
      apply keep_write_unprotect, milestone_wire_chunk. }
    intros ?. apply writes_image_after.
    { destruct (contains CMD_ERASE (commands var_get)).
      - apply (calm_call CGlobalErase to_none); [|intros ? ?; discriminate].
        apply keep_global_erase, milestone_wire_chunk.
      - apply (calm_call CExtendedErase to_none); [|intros ? ?; discriminate].
        apply keep_extended_erase, milestone_wire_chunk. }
    intros ?. apply writes_image_before;
      [apply writes_image_blocks; intros q; apply calm_reporter | intros ?].
    apply quiet_bind;
      [apply calm_read_memory_blocks; intros q; apply calm_reporter | intros readback].
    destruct (bytes_eq_dec readback image); [|apply quiet_raise].
    destruct opt_go; [|apply quiet_ret].
    apply (calm_call (CGo address) to_none); [|intros ? ?; discriminate].
    apply keep_go, milestone_wire_chunk. }
  destruct (load dev port binary_image load_address (callback_of observe)
              opt_readout_unprotect opt_write_unprotect opt_go args []) as [r h] eqn:E.
  cbn [fst snd]. destruct (H _ _ _ E) as (cs & K & Hc & Hb & Hk & Hall).
  exists cs. split; [exact K|]. repeat (split; [assumption|]).
  intros ->. apply Hall. eauto.
Qed.

(** A 1000-byte image on a healthy board: four chunks, 256, 256, 256 and 232
    bytes long. *)
Lemma load_writes_image_witness :
  let run := load (bootloader good_board) "COM1" (repeat x42 1000) None (callback_of false)
               false false true default_arguments [] in
  exists cs,
    chunk_writes (snd run) = cs /\
    contiguous DEFAULT_FLASH_ADDRESS cs /\
    Forall (fun c => 0 < len (snd c) <= 256) cs /\
    (exists k, List.concat (map snd cs) = firstn k (pad_image (repeat x42 1000))) /\
    (fst run = Ok tt -> List.concat (map snd cs) = pad_image (repeat x42 1000)).
Proof.
  exact (load_writes_image (bootloader good_board) "COM1" (repeat x42 1000) None false
           false false true default_arguments).
Defined.

(** ** The stages reported to the progress callback *)

Definition is_progress (e : event) : bool :=
  match e with
  | EvProgress _ _ => true
  | _ => false
  end.

(** What the progress callback has been given, in order. *)
Definition progress_of (h : history) : history := filter is_progress h.

(** The reports of one stage: the label with a fraction. *)
Definition stage (label : string) (fractions : list Q) : list event :=
  map (fun q => EvProgress (Some label) (Some q)) fractions.

(** A progress report that does not belong to the stage [label]. *)
Definition off_stage (label : string) (e : event) : bool :=
  match e with
  | EvProgress (Some s) (Some _) => negb (String.eqb s label)
  | EvProgress _ _ => true
  | _ => false
  end.

(** [m] reports to the callback a sequence described by [L]. *)
Definition announces {A} (L : list event -> Prop) (m : M A) : Prop :=
  forall h r h', m h = (r, h') ->
  exists t, progress_of h' = progress_of h ++ t /\ L t.

Lemma progress_of_app (h1 h2 : history) :
  progress_of (h1 ++ h2) = progress_of h1 ++ progress_of h2.
Proof. apply filter_app. Qed.

Lemma progress_wire (e : event) :
  on_wire e = true -> port_event e = false -> is_progress e = false.
Proof. destruct e; intros H; try discriminate; reflexivity. Qed.

Lemma progress_call (e : event) (c : call) : event_call e = Some c -> is_progress e = false.
Proof. destruct e; intros H; try discriminate; reflexivity. Qed.

Lemma off_stage_wire (label : string) (e : event) :
  on_wire e = true -> port_event e = false -> off_stage label e = false.
Proof. destruct e; intros H; try discriminate; reflexivity. Qed.

Lemma off_stage_call (label : string) (e : event) (c : call) :
  event_call e = Some c -> off_stage label e = false.
Proof. destruct e; intros H; try discriminate; reflexivity. Qed.

Lemma progress_of_silent (t : list event) :
  Forall (fun e => is_progress e = false) t -> progress_of t = [].
Proof.
  induction 1 as [|e t He _ IH]; [reflexivity|].
  unfold progress_of in *. cbn [filter]. rewrite He. exact IH.
Qed.

Lemma progress_of_stage (label : string) (t : list event) :
  Forall (fun e => off_stage label e = false) t ->
  exists fractions, progress_of t = stage label fractions.
Proof.
  induction 1 as [|e t He _ [qs IH]]; [exists []; reflexivity|].
  unfold progress_of in *. cbn [filter].
  destruct e as [| | | | | |s f| | |]; try (exists qs; exact IH).
  cbn [is_progress]. destruct s as [s|]; [|discriminate]. destruct f as [q|]; [|discriminate].
  cbn [off_stage] in He. apply negb_false_iff, String.eqb_eq in He. subst s.
  exists (q :: qs). rewrite IH. reflexivity.
Qed.

Lemma announces_silent {A} (m : M A) :
  adds_only is_progress m -> announces (fun t => t = []) m.
Proof.
  intros Hm h r h' E. destruct (Hm _ _ _ E) as (t & -> & F). exists [].
  rewrite progress_of_app, (progress_of_silent _ F). auto.
Qed.

Lemma announces_stage {A} (label : string) (m : M A) :
  adds_only (off_stage label) m ->
  announces (fun t => exists fractions, t = stage label fractions) m.
Proof.
  intros Hm h r h' E. destruct (Hm _ _ _ E) as (t & -> & F).
  destruct (progress_of_stage _ _ F) as (qs & Hq).
  exists (stage label qs). rewrite progress_of_app, Hq. eauto.
Qed.

Lemma announces_record (label : string) (fraction : option Q) :
  announces (fun t => t = [EvProgress (Some label) fraction])
          (record_progress label fraction).
Proof. intros h r h' E. inversion E. rewrite progress_of_app. eauto. Qed.

Lemma announces_seq {A B} (L1 L2 L : list event -> Prop) (m : M A) (f : A -> M B) :
  announces L1 m -> (forall a, announces L2 (f a)) ->
  (forall t1, L1 t1 -> L t1) ->
  (forall t1 t2, L1 t1 -> L2 t2 -> L (t1 ++ t2)) ->
  announces L (bind m f).
Proof.
  intros Hm Hf H1 H12 h r h' E. unfold bind in E.
  destruct (m h) as [[a|e] h1] eqn:E1; destruct (Hm _ _ _ E1) as (t1 & K1 & Ht1).
  - destruct (Hf a _ _ _ E) as (t2 & K2 & Ht2). exists (t1 ++ t2).
    rewrite K2, K1, <- app_assoc. auto.
  - inversion E; subst. eauto.
Qed.

Lemma announces_after {A B} (L : list event -> Prop) (m : M A) (f : A -> M B) :
  adds_only is_progress m -> (forall a, announces L (f a)) -> L [] ->
  announces L (bind m f).
Proof.
  intros Hm Hf H0.
  apply (announces_seq (fun t => t = []) L L); [apply announces_silent, Hm | exact Hf | |].
  - intros t1 ->. exact H0.
  - intros t1 t2 -> H2. exact H2.
Qed.

Lemma announces_before {A B} (L : list event -> Prop) (m : M A) (f : A -> M B) :
  announces L m -> (forall a, adds_only is_progress (f a)) ->
  announces L (bind m f).
Proof.
  intros Hm Hf.
  apply (announces_seq L (fun t => t = []) L);
    [exact Hm | intros a; apply announces_silent, Hf | auto |].
  intros t1 t2 H1 ->. rewrite app_nil_r. exact H1.
Qed.

(** The reports that follow the announcement of the synchronization:
    nothing, or the announcement of the configuration followed by the
    fractions of the write and then those of the verification. *)
Definition later_stages (t : list event) : Prop :=
  t = [] \/
  exists written verified,
    t = EvProgress (Some "Configuring target"%string) None
        :: stage "Writing image" written ++ stage "Verification" verified.

Lemma announces_session (dev : device) (loader : STM32Loader) (address : Z) (image : bytes)
    (ru wu g : bool) (body : M unit) :
  body =
    (try_except (synchronize loader false) (fun _ => ret tt) ;;
     resynchronize dev loader 3 ;;
     var_get <- get dev ;;
     get_version_and_protection_status dev ;;
     get_id dev ;;
     record_progress "Configuring target"%string None ;;
     (if ru then readout_unprotect dev ;; synchronize loader false else ret tt) ;;
     (if wu then write_unprotect dev ;; synchronize loader false else ret tt) ;;
     (if contains CMD_ERASE (commands var_get) then global_erase dev
      else extended_erase dev) ;;
     write_memory_blocks dev address image
       (Some (fun x => record_progress "Writing image"%string (Some x))) ;;
     readback <- read_memory_blocks dev address (len image)
                   (Some (fun x => record_progress "Verification"%string (Some x))) ;;
     if bytes_eq_dec readback image then
       if g then go dev address else ret tt
     else raise (STM32LoaderException "Verification failed")) ->
  announces later_stages body.
Proof.
  intros ->.
  pose proof progress_wire as Hw. pose proof progress_call as Hc.
  assert (later_stages []) as H0 by (left; reflexivity).
  apply announces_after;
    [apply adds_only_try_except;
       [apply adds_only_synchronize; assumption | intros ?; apply adds_only_ret]
    | intros ? | exact H0].
  apply announces_after; [apply adds_only_resynchronize; assumption | intros ? | exact H0].
  apply announces_after; [apply adds_only_get; assumption | intros var_get | exact H0].
  apply announces_after; [apply adds_only_get_version; assumption | intros ? | exact H0].
  apply announces_after; [apply adds_only_get_id; assumption | intros ? | exact H0].
  apply (announces_seq (fun t => t = [EvProgress (Some "Configuring target"%string) None])
           (fun t => exists written verified,
                       t = stage "Writing image" written ++ stage "Verification" verified)
           later_stages);
    [apply announces_record | intros ?
    | intros t1 ->; right; exists [], []; reflexivity
    | intros t1 t2 -> (ws & vs & ->); right; exists ws, vs; reflexivity].
  assert (exists written verified,
            @nil event = stage "Writing image" written ++ stage "Verification" verified)
    as H1 by (exists [], []; reflexivity).
  apply announces_after; [|intros ?|exact H1].
  { destruct ru; [|apply adds_only_ret].
    apply adds_only_bind;
      [apply adds_only_readout_unprotect | intros ?; apply adds_only_synchronize];
      assumption. }
  apply announces_after; [|intros ?|exact H1].
  { destruct wu; [|apply adds_only_ret].
    apply adds_only_bind;
      [apply adds_only_write_unprotect | intros ?; apply adds_only_synchronize];
      assumption. }
  apply announces_after; [|intros ?|exact H1].
  { destruct (contains CMD_ERASE (commands var_get));
      [apply adds_only_global_erase | apply adds_only_extended_erase]; assumption. }
  apply (announces_seq (fun t => exists written, t = stage "Writing image" written)
           (fun t => exists verified, t = stage "Verification" verified)).
  - apply announces_stage. apply adds_only_write_memory_blocks.
    + apply off_stage_wire.
    + apply off_stage_call.
    + intros q. apply adds_only_emit. reflexivity.
  - intros ?. apply announces_before.
    + apply announces_stage. apply adds_only_read_memory_blocks.
      * apply off_stage_wire.
      * apply off_stage_call.
      * intros q. apply adds_only_emit. reflexivity.
    + intros readback.
      destruct (bytes_eq_dec readback image); [|apply adds_only_raise].
      destruct g; [apply adds_only_go; assumption | apply adds_only_ret].
  - intros t1 (ws & ->). exists ws, []. rewrite app_nil_r. reflexivity.
  - intros t1 t2 (ws & ->) (vs & ->). exists ws, vs. reflexivity.
Qed.

(** X25.  The progress callback of [load] is first given 'Synchronization'; if
    anything follows, it is 'Configuring target', then the fractions of
    'Writing image', then those of 'Verification', in this order.  The first
    two stages come without a fraction.  Without a callback nothing is
    reported. *)
Theorem load_progress_stages (dev : device) (port : string) (binary_image : bytes)
    (load_address : option Z) (opt_readout_unprotect opt_write_unprotect opt_go : bool)
    (args : loader_arguments) :
  let run := load dev port binary_image load_address (Some record_progress)
               opt_readout_unprotect opt_write_unprotect opt_go args [] in
  let unobserved := load dev port binary_image load_address None
                      opt_readout_unprotect opt_write_unprotect opt_go args [] in
  (exists rest,
     progress_of (snd run) = EvProgress (Some "Synchronization"%string) None :: rest /\
     later_stages rest) /\
  progress_of (snd unobserved) = [].
Proof.
  intros run unobserved. subst run unobserved. split.
  - destruct (load dev port binary_image load_address (Some record_progress)
                opt_readout_unprotect opt_write_unprotect opt_go args []) as [r h] eqn:E.
    cbn [snd]. unfold load in E. cbv zeta in E. cbv iota in E.
    unfold bind at 1, record_progress at 1, emit at 1 in E. cbn [app] in E.
    unfold bind at 1 in E. unfold STM32Loader_init at 1 in E. cbv zeta in E.
    unfold bind at 1, emit at 1, ret at 1 in E.
    apply try_finally_close in E. destruct E as (hb & E & ->).
    match type of E with
    | ?body ?h1 = _ =>
        assert (announces later_stages body) as Hbody
          by (eapply announces_session; reflexivity)
    end.
    destruct (Hbody _ _ _ E) as (rest & K & Hrest).
    exists rest. split; [|exact Hrest].
    rewrite progress_of_app, K. cbn. rewrite app_nil_r. reflexivity.
  - destruct (load dev port binary_image load_address None
                opt_readout_unprotect opt_write_unprotect opt_go args []) as [r h] eqn:E.
    cbn [snd]. unfold load in E. cbv zeta in E. cbv iota in E.
    unfold bind at 1, ret at 1 in E.
    unfold bind at 1 in E. unfold STM32Loader_init at 1 in E. cbv zeta in E.
    unfold bind at 1, emit at 1, ret at 1 in E.
    apply try_finally_close in E. destruct E as (hb & E & ->).
    match type of E with
    | ?body ?h1 = _ =>
        assert (adds_only is_progress body) as Hbody
          by (eapply (adds_only_session dev is_progress _ _ _ (fun _ _ => ret tt));
              [exact progress_wire | exact progress_call
              | intros s f; apply adds_only_ret | reflexivity])
    end.
    destruct (Hbody _ _ _ E) as (t & -> & Ft).
    rewrite !progress_of_app, (progress_of_silent _ Ft). reflexivity.
Qed.
